(** * xform.c: image transformation functions of gifsicle

    A shallow embedding of [src/xform.c] and the properties its
    specification states about it: the colormap transform pipeline, the
    recolor and external-process transforms, crop, flip, rotate, scale and
    the stream resize.

    Conventions of the embedding.
    - C [int] values are integers of [Z]. The arithmetic of scale_image
      (its fixed-point products and sums, the shifts of its macros, the
      size and the indices of its buffer) and the pixel count of
      rotate_image are done on 32-bit [int]s: a result that no [int]
      holds, and a left shift of a negative value, are undefined
      behaviour and yield [Undef]; a right shift of a negative value is
      arithmetic. The sums and differences of positions and sizes in crop,
      flip and the offsets of rotate are those of [Z].
    - A C array is a [list]; reading or writing outside it, or through a
      null pointer, is undefined behaviour and yields [Undef].
    - A null-terminated singly linked list is the [list] of its nodes; the
      [next] field is the list structure.
    - [fatal_error] never returns: it yields [Fatal]. *)

From Stdlib Require Import ZArith Lia.
From Stdlib Require Import Floats.PrimFloat Floats.FloatOps Floats.SpecFloat.
From stdpp Require Import base option list strings gmap.

Local Open Scope Z_scope.

(** ** Outcomes of a C function *)

Module Outcome.

Inductive result (A : Type) : Type :=
| Ok (a : A)              (* the function returns *)
| Fatal (msg : string)    (* fatal_error: the run ends *)
| AssertFail              (* assert() does not hold: abort *)
| Undef.                  (* undefined behaviour *)

Arguments Ok {A} a.
Arguments Fatal {A} msg.
Arguments AssertFail {A}.
Arguments Undef {A}.

Definition bind {A B : Type} (m : result A) (k : A -> result B) : result B :=
  match m with
  | Ok a => k a
  | Fatal msg => Fatal msg
  | AssertFail => AssertFail
  | Undef => Undef
  end.

Definition is_Ok {A : Type} (m : result A) : Prop := exists a, m = Ok a.

(** [p[i]] for an array [p] and a C integer [i]. *)
Definition load {A : Type} (mem : list A) (i : Z) : result A :=
  if i <? 0 then Undef
  else match mem !! Z.to_nat i with
       | Some v => Ok v
       | None => Undef
       end.

(** [p[i] = v]. *)
Definition store {A : Type} (mem : list A) (i : Z) (v : A) : result (list A) :=
  if i <? 0 then Undef
  else if (Z.to_nat i <? length mem)%nat then Ok (<[Z.to_nat i := v]> mem)
  else Undef.

End Outcome.

Export Outcome.

#[global] Instance result_ret : MRet result := @Ok.
#[global] Instance result_bind : MBind result :=
  fun A B k m => Outcome.bind m k.

(** ** Arithmetic on [int] *)

Module CInt.

(** limits.h, for a 32-bit [int]. *)
Definition INT_MAX : Z := 2147483647.
Definition INT_MIN : Z := - 2147483648.

(** The result of an arithmetic operation on [int]s whose mathematical
    value is [z]: signed overflow is undefined behaviour. *)
Definition int (z : Z) : result Z :=
  if (INT_MIN <=? z) && (z <=? INT_MAX) then Ok z else Undef.

End CInt.

Export CInt.

(** ** The colormap transform pipeline (xform.c, lines 27-61) *)

(** Modelled from the spec: struct Gif_Color is declared in gif.h, which is
    not under src. A colormap entry has red, green and blue, a flag for an
    explicit pixel slot, and that slot. xform.c tests [haspixel] with [!]:
    zero means that the colour names no pixel slot. *)
Record Gif_Color : Type := mkColor {
  haspixel : Z;
  red : Z;
  green : Z;
  blue : Z;
  pixel : Z
}.

(** One (old colour, new colour) pair; the [next] field is the list. *)
Record Gt_ColorChange : Type := mkChange {
  old_color : Gif_Color;
  new_color : Gif_Color
}.

(** Modelled from the spec: the type color_transform_func is declared in
    gifsicle.h, which is not under src. It is the operation identifier of
    a node, a function pointer. Two of the functions live in xform.c; any
    other is known by its address. *)
Inductive color_transform_func : Type :=
| fn_color_change_transformer
| fn_pipe_color_transformer
| fn_extern (addr : Z).

(** The [void *data] payload of a node: a null pointer, the head of a
    Gt_ColorChange list, a command string, or anything else. *)
Inductive thunk : Type :=
| ThunkNull
| ThunkChanges (first_change : Gt_ColorChange) (rest : list Gt_ColorChange)
| ThunkCommand (command : string)
| ThunkOther (addr : Z).

(** Modelled from the spec: struct Gt_ColorTransform is declared in
    gifsicle.h, which is not under src. A node holds an operation
    identifier and an opaque payload; the [next] field is the list. *)
Record Gt_ColorTransform : Type := mkTransform {
  func : color_transform_func;
  data : thunk
}.

#[global] Instance color_transform_func_eq_dec : EqDecision color_transform_func.
Proof. solve_decision. Defined.

Module Pipeline.

(** [for (trav = list; trav && trav->next; trav = trav->next) ;]
    leaves [trav] at the last node, or null for an empty list. *)
Fixpoint last_node (trav : list Gt_ColorTransform) : option Gt_ColorTransform :=
  match trav with
  | [] => None
  | t :: next =>
      match next with
      | [] => Some t
      | _ :: _ => last_node next
      end
  end.

(** [trav->next = xform] for the last node [trav] of a non-empty list. *)
Fixpoint set_last_next (lst : list Gt_ColorTransform) (xform : Gt_ColorTransform)
  : list Gt_ColorTransform :=
  match lst with
  | [] => []
  | t :: next =>
      match next with
      | [] => [t; xform]
      | _ :: _ => t :: set_last_next next xform
      end
  end.

Definition append_color_transform (lst : list Gt_ColorTransform)
    (func : color_transform_func) (data : thunk) : list Gt_ColorTransform :=
  let xform := mkTransform func data in
  match last_node lst with
  | Some _ => set_last_next lst xform
  | None => [xform]
  end.

(** The loop of delete_color_transforms. [kept] is the list from its head
    to [prev]; [trav] is the rest, still to visit. Unlinking [trav]
    ([prev->next = next], or the head moved to [next] without a [prev]) leaves [kept]
    as it is; otherwise [prev = trav] extends it. *)
Fixpoint delete_loop (func0 : color_transform_func)
    (kept trav : list Gt_ColorTransform) : list Gt_ColorTransform :=
  match trav with
  | [] => kept
  | t :: next =>
      if decide (func t = func0) then delete_loop func0 kept next
      else delete_loop func0 (kept ++ [t]) next
  end.

Definition delete_color_transforms (lst : list Gt_ColorTransform)
    (func0 : color_transform_func) : list Gt_ColorTransform :=
  delete_loop func0 [] lst.

End Pipeline.

Export Pipeline.

(** ** Loops *)

Module Loops.

(** [for (i = lo; n iterations; i++) body], the state threaded through. *)
Fixpoint for_loop {S : Type} (n : nat) (i : Z) (body : Z -> S -> result S)
    (s : S) : result S :=
  match n with
  | O => Ok s
  | Datatypes.S n' => s' ← body i s; for_loop n' (i + 1) body s'
  end.

(** [for (i = lo; i < hi; i++) body]. *)
Definition for_upto {S : Type} (lo hi : Z) (body : Z -> S -> result S)
    (s : S) : result S :=
  for_loop (Z.to_nat (hi - lo)) lo body s.

(** [for (i = hi; n iterations; i--) body]. *)
Fixpoint down_loop {S : Type} (n : nat) (i : Z) (body : Z -> S -> result S)
    (s : S) : result S :=
  match n with
  | O => Ok s
  | Datatypes.S n' => s' ← body i s; down_loop n' (i - 1) body s'
  end.

(** [for (i = hi; i >= lo; i--) body]. *)
Definition for_downto {S : Type} (hi lo : Z) (body : Z -> S -> result S)
    (s : S) : result S :=
  down_loop (Z.to_nat (hi - lo + 1)) hi body s.

End Loops.

Export Loops.

(** ** The recolor transform (xform.c, lines 78-126) *)

(** Modelled from the spec: struct Gif_Colormap is declared in gif.h, which
    is not under src. A colormap is an ordered sequence of entries and a
    count. [col] is the allocated array, which may be longer than [ncol];
    the entries of the colormap are the first [ncol] of it. *)
Record Gif_Colormap : Type := mkColormap {
  ncol : Z;
  col : list Gif_Color
}.

(** Modelled from the spec: the macro GIF_COLOREQ is defined in gif.h,
    which is not under src. Two colours are equal when their RGB triples
    are. *)
Definition GIF_COLOREQ (c1 c2 : Gif_Color) : bool :=
  (red c1 =? red c2) && (green c1 =? green c2) && (blue c1 =? blue c2).

Module Recolor.

(** The inner loop of color_change_transformer for the entry [i]:
    [for (change = first_change; change; change = change->next)]. *)
Fixpoint change_loop (i : Z) (change : list Gt_ColorChange)
    (col : list Gif_Color) : result (list Gif_Color) :=
  match change with
  | [] => Ok col
  | ch :: next =>
      have ← (if haspixel (old_color ch) =? 0
              then c ← load col i; Ok (GIF_COLOREQ c (old_color ch))
              else Ok (pixel (old_color ch) =? i));
      if have : bool then store col i (new_color ch)   (* and break *)
      else change_loop i next col
  end.

(** [(Gt_ColorChange * )thunk]: a null pointer is the empty list; a
    pointer to anything else is not a list of changes. *)
Definition changes_of_thunk (t : thunk) : option (list Gt_ColorChange) :=
  match t with
  | ThunkNull => Some []
  | ThunkChanges c cs => Some (c :: cs)
  | ThunkCommand _ | ThunkOther _ => None
  end.

Definition color_change_transformer (gfcm : Gif_Colormap) (t : thunk)
  : result Gif_Colormap :=
  col' ← for_upto 0 (ncol gfcm)
           (fun i col =>
              match changes_of_thunk t with
              | Some first_change => change_loop i first_change col
              | None => Undef
              end)
           (col gfcm);
  Ok (mkColormap (ncol gfcm) col').

(** [xform->data = ...] on the last node of a non-empty list. *)
Fixpoint set_last_data (lst : list Gt_ColorTransform) (d : thunk)
  : list Gt_ColorTransform :=
  match lst with
  | [] => []
  | t :: next =>
      match next with
      | [] => [mkTransform (func t) d]
      | _ :: _ => t :: set_last_data next d
      end
  end.

(** append_color_change. When the last node is a recolor node, the new
    change is linked after the last change of its list
    ([while (prev->next) prev = prev->next; prev->next = change]); that
    reads [prev->next] first, so the list must not be null. *)
Definition append_color_change (lst : list Gt_ColorTransform)
    (old_color new_color : Gif_Color) : result (list Gt_ColorTransform) :=
  let change := mkChange old_color new_color in
  match last_node lst with
  | None =>
      Ok (append_color_transform lst fn_color_change_transformer
            (ThunkChanges change []))
  | Some xform =>
      if decide (func xform = fn_color_change_transformer) then
        match data xform with
        | ThunkChanges c cs => Ok (set_last_data lst (ThunkChanges c (cs ++ [change])))
        | ThunkNull | ThunkCommand _ | ThunkOther _ => Undef
        end
      else
        Ok (append_color_transform lst fn_color_change_transformer
              (ThunkChanges change []))
  end.

End Recolor.

Export Recolor.

(** ** The external-process transform (xform.c, lines 129-199) *)

Module Pipe.

Inductive severity : Type := SevError | SevWarning.

(** One call of [error] or [warning]. *)
Record diagnostic : Type := mkDiag {
  diag_severity : severity;
  diag_text : string
}.

(** What the transform can change outside the colormap: the files that
    exist, the command lines run, the lines written to the command's
    standard input, the diagnostics reported. *)
Record World : Type := mkWorld {
  files : gset string;
  commands : list string;
  piped : list (Z * Z * Z);
  diags : list diagnostic
}.

(** What the operating system, the command and the colormap parser answer
    in one run. [read_colormap_file] is not under src: its answer, and what
    it reports on its own, are taken from here. *)
Record PipeEnv : Type := mkPipeEnv {
  env_mkstemp : option string;        (* the file made, or failure *)
  env_popen : bool;                   (* f != 0 *)
  env_pclose : Z;                     (* the exit status *)
  env_fopen : bool;                   (* f != 0 *)
  env_feof : bool;
  env_read_colormap_file : option Gif_Colormap;
  env_read_reports : list diagnostic
}.

Definition create_file (name : string) (w : World) : World :=
  mkWorld ({[name]} ∪ files w) (commands w) (piped w) (diags w).

Definition remove (name : string) (w : World) : World :=
  mkWorld (files w ∖ {[name]}) (commands w) (piped w) (diags w).

Definition popen (command : string) (w : World) : World :=
  mkWorld (files w) (commands w ++ [command]) (piped w) (diags w).

Definition fprintf (c : Gif_Color) (w : World) : World :=
  mkWorld (files w) (commands w) (piped w ++ [(red c, green c, blue c)]) (diags w).

Definition report (ds : list diagnostic) (w : World) : World :=
  mkWorld (files w) (commands w) (piped w) (diags w ++ ds).

Definition error (text : string) (w : World) : World :=
  report [mkDiag SevError text] w.

Definition warning (text : string) (w : World) : World :=
  report [mkDiag SevWarning text] w.

(** The label [done]: [remove(tmp_file); Gif_DeleteColormap(new_cm);]. *)
Definition done_label (tmp_file : string) (w : World) (gfcm : Gif_Colormap)
  : result (World * Gif_Colormap) :=
  Ok (remove tmp_file w, gfcm).

Definition pipe_color_transformer (env : PipeEnv) (w : World)
    (gfcm : Gif_Colormap) (command : string) : result (World * Gif_Colormap) :=
  match env_mkstemp env with
  | None => Fatal "can't create temporary file!"
  | Some tmp_file =>
      let w := create_file tmp_file w in
      let new_command := (command +:+ "  >" +:+ tmp_file)%string in
      if negb (env_popen env) then
        Fatal "can't run color transformation command: %s"
      else
        let w := popen new_command w in
        w ← for_upto 0 (ncol gfcm)
              (fun i w => c ← load (col gfcm) i; Ok (fprintf c w)) w;
        let status := env_pclose env in
        if status <? 0 then
          done_label tmp_file (error "color transformation error: %s" w) gfcm
        else if 0 <? status then
          done_label tmp_file (error "color transformation command failed" w) gfcm
        else if negb (env_fopen env) || env_feof env then
          done_label tmp_file
            (error "color transformation command generated no output" w) gfcm
        else
          let w := report (env_read_reports env) w in
          match env_read_colormap_file env with
          | Some new_cm =>
              let nc := ncol new_cm in
              let '(nc, w) :=
                if nc <? ncol gfcm then
                  (ncol gfcm,
                   warning "too few colors in color transformation results" w)
                else if ncol gfcm <? nc then
                  (nc, warning "too many colors in color transformation results" w)
                else (nc, w) in
              col' ← for_upto 0 nc
                       (fun i col' => c ← load (col new_cm) i; store col' i c)
                       (col gfcm);
              done_label tmp_file w (mkColormap (ncol gfcm) col')
          | None => done_label tmp_file w gfcm
          end
  end.

End Pipe.

Export Pipe.

(** ** Applying the pipeline (xform.c, lines 63-75) *)

Module Apply.

(** Modelled from the spec: struct Gif_Stream and struct Gif_Image are
    declared in gif.h, which is not under src. apply_color_transforms
    reads three things of a stream: its global colormap, the number of its
    frames and the local colormap of each frame, each of them a pointer
    that may be null. [colormaps] holds the colormap objects; a pointer is
    the index of its object, so that two frames can share one colormap. *)
Record Gif_Colormaps : Type := mkColormaps {
  colormaps : list Gif_Colormap;
  global : option Z;
  locals : list (option Z)
}.

Section Call.

(** [xform->func(gfcm, xform->data)]: the call through the function
    pointer of a node. The function called can change the colormap and
    the world around it, end the run, or go wrong. *)
Variable call : color_transform_func -> thunk -> Gif_Colormap -> World ->
                result (World * Gif_Colormap).

(** The call on the colormap that [p] points to. The state is the world
    and the colormap objects. *)
Definition transform_at (xform : Gt_ColorTransform) (p : Z)
    (st : World * list Gif_Colormap) : result (World * list Gif_Colormap) :=
  let '(w, cms) := st in
  gfcm ← load cms p;
  '(w, gfcm) ← call (func xform) (data xform) gfcm w;
  cms ← store cms p gfcm;
  Ok (w, cms).

(** The body of the loop over the nodes. *)
Definition apply_node (gfs : Gif_Colormaps) (xform : Gt_ColorTransform)
    (st : World * list Gif_Colormap) : result (World * list Gif_Colormap) :=
  st ← match global gfs with
       | Some p => transform_at xform p st
       | None => Ok st
       end;
  for_upto 0 (Z.of_nat (length (locals gfs)))
    (fun i st =>
       local ← load (locals gfs) i;
       match local with
       | Some p => transform_at xform p st
       | None => Ok st
       end)
    st.

(** apply_color_transforms: [for (xform = list; xform; xform = xform->next)].
    It returns the world and the colormap objects it leaves. *)
Fixpoint apply_color_transforms (lst : list Gt_ColorTransform)
    (gfs : Gif_Colormaps) (st : World * list Gif_Colormap)
  : result (World * list Gif_Colormap) :=
  match lst with
  | [] => Ok st
  | xform :: next =>
      st ← apply_node gfs xform st;
      apply_color_transforms next gfs st
  end.

End Call.

(** The functions of xform.c behind their pointers. [pipe_env] says what
    the operating system, the command and the parser answer to a run of
    the external-process transform; [extern] is a function from elsewhere,
    known by its address. *)
Definition call_xform (pipe_env : World -> Gif_Colormap -> string -> PipeEnv)
    (extern : Z -> thunk -> Gif_Colormap -> World -> result (World * Gif_Colormap))
    (f : color_transform_func) (d : thunk) (gfcm : Gif_Colormap) (w : World)
  : result (World * Gif_Colormap) :=
  match f with
  | fn_color_change_transformer =>
      gfcm ← color_change_transformer gfcm d; Ok (w, gfcm)
  | fn_pipe_color_transformer =>
      match d with
      | ThunkCommand command =>
          pipe_color_transformer (pipe_env w gfcm command) w gfcm command
      | ThunkNull | ThunkChanges _ _ | ThunkOther _ => Undef
      end
  | fn_extern addr => extern addr d gfcm w
  end.

End Apply.

Export Apply.

(** ** Frames *)

(** Modelled from the spec: struct Gif_Image is declared in gif.h, which is
    not under src. A frame has a pixel buffer organised as rows of
    palette-index bytes, a width and a height, a left/top offset on the
    screen, a transparent index, and is held in raw form or only in
    compressed form.

    [image_data] is the block of pixel bytes. [img] is the row table
    [uint8_t **img]: [None] is the null pointer (the frame is not in raw
    form), and the entry [y] of [Some rows] is the offset in [image_data]
    at which the row [y] starts, so that [img[y][x]] is
    [image_data[rows[y] + x]]. Two rows may share bytes; the table's
    closing null entry is not kept. The integer fields are integers of
    [Z]: a store to one of them keeps the value as it is. *)
Module Image.

Record Gif_Image : Type := mkImage {
  img : option (list Z);
  image_data : list Z;
  width : Z;
  height : Z;
  left : Z;
  top : Z;
  transparent : Z;
  compressed : option (list Z)
}.

(** The row table as an array: reading a row through a null table is
    undefined, like reading past the end of an empty one. *)
Definition rows (gfi : Gif_Image) : list Z := default [] (img gfi).

(** [gfi->img[y][x]]. *)
Definition getpixel (gfi : Gif_Image) (y x : Z) : result Z :=
  row ← load (rows gfi) y; load (image_data gfi) (row + x).

(** Modelled from the spec: Gif_ReleaseUncompressedImage (giffunc.c, not
    under src) releases the raw row buffer. *)
Definition Gif_ReleaseUncompressedImage (gfi : Gif_Image) : Gif_Image :=
  mkImage None [] (width gfi) (height gfi) (left gfi) (top gfi)
          (transparent gfi) (compressed gfi).

(** Modelled from the spec: Gif_ReleaseCompressedImage (giffunc.c, not
    under src) releases the compressed representation. *)
Definition Gif_ReleaseCompressedImage (gfi : Gif_Image) : Gif_Image :=
  mkImage (img gfi) (image_data gfi) (width gfi) (height gfi) (left gfi)
          (top gfi) (transparent gfi) None.

(** Modelled from the spec: Gif_SetUncompressedImage (giffunc.c, not under
    src) installs a new contiguous pixel buffer: the row [y] of the frame
    starts [y * width] bytes into it. *)
Definition Gif_SetUncompressedImage (gfi : Gif_Image) (new_data : list Z)
  : Gif_Image :=
  mkImage (Some (map (fun y => Z.of_nat y * width gfi)
                     (seq 0 (Z.to_nat (height gfi)))))
          new_data (width gfi) (height gfi) (left gfi) (top gfi)
          (transparent gfi) (compressed gfi).

Definition set_size (gfi : Gif_Image) (w h : Z) : Gif_Image :=
  mkImage (img gfi) (image_data gfi) w h (left gfi) (top gfi)
          (transparent gfi) (compressed gfi).

Definition set_offset (gfi : Gif_Image) (l t : Z) : Gif_Image :=
  mkImage (img gfi) (image_data gfi) (width gfi) (height gfi) l t
          (transparent gfi) (compressed gfi).

Definition set_img (gfi : Gif_Image) (table : option (list Z)) : Gif_Image :=
  mkImage table (image_data gfi) (width gfi) (height gfi) (left gfi) (top gfi)
          (transparent gfi) (compressed gfi).

Definition set_image_data (gfi : Gif_Image) (bytes : list Z) : Gif_Image :=
  mkImage (img gfi) bytes (width gfi) (height gfi) (left gfi) (top gfi)
          (transparent gfi) (compressed gfi).

Definition set_transparent (gfi : Gif_Image) (t : Z) : Gif_Image :=
  mkImage (img gfi) (image_data gfi) (width gfi) (height gfi) (left gfi)
          (top gfi) t (compressed gfi).

End Image.

Abbreviation Gif_Image := Image.Gif_Image.

(** ** Crop (xform.c, lines 207-262) *)

Module Crop.

(** Modelled from the spec: struct Gt_Crop is declared in gifsicle.h, which
    is not under src. A crop rectangle has x, y, a width and a height, and
    the left/top anchor of the requested rectangle; these are the fields
    that xform.c uses. *)
Record Gt_Crop : Type := mkCrop {
  x : Z;
  y : Z;
  w : Z;
  h : Z;
  left_offset : Z;
  top_offset : Z
}.

Definition combine_crop (dstcrop srccrop : Gt_Crop) (gfi : Gif_Image) : Gt_Crop :=
  let x0 := x srccrop - Image.left gfi in
  let y0 := y srccrop - Image.top gfi in
  let w0 := w srccrop in
  let h0 := h srccrop in
  (* Check that the rectangle actually intersects with the image. *)
  let '(w1, x1) := if x0 <? 0 then (w0 + x0, 0) else (w0, x0) in
  let '(h1, y1) := if y0 <? 0 then (h0 + y0, 0) else (h0, y0) in
  let w2 := if Image.width gfi <? x1 + w1 then Image.width gfi - x1 else w1 in
  let h2 := if Image.height gfi <? y1 + h1 then Image.height gfi - y1 else h1 in
  mkCrop x1 y1 w2 h2 (left_offset dstcrop) (top_offset dstcrop).

(** The local [Gt_Crop c] of crop_image before combine_crop fills it; its
    offsets are never read. *)
Definition fresh_crop : Gt_Crop := mkCrop 0 0 0 0 0 0.

(** crop_image returns the frame and its [int] result, as a boolean. *)
Definition crop_image (gfi : Gif_Image) (crop : Gt_Crop)
    (preserve_total_crop : bool) : result (Gif_Image * bool) :=
  let c := combine_crop fresh_crop crop gfi in
  '(gfi, c_w, c_h, table) ←
    (if (0 <? w c) && (0 <? h c) then
       table ← for_upto 0 (h c)
                 (fun j table =>
                    row ← load (Image.rows gfi) (y c + j);
                    Ok (table ++ [row + x c]))
                 [];
       Ok (Image.set_offset gfi
             (Image.left gfi + (x c - left_offset crop))
             (Image.top gfi + (y c - top_offset crop)),
           w c, h c, Some table)
     else if preserve_total_crop then
       row0 ← load (Image.rows gfi) 0;
       pixel0 ← load (Image.image_data gfi) (row0 + 0);
       Ok (Image.set_transparent gfi pixel0, 1, 1, Some [row0])
     else
       (* Empty image *)
       Ok (gfi, 0, 0, None));
  let gfi := Image.set_img gfi table in
  let gfi := Image.set_size gfi c_w c_h in
  Ok (gfi, bool_decide (Image.img gfi <> None)).

End Crop.

(** ** Flip and rotate (xform.c, lines 269-336) *)

Module FlipRotate.

(** [memcpy(buffer, p, n)] into a fresh buffer of [n] elements. *)
Definition memcpy {A : Type} (mem : list A) (p n : Z) : result (list A) :=
  if (p <? 0) || (n <? 0) || (Z.of_nat (length mem) <? p + n) then Undef
  else Ok (take (Z.to_nat n) (drop (Z.to_nat p) mem)).

(** The body of the row loop of a horizontal flip. *)
Definition flip_row (width : Z) (row : Z) (mem : list Z) : result (list Z) :=
  buffer ← memcpy mem row width;
  '(_, mem) ← for_upto 0 width
      (fun x '(trav, mem) =>
         b ← load buffer x;
         mem ← store mem trav b;
         Ok (trav - 1, mem))
      (row + width - 1, mem);
  Ok mem.

Definition flip_image (gfi : Gif_Image) (screen_width screen_height : Z)
    (is_vert : bool) : result Gif_Image :=
  let width := Image.width gfi in
  let height := Image.height gfi in
  (* horizontal flips *)
  gfi ← (if negb is_vert then
           mem ← for_upto 0 height
                   (fun y mem => row ← load (Image.rows gfi) y; flip_row width row mem)
                   (Image.image_data gfi);
           Ok (Image.set_offset (Image.set_image_data gfi mem)
                 (screen_width - (Image.left gfi + width)) (Image.top gfi))
         else Ok gfi);
  (* vertical flips *)
  if is_vert then
    buffer ← memcpy (Image.rows gfi) 0 height;
    table ← for_upto 0 height
              (fun y table => row ← load buffer (height - y - 1); store table y row)
              (Image.rows gfi);
    Ok (Image.set_offset
          (Image.set_img gfi (match Image.img gfi with
                              | Some _ => Some table
                              | None => None
                              end))
          (Image.left gfi) (screen_height - (Image.top gfi + height)))
  else Ok gfi.

Section Allocation.

(** What a fresh block of memory holds, cell by cell: Gif_NewArray (a
    macro of gif.h, not under src) allocates and does not initialise. *)
Variable uninit : nat -> Z.

Definition Gif_NewArray (n : Z) : list Z := map uninit (seq 0 (Z.to_nat n)).

(** [*trav++ = img[y][x]]. *)
Definition rotate_put (gfi : Gif_Image) (x y : Z) (st : Z * list Z)
  : result (Z * list Z) :=
  let '(trav, new_data) := st in
  v ← Image.getpixel gfi y x;
  new_data ← store new_data trav v;
  Ok (trav + 1, new_data).

Definition rotate_image (gfi : Gif_Image) (screen_width screen_height : Z)
    (rotation : Z) : result Gif_Image :=
  let width := Image.width gfi in
  let height := Image.height gfi in
  n ← int (width * height);
  let new_data := Gif_NewArray n in
  let trav := 0 in
  (* this function can only rotate by 90 or 270 degrees *)
  if negb ((rotation =? 1) || (rotation =? 3)) then AssertFail
  else
    '(gfi', new_data) ←
      (if rotation =? 1 then
         '(_, new_data) ← for_upto 0 width
             (fun x st => for_downto (height - 1) 0 (fun y st => rotate_put gfi x y st) st)
             (trav, new_data);
         Ok (Image.set_offset gfi
               (screen_height - (Image.top gfi + height)) (Image.left gfi),
             new_data)
       else
         '(_, new_data) ← for_downto (width - 1) 0
             (fun x st => for_upto 0 height (fun y st => rotate_put gfi x y st) st)
             (trav, new_data);
         Ok (Image.set_offset gfi
               (Image.top gfi) (screen_width - (Image.left gfi + width)),
             new_data));
    let gfi' := Image.Gif_ReleaseUncompressedImage gfi' in
    let gfi' := Image.set_size gfi' height width in
    Ok (Image.Gif_SetUncompressedImage gfi' new_data).

End Allocation.

End FlipRotate.

(** ** Scale (xform.c, lines 343-473) *)

Module Scale.

Import FlipRotate.

(** The values of the macros. *)
Definition SCALE (d : Z) : Z := Z.shiftl d 10.
Definition UNSCALE_NOROUND (d : Z) : Z := Z.shiftr d 10.
Definition UNSCALE (d : Z) : Z := UNSCALE_NOROUND (d + Z.shiftl 1 9).
Definition SCALE_FACTOR : Z := SCALE 1.

(** The macros evaluated on an [int] [d]. [(d) << 10] is undefined for a
    negative [d] and when no [int] holds the result; [(d) + (1 << 9)] is
    undefined when no [int] holds it. *)
Definition SCALE_int (d : Z) : result Z :=
  if d <? 0 then Undef else int (SCALE d).
Definition UNSCALE_int (d : Z) : result Z :=
  s ← int (d + Z.shiftl 1 9); Ok (UNSCALE_NOROUND s).

(** [(double) i]: the conversion of an [int], which is exact. *)
Definition int_to_double (i : Z) : float :=
  SF2Prim (binary_normalize prec emax i 0 false).

(** [(int) d]: the fraction is dropped; a value that no [int] holds is
    undefined behaviour. *)
Definition double_to_int (d : float) : result Z :=
  match Prim2SF d with
  | S754_zero _ => Ok 0
  | S754_finite s m e =>
      let mag := match e with
                 | Z0 => Zpos m
                 | Zpos p => Z.shiftl (Zpos m) (Zpos p)
                 | Zneg p => Z.shiftr (Zpos m) (Zpos p)
                 end in
      let i := if s then - mag else mag in
      if (INT_MIN <=? i) && (i <=? INT_MAX) then Ok i else Undef
  | S754_infinity _ | S754_nan => Undef
  end.

(** Modelled from the spec: struct Gif_Stream is declared in gif.h, which
    is not under src. A stream has a screen width and height and an
    ordered sequence of frames; [nimages] is the length of [images]. *)
Record Gif_Stream : Type := mkStream {
  images : list Gif_Image;
  screen_width : Z;
  screen_height : Z
}.

Definition nimages (gfs : Gif_Stream) : Z := Z.of_nat (length (images gfs)).

(** Modelled from the spec: Gif_CalculateScreenSize (giffunc.c, not under
    src) recomputes the screen size from the frame placements, so that the
    screen bounds every frame. *)
Definition Gif_CalculateScreenSize (gfs : Gif_Stream) : Gif_Stream :=
  mkStream (images gfs)
    (foldr (fun gfi m => Z.max (Image.left gfi + Image.width gfi) m)
           (screen_width gfs) (images gfs))
    (foldr (fun gfi m => Z.max (Image.top gfi + Image.height gfi) m)
           (screen_height gfs) (images gfs)).

Section Codec.

Variable uninit : nat -> Z.

(** The pixel codec (gifread.c and gifwrite.c, not under src): decode a
    frame to its raw row buffer, and recompress a raw buffer. *)
Variable Gif_UncompressImage : Gif_Image -> Gif_Image.
Variable Gif_FullCompressImage : Gif_Stream -> Gif_Image -> Gif_Image.

(** The geometry of the scaled frame: the steps and the four edges. *)
Record geometry : Type := mkGeometry {
  scaled_xstep : Z;
  scaled_ystep : Z;
  new_left : Z;
  new_top : Z;
  new_right : Z;
  new_bottom : Z;
  new_width : Z;
  new_height : Z
}.

Definition scale_geometry (gfi : Gif_Image) (xfactor yfactor : float)
  : result geometry :=
  (* use fixed-point arithmetic *)
  scaled_xstep ← double_to_int (int_to_double SCALE_FACTOR * xfactor + 0.5)%float;
  scaled_ystep ← double_to_int (int_to_double SCALE_FACTOR * yfactor + 0.5)%float;
  new_left ← (p ← int (scaled_xstep * Image.left gfi); UNSCALE_int p);
  new_top ← (p ← int (scaled_ystep * Image.top gfi); UNSCALE_int p);
  new_right ← (e ← int (Image.left gfi + Image.width gfi);
               p ← int (scaled_xstep * e); UNSCALE_int p);
  new_bottom ← (e ← int (Image.top gfi + Image.height gfi);
                p ← int (scaled_ystep * e); UNSCALE_int p);
  new_width ← int (new_right - new_left);
  new_height ← int (new_bottom - new_top);
  '(new_width, new_right) ←
    (if new_width <=? 0 then r ← int (new_left + 1); Ok (1, r)
     else Ok (new_width, new_right));
  '(new_height, new_bottom) ←
    (if new_height <=? 0 then b ← int (new_top + 1); Ok (1, b)
     else Ok (new_height, new_bottom));
  if (UNSCALE_NOROUND INT_MAX <? new_width)
     || (UNSCALE_NOROUND INT_MAX <? new_height) then
    Fatal "new image size is too big for me to handle"
  else
    Ok (mkGeometry scaled_xstep scaled_ystep new_left new_top new_right
          new_bottom new_width new_height).

(** [for (yinc = 0; yinc < y_delta; yinc++)
       out_data[yinc * new_width] = in_line[i];] *)
Definition scale_fill (gfi : Gif_Image) (g : geometry) (in_line i : Z)
    (y_delta out_data : Z) (new_data : list Z) : result (list Z) :=
  for_upto 0 y_delta
    (fun yinc new_data =>
       v ← load (Image.image_data gfi) (in_line + i);
       o ← int (yinc * new_width g);
       store new_data (out_data + o) v)
    new_data.

(** The body of the loop over the columns [i] of a source row. The state
    is [new_x], [scaled_new_x], [out_data] and the output buffer. *)
Definition scale_column (gfi : Gif_Image) (g : geometry) (in_line y_delta : Z)
    (i : Z) (st : Z * Z * Z * list Z) : result (Z * Z * Z * list Z) :=
  let '(new_x, scaled_new_x, out_data, new_data) := st in
  scaled_new_x ← int (scaled_new_x + scaled_xstep g);
  (* account for images which should've had 0 width but don't *)
  scaled_new_x ←
    (if i =? Image.width gfi - 1 then SCALE_int (new_right g)
     else Ok scaled_new_x);
  x_delta ← (s ← SCALE_int new_x; d ← int (scaled_new_x - s); UNSCALE_int d);
  '(new_x, out_data, new_data) ←
    down_loop (Z.to_nat x_delta) x_delta
      (fun _ '(new_x, out_data, new_data) =>
         new_data ← scale_fill gfi g in_line i y_delta out_data new_data;
         new_x ← int (new_x + 1);
         Ok (new_x, out_data + 1, new_data))
      (new_x, out_data, new_data);
  Ok (new_x, scaled_new_x, out_data, new_data).

(** The body of the loop over the source rows [j]. The state is [new_y],
    [scaled_new_y] and the output buffer. *)
Definition scale_row (gfi : Gif_Image) (g : geometry)
    (j : Z) (st : Z * Z * list Z) : result (Z * Z * list Z) :=
  let '(new_y, scaled_new_y, new_data) := st in
  in_line ← load (Image.rows gfi) j;
  scaled_new_y ← int (scaled_new_y + scaled_ystep g);
  (* account for images which should've had 0 height but don't *)
  scaled_new_y ←
    (if j =? Image.height gfi - 1 then SCALE_int (new_bottom g)
     else Ok scaled_new_y);
  next_row ← (n ← int (new_y + 1); SCALE_int n);
  if scaled_new_y <? next_row then Ok (new_y, scaled_new_y, new_data)
  else
    y_delta ← (s ← SCALE_int new_y; d ← int (scaled_new_y - s); UNSCALE_int d);
    let new_x := new_left g in
    scaled_new_x ← int (scaled_xstep g * Image.left gfi);
    out_data ← (dy ← int (new_y - new_top g);
                r ← int (dy * new_width g);
                dx ← int (new_x - new_left g);
                int (r + dx));
    '(_, _, _, new_data) ←
      for_upto 0 (Image.width gfi) (scale_column gfi g in_line y_delta)
        (new_x, scaled_new_x, out_data, new_data);
    new_y ← int (new_y + y_delta);
    Ok (new_y, scaled_new_y, new_data).

Definition scale_image (gfs : Gif_Stream) (gfi : Gif_Image)
    (xfactor yfactor : float) : result Gif_Image :=
  let was_compressed := bool_decide (Image.img gfi = None) in
  g ← scale_geometry gfi xfactor yfactor;
  let gfi := if was_compressed then Gif_UncompressImage gfi else gfi in
  n ← int (new_width g * new_height g);
  let new_data := Gif_NewArray uninit n in
  let new_y := new_top g in
  scaled_new_y ← int (scaled_ystep g * Image.top gfi);
  '(_, _, new_data) ←
    for_upto 0 (Image.height gfi) (scale_row gfi g)
      (new_y, scaled_new_y, new_data);
  left' ← (p ← int (scaled_xstep g * Image.left gfi); UNSCALE_int p);
  top' ← (p ← int (scaled_ystep g * Image.top gfi); UNSCALE_int p);
  let gfi := Image.Gif_ReleaseUncompressedImage gfi in
  let gfi := Image.Gif_ReleaseCompressedImage gfi in
  let gfi := Image.set_size gfi (new_width g) (new_height g) in
  let gfi := Image.set_offset gfi left' top' in
  let gfi := Image.Gif_SetUncompressedImage gfi new_data in
  if was_compressed then
    Ok (Image.Gif_ReleaseUncompressedImage (Gif_FullCompressImage gfs gfi))
  else Ok gfi.

(** The factors and target size that resize_stream settles on; [None]
    stands for its two early returns. *)
Definition resize_plan (gfs : Gif_Stream) (new_width new_height : Z)
    (fit : bool) : result (option (float * float * Z * Z)) :=
  let xfactor := (int_to_double new_width / int_to_double (screen_width gfs))%float in
  let yfactor := (int_to_double new_height / int_to_double (screen_height gfs))%float in
  if (new_width <=? 0) && (new_height <=? 0) then
    (* do nothing *)
    Ok None
  else
    '(xfactor, yfactor, new_width, new_height) ←
      (if new_width <=? 0 then
         let xfactor := yfactor in
         new_width ← double_to_int
           (int_to_double (screen_width gfs) * xfactor + 0.5)%float;
         Ok (xfactor, yfactor, new_width, new_height)
       else if new_height <=? 0 then
         let yfactor := xfactor in
         new_height ← double_to_int
           (int_to_double (screen_height gfs) * yfactor + 0.5)%float;
         Ok (xfactor, yfactor, new_width, new_height)
       else Ok (xfactor, yfactor, new_width, new_height));
    if fit && (screen_width gfs <=? new_width)
       && (screen_height gfs <=? new_height) then
      (* do nothing *)
      Ok None
    else if fit && PrimFloat.ltb xfactor yfactor then
      let yfactor := xfactor in
      new_height ← double_to_int
        (int_to_double (screen_height gfs) * yfactor + 0.5)%float;
      Ok (Some (xfactor, yfactor, new_width, new_height))
    else if fit && PrimFloat.ltb yfactor xfactor then
      let xfactor := yfactor in
      new_width ← double_to_int
        (int_to_double (screen_width gfs) * xfactor + 0.5)%float;
      Ok (Some (xfactor, yfactor, new_width, new_height))
    else Ok (Some (xfactor, yfactor, new_width, new_height)).

Definition resize_stream (gfs : Gif_Stream) (new_width new_height : Z)
    (fit : bool) : result Gif_Stream :=
  let gfs := Gif_CalculateScreenSize gfs in
  plan ← resize_plan gfs new_width new_height fit;
  match plan with
  | None => Ok gfs
  | Some (xfactor, yfactor, new_width, new_height) =>
      gfs ← for_upto 0 (nimages gfs)
              (fun i gfs =>
                 gfi ← load (images gfs) i;
                 gfi ← scale_image gfs gfi xfactor yfactor;
                 images' ← store (images gfs) i gfi;
                 Ok (mkStream images' (screen_width gfs) (screen_height gfs)))
              gfs;
      Ok (mkStream (images gfs) new_width new_height)
  end.

End Codec.

End Scale.

(** * Vocabulary of the properties *)

(** ** Recolor *)

(** A change matches the entry [i], which holds the colour [c]: its old
    colour has no explicit pixel slot and the RGB triple of [c], or it has
    the explicit pixel slot [i]. *)
Definition change_matches (i : Z) (c : Gif_Color) (ch : Gt_ColorChange) : Prop :=
  (haspixel (old_color ch) = 0
   /\ red c = red (old_color ch)
   /\ green c = green (old_color ch)
   /\ blue c = blue (old_color ch))
  \/ (haspixel (old_color ch) <> 0 /\ pixel (old_color ch) = i).

#[global] Instance change_matches_dec i c ch : Decision (change_matches i c ch).
Proof. unfold change_matches. apply _. Defined.

(** The change number [k] is the first one, in registration order, that
    matches the entry. *)
Definition first_match (i : Z) (c : Gif_Color) (changes : list Gt_ColorChange)
    (k : nat) (ch : Gt_ColorChange) : Prop :=
  changes !! k = Some ch
  /\ change_matches i c ch
  /\ forall k' ch', (k' < k)%nat -> changes !! k' = Some ch' ->
       ~ change_matches i c ch'.

(** The changes already registered in the recolor node at the tail of a
    pipeline: none when the tail is another transform or the pipeline is
    empty. [None] when the tail is a recolor node without a change list,
    which append_color_change cannot extend. *)
Definition tail_changes (lst : list Gt_ColorTransform)
  : option (list Gt_ColorChange) :=
  match last_node lst with
  | None => Some []
  | Some t =>
      if decide (func t = fn_color_change_transformer) then
        match data t with
        | ThunkChanges c cs => Some (c :: cs)
        | _ => None
        end
      else Some []
  end.

(** The colour an entry ends with. *)
Definition recolored (changes : list Gt_ColorChange) (i : nat) (c : Gif_Color)
  : Gif_Color :=
  match list_find (change_matches (Z.of_nat i) c) changes with
  | Some (_, ch) => new_color ch
  | None => c
  end.

(** ** Crop *)

Section CropVocabulary.

Import Crop.

(** The requested rectangle and the frame have no pixel in common: on one
    axis, the smaller of the two far edges is not beyond the larger of the
    two near edges. *)
Definition intersection_empty (crop : Gt_Crop) (gfi : Gif_Image) : Prop :=
  Z.min (x crop + w crop) (Image.left gfi + Image.width gfi)
    <= Z.max (x crop) (Image.left gfi)
  \/ Z.min (y crop + h crop) (Image.top gfi + Image.height gfi)
    <= Z.max (y crop) (Image.top gfi).

End CropVocabulary.

(** ** Frames in raw form *)

(** A frame in raw form: it has a row table with one row for each of its
    [height] lines, every row lies within the pixel bytes, and no two rows
    share a byte. *)
Record raw_frame (gfi : Gif_Image) : Prop := mkRawFrame {
  raw_width : 0 <= Image.width gfi;
  raw_height : 0 <= Image.height gfi;
  raw_table : exists table, Image.img gfi = Some table;
  raw_rows : Z.of_nat (length (Image.rows gfi)) = Image.height gfi;
  raw_bounds : forall (y : nat) (row : Z),
    Image.rows gfi !! y = Some row ->
    0 <= row /\ row + Image.width gfi <= Z.of_nat (length (Image.image_data gfi));
  raw_disjoint : forall (y1 y2 : nat) (r1 r2 : Z),
    y1 <> y2 ->
    Image.rows gfi !! y1 = Some r1 -> Image.rows gfi !! y2 = Some r2 ->
    r1 + Image.width gfi <= r2 \/ r2 + Image.width gfi <= r1
}.

(** The pixel of a frame, for the coordinates that have one. *)
Definition pix (gfi : Gif_Image) (yx : Z * Z) : Z :=
  match Image.getpixel gfi yx.1 yx.2 with
  | Ok v => v
  | _ => 0
  end.

(** ** Traversals and buffers *)

(** A step that fills a buffer of [N] cells through a moving pointer
    [trav] appends [out] to what has been written so far. *)
Definition appends (N : nat) (step : Z * list Z -> result (Z * list Z))
    (out : list Z) : Prop :=
  forall (trav : Z) (nd : list Z),
    0 <= trav -> length nd = N ->
    trav + Z.of_nat (length out) <= Z.of_nat N ->
    exists nd',
      step (trav, nd) = Ok (trav + Z.of_nat (length out), nd')
      /\ length nd' = N
      /\ take (Z.to_nat trav + length out) nd' = take (Z.to_nat trav) nd ++ out.

(** The indices a downward loop visits. *)
Fixpoint downfrom (i : Z) (n : nat) : list Z :=
  match n with
  | O => []
  | Datatypes.S n' => i :: downfrom (i - 1) n'
  end.

(** The coordinates (row, column) in the order of a traversal that takes
    the columns [xs] one after the other and, within a column, the rows
    [ys] one after the other. *)
Definition by_columns (xs ys : list Z) : list (Z * Z) :=
  concat (map (fun x => map (fun y => (y, x)) ys) xs).

(** ** Scale and resize *)

Section ScaleVocabulary.

Import Scale.

Variable Gif_UncompressImage : Gif_Image -> Gif_Image.
Variable Gif_FullCompressImage : Gif_Stream -> Gif_Image -> Gif_Image.

(** The edges of a frame that scale_image can multiply by the step 1024
    and round within an [int]: the frame is not placed at a negative
    position, and its right and bottom edge are at most 2097151. *)
Definition edges_fit_int (gfi : Gif_Image) : Prop :=
  0 <= Image.left gfi /\ 0 <= Image.top gfi
  /\ Image.left gfi + Image.width gfi <= UNSCALE_NOROUND INT_MAX
  /\ Image.top gfi + Image.height gfi <= UNSCALE_NOROUND INT_MAX.

(** The geometry of a frame scaled by 1.0. *)
Definition unit_geometry (gfi : Gif_Image) : geometry :=
  mkGeometry 1024 1024 (Image.left gfi) (Image.top gfi)
    (Image.left gfi + Image.width gfi) (Image.top gfi + Image.height gfi)
    (Image.width gfi) (Image.height gfi).

(** The frame that the scan of scale_image reads: the frame itself when it
    is in raw form, and what the codec decodes it to otherwise. *)
Definition decoded (gfi : Gif_Image) : Gif_Image :=
  if bool_decide (Image.img gfi = None) then Gif_UncompressImage gfi else gfi.

(** A frame of 100 by 100 at the origin of the screen. *)
Definition full_screen_100 (gfi : Gif_Image) : Prop :=
  Image.left gfi = 0 /\ Image.top gfi = 0
  /\ Image.width gfi = 100 /\ Image.height gfi = 100.

(** The codec changes the representation of a frame, not its place or its
    size. *)
Definition codec_keeps_geometry : Prop :=
  (forall gfi,
     Image.left (Gif_UncompressImage gfi) = Image.left gfi
     /\ Image.top (Gif_UncompressImage gfi) = Image.top gfi
     /\ Image.width (Gif_UncompressImage gfi) = Image.width gfi
     /\ Image.height (Gif_UncompressImage gfi) = Image.height gfi)
  /\ (forall gfs gfi,
        Image.left (Gif_FullCompressImage gfs gfi) = Image.left gfi
        /\ Image.top (Gif_FullCompressImage gfs gfi) = Image.top gfi
        /\ Image.width (Gif_FullCompressImage gfs gfi) = Image.width gfi
        /\ Image.height (Gif_FullCompressImage gfs gfi) = Image.height gfi).

(** The geometry of a frame of 100 by 100 at the origin scaled by 0.5. *)
Definition half_geometry : geometry := mkGeometry 512 512 0 0 50 50 50 50.

End ScaleVocabulary.

(** ** Applying the pipeline *)

(** The colormaps that apply_color_transforms visits for one node, in the
    order of its visits: the global colormap, then the local colormap of
    each frame that has one. A colormap appears once for each pointer to
    it. *)
Definition visited (gfs : Gif_Colormaps) : list Z :=
  match global gfs with
  | Some p => [p]
  | None => []
  end ++ omap id (locals gfs).

(** The number of pointers to the colormap [q]. *)
Definition references (gfs : Gif_Colormaps) (q : Z) : nat :=
  length (filter (fun p => p = q) (visited gfs)).

(** A transform that, on the colormaps that satisfy [P], changes the
    colormap by [g] and nothing else, and keeps [P]. *)
Definition pure_call
    (call : color_transform_func -> thunk -> Gif_Colormap -> World ->
            result (World * Gif_Colormap))
    (xform : Gt_ColorTransform) (P : Gif_Colormap -> Prop)
    (g : Gif_Colormap -> Gif_Colormap) : Prop :=
  forall gfcm w,
    P gfcm ->
    call (func xform) (data xform) gfcm w = Ok (w, g gfcm) /\ P (g gfcm).

(** What a list of transforms, each changing a colormap by [gs] of its
    node, makes of a colormap that [n] pointers lead to: node after node,
    each [n] times. *)
Definition pipeline_on
    (gs : Gt_ColorTransform -> Gif_Colormap -> Gif_Colormap) (n : nat)
    (lst : list Gt_ColorTransform) (cm : Gif_Colormap) : Gif_Colormap :=
  foldl (fun cm xform => Nat.iter n (gs xform) cm) cm lst.

(** A colormap whose count does not exceed its array. *)
Definition colormap_in_bounds (gfcm : Gif_Colormap) : Prop :=
  0 <= ncol gfcm <= Z.of_nat (length (col gfcm)).

(** What the recolor transform with the payload [d] makes of a colormap. *)
Definition recolor_with (d : thunk) (gfcm : Gif_Colormap) : Gif_Colormap :=
  match color_change_transformer gfcm d with
  | Ok gfcm' => gfcm'
  | _ => gfcm
  end.

(** ** What the scan of scale_image writes *)

Section ScanVocabulary.

Import Scale.

(** The column [X] of the screen lies within the scaled extent of the
    column [i] of the frame: from its scaled left edge, rounded, up to its
    scaled right edge, rounded; the last column extends to the right edge
    of the new frame. *)
Definition column_of (gfi : Gif_Image) (g : geometry) (i X : Z) : Prop :=
  UNSCALE (scaled_xstep g * (Image.left gfi + i)) <= X
  /\ (i < Image.width gfi - 1 ->
      X < UNSCALE (scaled_xstep g * (Image.left gfi + i + 1))).

(** The row [Y] of the screen lies within the scaled extent of the row [j]
    of the frame: from its scaled top edge, rounded down, up to its scaled
    bottom edge, rounded; the last row extends to the bottom edge of the
    new frame. *)
Definition row_of (gfi : Gif_Image) (g : geometry) (j Y : Z) : Prop :=
  UNSCALE_NOROUND (scaled_ystep g * (Image.top gfi + j)) <= Y
  /\ (j < Image.height gfi - 1 ->
      Y < UNSCALE (scaled_ystep g * (Image.top gfi + j + 1))).

(** The cell (Y, X) of the output buffer holds the pixel of a row and a
    column of the frame whose scaled extents contain it. *)
Definition shows (gfi : Gif_Image) (g : geometry) (new_data : list Z)
    (Y X : Z) : Prop :=
  exists j i v,
    0 <= j < Image.height gfi /\ 0 <= i < Image.width gfi
    /\ load new_data (Y * new_width g + X) = Ok v
    /\ Image.getpixel gfi j i = Ok v
    /\ row_of gfi g j (new_top g + Y)
    /\ column_of gfi g i (new_left g + X).

(** What the edge computation of scale_image guarantees. *)
Record geometry_of (gfi : Gif_Image) (g : geometry) : Prop := mkGeometryOf {
  geo_left : new_left g = UNSCALE (scaled_xstep g * Image.left gfi);
  geo_top : new_top g = UNSCALE (scaled_ystep g * Image.top gfi);
  geo_right : new_right g = new_left g + new_width g;
  geo_bottom : new_bottom g = new_top g + new_height g;
  geo_width : 1 <= new_width g <= UNSCALE_NOROUND INT_MAX;
  geo_height : 1 <= new_height g <= UNSCALE_NOROUND INT_MAX;
  geo_right_edge :
    UNSCALE (scaled_xstep g * (Image.left gfi + Image.width gfi)) <= new_right g;
  geo_bottom_edge :
    UNSCALE (scaled_ystep g * (Image.top gfi + Image.height gfi)) <= new_bottom g;
  geo_x_start :
    INT_MIN <= scaled_xstep g * Image.left gfi
    /\ scaled_xstep g * Image.left gfi + 512 <= INT_MAX;
  geo_x_end :
    INT_MIN <= scaled_xstep g * (Image.left gfi + Image.width gfi)
    /\ scaled_xstep g * (Image.left gfi + Image.width gfi) + 512 <= INT_MAX;
  geo_y_start :
    INT_MIN <= scaled_ystep g * Image.top gfi
    /\ scaled_ystep g * Image.top gfi + 512 <= INT_MAX;
  geo_y_end :
    INT_MIN <= scaled_ystep g * (Image.top gfi + Image.height gfi)
    /\ scaled_ystep g * (Image.top gfi + Image.height gfi) + 512 <= INT_MAX
}.

(** The scan of scale_image stays within the [int]s: the frame is not
    placed at a negative position (the macro SCALE shifts the current
    output position to the left); the right and the bottom edge of the new
    frame can be scaled by 1024, and so can the row below the current
    output row, which is tested at every source row: either the bottom
    edge leaves room for it, or the step is at least 1024, so that every
    source row moves the output on; and the new buffer has no more than
    INT_MAX cells. *)
Definition scan_fits_int (gfi : Gif_Image) (g : geometry) : Prop :=
  0 <= Image.left gfi /\ 0 <= Image.top gfi
  /\ new_right g <= UNSCALE_NOROUND INT_MAX
  /\ new_bottom g <= UNSCALE_NOROUND INT_MAX
  /\ (new_bottom g < UNSCALE_NOROUND INT_MAX \/ 1024 <= scaled_ystep g)
  /\ new_width g * new_height g <= INT_MAX.

End ScanVocabulary.

(** ** Outcomes *)


(** ** Pictures *)

(** The frame [g] shows what the raw frame [gfi] shows: it has its place
    and its size, and the same pixel at every coordinate. *)
Definition same_picture (gfi g : Gif_Image) : Prop :=
  Image.left g = Image.left gfi /\ Image.top g = Image.top gfi
  /\ Image.width g = Image.width gfi /\ Image.height g = Image.height gfi
  /\ forall y x,
       0 <= y < Image.height gfi -> 0 <= x < Image.width gfi ->
       exists v, Image.getpixel g y x = Ok v /\ Image.getpixel gfi y x = Ok v.

(** ** Sample values *)

Definition ex_red : Gif_Color := mkColor 0 255 0 0 0.
Definition ex_blue : Gif_Color := mkColor 0 0 0 255 0.
Definition ex_green : Gif_Color := mkColor 0 0 255 0 0.
Definition ex_white : Gif_Color := mkColor 0 255 255 255 0.

Definition ex_tmp_file : string := "/tmp/gifsicle.Ab3xQz".
Definition ex_world : World := mkWorld ∅ [] [] [].
Definition ex_colormap : Gif_Colormap := mkColormap 2 [ex_red; ex_white].

(** The command exits with status 1. *)
Definition ex_env_failed : PipeEnv :=
  mkPipeEnv (Some ex_tmp_file) true 1 true false None [].


(** The command succeeds and the parser returns one colour, in an array
    with room for two: the second cell is not an entry of the parsed
    colormap. *)
Definition ex_env_too_few : PipeEnv :=
  mkPipeEnv (Some ex_tmp_file) true 0 true false
    (Some (mkColormap 1 [ex_blue; ex_green])) [].

(** The same, in an array of one cell. *)
Definition ex_env_too_few_tight : PipeEnv :=
  mkPipeEnv (Some ex_tmp_file) true 0 true false
    (Some (mkColormap 1 [ex_blue])) [].

(** The parser returns two colours for a colormap of one. *)
Definition ex_env_too_many : PipeEnv :=
  mkPipeEnv (Some ex_tmp_file) true 0 true false
    (Some (mkColormap 2 [ex_blue; ex_green])) [].

Section SampleFrames.

Import Crop.

(** A raw 2 by 2 frame at the origin of the screen, and a rectangle that
    lies outside it. *)
Definition ex_frame : Gif_Image :=
  Image.mkImage (Some [0; 2]) [7; 8; 9; 10] 2 2 0 0 (-1) None.
Definition ex_crop_outside : Gt_Crop := mkCrop 5 5 3 3 5 5.
Definition ex_crop_inside : Gt_Crop := mkCrop 1 0 4 4 1 0.

(** A raw 2 by 3 frame whose rows lie 4 bytes apart in its pixel bytes. *)
Definition ex_wide_frame : Gif_Image :=
  Image.mkImage (Some [0; 4]) [1; 2; 3; 0; 4; 5; 6; 0] 3 2 10 20 (-1) None.

(** The same frame, placed at the right edge of [ex_wide_frame]. *)
Definition ex_right_frame : Gif_Image :=
  Image.mkImage (Some [0; 4]) [1; 2; 3; 0; 4; 5; 6; 0] 3 2 13 20 (-1) None.

(** What scale_image makes of the two, by 1.5 across and by 0.5 down. *)
Definition ex_wide_frame_scaled : Gif_Image :=
  Image.mkImage (Some [0]) [4; 4; 5; 6; 6] 5 1 15 10 (-1) None.
Definition ex_right_frame_scaled : Gif_Image :=
  Image.mkImage (Some [0]) [4; 5; 5; 6] 4 1 20 10 (-1) None.

(** A codec for the examples: a frame held in compressed form decodes to
    rows of zeros, and a raw frame compresses to nothing. *)
Definition ex_uncompress (gfi : Gif_Image) : Gif_Image :=
  Image.Gif_SetUncompressedImage gfi
    (replicate (Z.to_nat (Image.width gfi * Image.height gfi)) 0).
Definition ex_compress (gfs : Scale.Gif_Stream) (gfi : Gif_Image) : Gif_Image :=
  Image.mkImage (Image.img gfi) (Image.image_data gfi) (Image.width gfi)
    (Image.height gfi) (Image.left gfi) (Image.top gfi)
    (Image.transparent gfi) (Some []).

Definition ex_scale_image : Scale.Gif_Stream -> Gif_Image -> float -> float ->
                            result Gif_Image :=
  Scale.scale_image (fun _ => 0) ex_uncompress ex_compress.

Definition ex_resize_stream : Scale.Gif_Stream -> Z -> Z -> bool ->
                              result Scale.Gif_Stream :=
  Scale.resize_stream (fun _ => 0) ex_uncompress ex_compress.

(** The 2 by 2 frame [1 2 / 3 4]. *)
Definition ex_square : Gif_Image :=
  Image.mkImage (Some [0; 2]) [1; 2; 3; 4] 2 2 0 0 (-1) None.

(** A raw frame without pixels: a row table with no row. *)
Definition ex_empty_frame : Gif_Image :=
  Image.mkImage (Some []) [] 0 0 3 4 (-1) None.

(** A frame of 100 by 100 at the origin, held in compressed form only. *)
Definition ex_compressed_100 : Gif_Image :=
  Image.mkImage None [] 100 100 0 0 (-1) (Some [0]).

(** A frame of 3000 columns and one row, held in compressed form only. *)
Definition ex_broad_frame : Gif_Image :=
  Image.mkImage None [] 3000 1 0 0 (-1) (Some []).

End SampleFrames.

(** * Properties *)

(** A step through the bind of [result]. *)
Ltac run_bind := cbn [mbind result_bind Outcome.bind].
Tactic Notation "run_bind" "in" hyp(H) :=
  cbn [mbind result_bind Outcome.bind] in H.

(** ** Loop rules *)

Section LoopRules.

Context {S : Type}.
Implicit Types (body : Z -> S -> result S) (P : Z -> S -> Prop).

(** A loop whose body keeps an invariant returns, and the invariant holds
    after the last iteration. *)
Lemma for_loop_invariant P body n i s :
  P i s ->
  (forall k t, i <= k < i + Z.of_nat n -> P k t ->
     exists t', body k t = Ok t' /\ P (k + 1) t') ->
  exists s', for_loop n i body s = Ok s' /\ P (i + Z.of_nat n) s'.
Proof.
  revert i s. induction n as [|n IH]; intros i s Hi Hstep.
  - exists s. simpl. rewrite Z.add_0_r. auto.
  - destruct (Hstep i s) as (t & Hb & Ht); [lia | assumption |].
    destruct (IH (i + 1) t) as (s' & Hl & Hs'); [assumption | |].
    + intros k u Hk. apply Hstep. lia.
    + exists s'. simpl. rewrite Hb. simpl. split; [exact Hl|].
      replace (i + Z.of_nat (Datatypes.S n)) with (i + 1 + Z.of_nat n) by lia.
      exact Hs'.
Qed.

Lemma for_upto_invariant P body lo hi s :
  lo <= hi ->
  P lo s ->
  (forall k t, lo <= k < hi -> P k t ->
     exists t', body k t = Ok t' /\ P (k + 1) t') ->
  exists s', for_upto lo hi body s = Ok s' /\ P hi s'.
Proof.
  intros Hle H0 Hstep. unfold for_upto.
  destruct (for_loop_invariant P body (Z.to_nat (hi - lo)) lo s) as (s' & H1 & H2).
  - assumption.
  - intros k t Hk. apply Hstep. lia.
  - exists s'. split; [assumption|].
    replace hi with (lo + Z.of_nat (Z.to_nat (hi - lo))) at 1 by lia. assumption.
Qed.

End LoopRules.

(** ** Memory rules *)

Lemma load_Ok {A : Type} (mem : list A) (i : Z) (v : A) :
  load mem i = Ok v <-> 0 <= i /\ mem !! Z.to_nat i = Some v.
Proof.
  unfold load. destruct (Z.ltb_spec i 0).
  - split; [discriminate | lia].
  - destruct (mem !! Z.to_nat i) eqn:E; split.
    + intros [= ->]. auto.
    + intros [_ [= ->]]. reflexivity.
    + discriminate.
    + intros [_ [=]].
Qed.

Lemma load_lookup {A : Type} (mem : list A) (i : nat) (v : A) :
  mem !! i = Some v -> load mem (Z.of_nat i) = Ok v.
Proof. intros H. apply load_Ok. rewrite Nat2Z.id. split; [lia | exact H]. Qed.

Lemma store_Ok {A : Type} (mem : list A) (i : Z) (v : A) :
  0 <= i < Z.of_nat (length mem) ->
  store mem i v = Ok (<[Z.to_nat i := v]> mem).
Proof.
  intros H. unfold store.
  destruct (Z.ltb_spec i 0); [lia|].
  destruct (Nat.ltb_spec (Z.to_nat i) (length mem)); [reflexivity | lia].
Qed.

(** ** Arithmetic on [int] *)

Lemma int_Ok (z : Z) : INT_MIN <= z <= INT_MAX -> int z = Ok z.
Proof.
  intros [H1 H2]. unfold int.
  destruct (Z.leb_spec INT_MIN z); [|lia].
  destruct (Z.leb_spec z INT_MAX); [reflexivity | lia].
Qed.

Lemma int_inv (z v : Z) : int z = Ok v -> v = z /\ INT_MIN <= z <= INT_MAX.
Proof.
  unfold int. destruct (Z.leb_spec INT_MIN z); [|discriminate].
  destruct (Z.leb_spec z INT_MAX); [|discriminate].
  intros [= <-]. auto.
Qed.

(** A bind that returns has returned on both sides. *)
Lemma bind_Ok_inv {A B : Type} (m : result A) (k : A -> result B) (b : B) :
  m ≫= k = Ok b -> exists a, m = Ok a /\ k a = Ok b.
Proof. destruct m as [a| | |]; try discriminate. eauto. Qed.

(** ** The transform list *)

Lemma last_node_snoc (lst : list Gt_ColorTransform) (x : Gt_ColorTransform) :
  last_node (lst ++ [x]) = Some x.
Proof.
  induction lst as [|t next IH]; [reflexivity|].
  simpl. destruct (next ++ [x]) eqn:E; [by destruct next|]. exact IH.
Qed.

Lemma last_node_last (lst : list Gt_ColorTransform) : last_node lst = last lst.
Proof.
  induction lst as [|t next IH]; [reflexivity|].
  simpl. destruct next; [reflexivity | exact IH].
Qed.

Lemma set_last_next_app (lst : list Gt_ColorTransform) (x : Gt_ColorTransform) :
  lst <> [] -> set_last_next lst x = lst ++ [x].
Proof.
  induction lst as [|t next IH]; [done|]. intros _.
  simpl. destruct next as [|u next']; [reflexivity|].
  f_equal. apply IH. discriminate.
Qed.

Lemma append_color_transform_app lst f d :
  append_color_transform lst f d = lst ++ [mkTransform f d].
Proof.
  unfold append_color_transform. destruct lst as [|t next]; [reflexivity|].
  destruct (last_node (t :: next)) eqn:E.
  - apply set_last_next_app. discriminate.
  - rewrite last_node_last, last_None in E. discriminate.
Qed.

Lemma delete_loop_filter f0 kept trav :
  delete_loop f0 kept trav = kept ++ filter (fun t => func t <> f0) trav.
Proof.
  revert kept. induction trav as [|t next IH]; intros kept; simpl.
  - by rewrite app_nil_r.
  - destruct (decide (func t = f0)) as [E|E].
    + rewrite IH. rewrite filter_cons_False; [reflexivity | tauto].
    + rewrite IH. rewrite filter_cons_True by assumption.
      by rewrite <- app_assoc.
Qed.

(** C9. append_color_transform puts the new node at the tail and leaves
    the existing nodes in their order; the list it returns starts with the
    old head when there was one and with the new node otherwise.
    delete_color_transforms returns the nodes whose function is not the
    given one, in their order, whatever their payload; the result may be
    empty. *)
Theorem transform_list_append_delete :
  forall (lst : list Gt_ColorTransform) (f : color_transform_func) (d : thunk)
         (f0 : color_transform_func),
    append_color_transform lst f d = lst ++ [mkTransform f d]
    /\ head (append_color_transform lst f d)
       = Some (default (mkTransform f d) (head lst))
    /\ delete_color_transforms lst f0 = filter (fun t => func t <> f0) lst
    /\ sublist (delete_color_transforms lst f0) lst
    /\ (forall t, t ∈ delete_color_transforms lst f0 <-> t ∈ lst /\ func t <> f0)
    /\ (forall t, func t = f0 -> delete_color_transforms [t] f0 = []).
Proof.
  intros lst f d f0.
  assert (Hdel : delete_color_transforms lst f0 = filter (fun t => func t <> f0) lst).
  { unfold delete_color_transforms. by rewrite delete_loop_filter. }
  rewrite append_color_transform_app, Hdel.
  split; [reflexivity|]. split; [by destruct lst|]. split; [reflexivity|].
  split; [apply sublist_filter|]. split.
  - intros t. rewrite list_elem_of_filter. tauto.
  - intros t Ht. unfold delete_color_transforms. simpl.
    by destruct (decide (func t = f0)).
Qed.

(** ** The recolor transform *)

Lemma GIF_COLOREQ_true (c1 c2 : Gif_Color) :
  GIF_COLOREQ c1 c2 = true <->
  red c1 = red c2 /\ green c1 = green c2 /\ blue c1 = blue c2.
Proof. unfold GIF_COLOREQ. rewrite !andb_true_iff, !Z.eqb_eq. tauto. Qed.

(** What the test of the loop body computes is [change_matches]. *)
Lemma have_matches (i : Z) (c : Gif_Color) (ch : Gt_ColorChange) :
  (if haspixel (old_color ch) =? 0 then GIF_COLOREQ c (old_color ch)
   else pixel (old_color ch) =? i) = bool_decide (change_matches i c ch).
Proof.
  unfold change_matches. destruct (Z.eqb_spec (haspixel (old_color ch)) 0) as [E|E].
  - destruct (GIF_COLOREQ c (old_color ch)) eqn:G; symmetry.
    + apply bool_decide_eq_true. left. apply GIF_COLOREQ_true in G. tauto.
    + apply bool_decide_eq_false. intros [[_ H]|[H _]]; [|done].
      apply GIF_COLOREQ_true in H. congruence.
  - destruct (Z.eqb_spec (pixel (old_color ch)) i) as [P|P]; symmetry.
    + apply bool_decide_eq_true. right. done.
    + apply bool_decide_eq_false. intros [[H _]|[_ H]]; done.
Qed.

(** The inner loop replaces the entry by the new colour of the first
    matching change, and by nothing else. *)
Lemma change_loop_first_match (i : nat) (c : Gif_Color)
    (changes : list Gt_ColorChange) (col : list Gif_Color) :
  col !! i = Some c ->
  change_loop (Z.of_nat i) changes col =
  Ok (match list_find (change_matches (Z.of_nat i) c) changes with
      | Some (_, ch) => <[i := new_color ch]> col
      | None => col
      end).
Proof.
  intros Hc. induction changes as [|ch next IH]; [reflexivity|].
  assert (Hhave :
    (if haspixel (old_color ch) =? 0
     then c0 ← load col (Z.of_nat i); Ok (GIF_COLOREQ c0 (old_color ch))
     else Ok (pixel (old_color ch) =? Z.of_nat i))
    = Ok (bool_decide (change_matches (Z.of_nat i) c ch))).
  { rewrite <- have_matches. rewrite (load_lookup _ _ _ Hc).
    by destruct (haspixel (old_color ch) =? 0). }
  cbn [change_loop]. rewrite Hhave. cbn [list_find].
  simpl. destruct (decide (change_matches (Z.of_nat i) c ch)) as [M|M].
  - rewrite bool_decide_eq_true_2 by assumption.
    rewrite store_Ok; [by rewrite Nat2Z.id|].
    apply lookup_lt_Some in Hc. lia.
  - rewrite bool_decide_eq_false_2 by assumption.
    rewrite IH. by destruct (list_find _ next) as [[? ?]|].
Qed.

Lemma recolored_first_match changes i c k ch :
  first_match (Z.of_nat i) c changes k ch -> recolored changes i c = new_color ch.
Proof.
  intros (Hk & Hm & Hfirst). unfold recolored.
  destruct (list_find _ changes) as [[k0 ch0]|] eqn:E.
  - apply list_find_Some in E as (Hk0 & Hm0 & Hfirst0).
    destruct (Nat.lt_trichotomy k0 k) as [L|[L|L]].
    + exfalso. exact (Hfirst k0 ch0 L Hk0 Hm0).
    + subst. congruence.
    + exfalso. exact (Hfirst0 k ch Hk L Hm).
  - exfalso. eapply list_find_None in E. rewrite Forall_forall in E.
    apply (E ch); [|assumption]. by eapply list_elem_of_lookup_2.
Qed.

Lemma recolored_no_match changes i c :
  (forall ch, ch ∈ changes -> ~ change_matches (Z.of_nat i) c ch) ->
  recolored changes i c = c.
Proof.
  intros H. unfold recolored.
  destruct (list_find _ changes) as [[k0 ch0]|] eqn:E; [|reflexivity].
  apply list_find_Some in E as (Hk0 & Hm0 & _).
  exfalso. apply (H ch0); [|assumption]. by eapply list_elem_of_lookup_2.
Qed.

(** color_change_transformer returns on every colormap whose count does
    not exceed its array, with each entry recoloured independently. *)
Lemma color_change_transformer_recolored (gfcm : Gif_Colormap) (t : thunk)
    (changes : list Gt_ColorChange) :
  changes_of_thunk t = Some changes ->
  0 <= ncol gfcm <= Z.of_nat (length (col gfcm)) ->
  exists col',
    color_change_transformer gfcm t = Ok (mkColormap (ncol gfcm) col')
    /\ length col' = length (col gfcm)
    /\ forall (i : nat) (c : Gif_Color), col gfcm !! i = Some c ->
         col' !! i = Some (if Z.of_nat i <? ncol gfcm
                           then recolored changes i c else c).
Proof.
  intros Ht Hn. unfold color_change_transformer. rewrite Ht.
  destruct (for_upto_invariant
    (fun k col' =>
       length col' = length (col gfcm)
       /\ forall (i : nat) (c : Gif_Color), col gfcm !! i = Some c ->
            col' !! i = Some (if Z.of_nat i <? k then recolored changes i c else c))
    (fun i col' => change_loop i changes col') 0 (ncol gfcm) (col gfcm))
    as (col' & Hrun & Hlen & Hcol).
  - lia.
  - split; [reflexivity|]. intros i c Hc.
    destruct (Z.ltb_spec (Z.of_nat i) 0); [lia | assumption].
  - intros k cur Hk (Hlen & Hcur).
    destruct (lookup_lt_is_Some_2 (col gfcm) (Z.to_nat k)) as [c Hc]; [lia|].
    pose proof (Hcur _ _ Hc) as Hk0.
    destruct (Z.ltb_spec (Z.of_nat (Z.to_nat k)) k); [lia|].
    pose proof (change_loop_first_match (Z.to_nat k) c changes cur Hk0) as Hloop.
    rewrite Z2Nat.id in Hloop by lia. rewrite Hloop.
    eexists. split; [reflexivity|]. split.
    + destruct (list_find _ changes) as [[? ?]|]; [|assumption].
      by rewrite length_insert.
    + intros i c' Hc'. destruct (decide (i = Z.to_nat k)) as [->|Hne].
      * rewrite Hc in Hc'. injection Hc' as <-.
        destruct (Z.ltb_spec (Z.of_nat (Z.to_nat k)) (k + 1)); [|lia].
        unfold recolored. rewrite Z2Nat.id by lia.
        destruct (list_find _ changes) as [[? ?]|]; [|assumption].
        apply list_lookup_insert_eq. apply lookup_lt_Some in Hk0. assumption.
      * assert (col_i : cur !! i = Some (if Z.of_nat i <? k + 1
                                        then recolored changes i c' else c')).
        { rewrite (Hcur _ _ Hc').
          destruct (Z.ltb_spec (Z.of_nat i) k), (Z.ltb_spec (Z.of_nat i) (k + 1));
            try reflexivity; lia. }
        destruct (list_find _ changes) as [[? ?]|]; [|assumption].
        by rewrite list_lookup_insert_ne.
  - exists col'. rewrite Hrun. simpl. auto.
Qed.

Lemma set_last_data_snoc (pre : list Gt_ColorTransform) (t : Gt_ColorTransform)
    (d : thunk) :
  set_last_data (pre ++ [t]) d = pre ++ [mkTransform (func t) d].
Proof.
  induction pre as [|u pre IH]; [reflexivity|].
  simpl. destruct (pre ++ [t]) eqn:E; [by destruct pre|].
  by rewrite IH.
Qed.

Lemma append_color_change_fresh lst oldc newc :
  tail_changes lst = Some [] ->
  append_color_change lst oldc newc =
  Ok (lst ++ [mkTransform fn_color_change_transformer
                (ThunkChanges (mkChange oldc newc) [])]).
Proof.
  unfold tail_changes, append_color_change. intros H.
  destruct (last_node lst) as [t|].
  - destruct (decide (func t = fn_color_change_transformer)).
    + destruct (data t); discriminate.
    + by rewrite append_color_transform_app.
  - by rewrite append_color_transform_app.
Qed.

Lemma append_color_change_merge pre c cs oldc newc :
  append_color_change
    (pre ++ [mkTransform fn_color_change_transformer (ThunkChanges c cs)])
    oldc newc =
  Ok (pre ++ [mkTransform fn_color_change_transformer
                (ThunkChanges c (cs ++ [mkChange oldc newc]))]).
Proof.
  unfold append_color_change. rewrite last_node_snoc. simpl.
  by rewrite set_last_data_snoc.
Qed.

(** Two calls of append_color_change leave both changes, in the order of
    the calls, at the end of the change list of the tail node. *)
Lemma append_color_change_twice lst prior o1 n1 o2 n2 :
  tail_changes lst = Some prior ->
  exists l1 pre c cs,
    append_color_change lst o1 n1 = Ok l1
    /\ append_color_change l1 o2 n2 =
       Ok (pre ++ [mkTransform fn_color_change_transformer (ThunkChanges c cs)])
    /\ c :: cs = prior ++ [mkChange o1 n1; mkChange o2 n2].
Proof.
  intros Hprior. destruct prior as [|p ps].
  - rewrite (append_color_change_fresh _ _ _ Hprior).
    eexists _, lst, _, _. split; [reflexivity|].
    rewrite append_color_change_merge. split; reflexivity.
  - unfold tail_changes in Hprior.
    destruct lst as [|t0 pre _] using rev_ind; [discriminate|].
    rewrite last_node_snoc in Hprior.
    destruct t0 as [f d]. simpl in Hprior.
    destruct (decide (f = fn_color_change_transformer)) as [->|]; [|discriminate].
    destruct d as [|c cs| |]; try discriminate. injection Hprior as -> ->.
    rewrite append_color_change_merge.
    eexists _, pre, _, _. split; [reflexivity|].
    rewrite append_color_change_merge. split; [reflexivity|].
    by rewrite <- app_assoc.
Qed.

(** C3. color_change_transformer scans the changes in registration order
    for each entry [i] of the colormap: the first change that matches
    replaces the entry with its new colour and no later change applies; an
    entry that no change matches, or that lies beyond the count, stays.
    In particular, after append_color_change is called for (red, blue) and
    then for (red, green), the tail node holds both changes in that order
    after the earlier ones, and every red entry that no earlier change
    matches becomes blue. *)
Theorem recolor_first_match_wins :
  (forall (gfcm : Gif_Colormap) (t : thunk) (changes : list Gt_ColorChange),
     changes_of_thunk t = Some changes ->
     0 <= ncol gfcm <= Z.of_nat (length (col gfcm)) ->
     exists col',
       color_change_transformer gfcm t = Ok (mkColormap (ncol gfcm) col')
       /\ length col' = length (col gfcm)
       /\ forall (i : nat) (c : Gif_Color), col gfcm !! i = Some c ->
            (Z.of_nat i < ncol gfcm ->
               (forall k ch, first_match (Z.of_nat i) c changes k ch ->
                  col' !! i = Some (new_color ch))
               /\ ((forall ch, ch ∈ changes -> ~ change_matches (Z.of_nat i) c ch) ->
                   col' !! i = Some c))
            /\ (ncol gfcm <= Z.of_nat i -> col' !! i = Some c))
  /\ (forall (lst : list Gt_ColorTransform) (prior : list Gt_ColorChange)
             (rd bl gr : Gif_Color),
        tail_changes lst = Some prior ->
        haspixel rd = 0 ->
        exists l1 l2 t,
          append_color_change lst rd bl = Ok l1
          /\ append_color_change l1 rd gr = Ok l2
          /\ last_node l2 = Some t
          /\ func t = fn_color_change_transformer
          /\ changes_of_thunk (data t)
             = Some (prior ++ [mkChange rd bl; mkChange rd gr])
          /\ forall gfcm : Gif_Colormap,
               0 <= ncol gfcm <= Z.of_nat (length (col gfcm)) ->
               exists col',
                 color_change_transformer gfcm (data t)
                 = Ok (mkColormap (ncol gfcm) col')
                 /\ forall (i : nat) (c : Gif_Color),
                      col gfcm !! i = Some c ->
                      Z.of_nat i < ncol gfcm ->
                      GIF_COLOREQ c rd = true ->
                      (forall ch, ch ∈ prior ->
                         ~ change_matches (Z.of_nat i) c ch) ->
                      col' !! i = Some bl).
Proof.
  split.
  - intros gfcm t changes Ht Hn.
    destruct (color_change_transformer_recolored gfcm t changes Ht Hn)
      as (col' & Hrun & Hlen & Hcol).
    exists col'. split; [assumption|]. split; [assumption|].
    intros i c Hc. specialize (Hcol i c Hc). split.
    + intros Hi. destruct (Z.ltb_spec (Z.of_nat i) (ncol gfcm)); [|lia].
      split.
      * intros k ch Hfirst. by rewrite (recolored_first_match _ _ _ _ _ Hfirst) in Hcol.
      * intros Hnone. by rewrite (recolored_no_match _ _ _ Hnone) in Hcol.
    + intros Hi. destruct (Z.ltb_spec (Z.of_nat i) (ncol gfcm)); [lia|assumption].
  - intros lst prior rd bl gr Hprior Hrd.
    destruct (append_color_change_twice lst prior rd bl rd gr Hprior)
      as (l1 & pre & c & cs & H1 & H2 & Hcs).
    eexists l1, _, _. split; [exact H1|]. split; [exact H2|].
    split; [apply last_node_snoc|]. split; [reflexivity|].
    simpl. split; [by rewrite Hcs|].
    intros gfcm Hn.
    destruct (color_change_transformer_recolored gfcm (ThunkChanges c cs)
                (prior ++ [mkChange rd bl; mkChange rd gr])) as (col' & Hrun & _ & Hcol).
    { simpl. by rewrite Hcs. }
    { assumption. }
    exists col'. split; [assumption|].
    intros i e He Hi Heq Hnone. rewrite (Hcol i e He).
    destruct (Z.ltb_spec (Z.of_nat i) (ncol gfcm)); [|lia].
    f_equal.
    apply (recolored_first_match _ _ _ (length prior) (mkChange rd bl)).
    split; [|split].
    + rewrite lookup_app_r by lia. by rewrite Nat.sub_diag.
    + left. simpl. apply GIF_COLOREQ_true in Heq. tauto.
    + intros k' ch' Hk' Hch'. apply Hnone.
      rewrite lookup_app_l in Hch' by assumption.
      by eapply list_elem_of_lookup_2.
Qed.

Lemma recolor_first_match_wins_witness :
  (exists col',
     color_change_transformer (mkColormap 2 [ex_red; ex_white])
       (ThunkChanges (mkChange ex_red ex_blue) [mkChange ex_red ex_green])
     = Ok (mkColormap 2 col')
     /\ col' !! 0%nat = Some ex_blue /\ col' !! 1%nat = Some ex_white)
  /\ (exists l1 l2 t,
        append_color_change [] ex_red ex_blue = Ok l1
        /\ append_color_change l1 ex_red ex_green = Ok l2
        /\ last_node l2 = Some t
        /\ changes_of_thunk (data t)
           = Some [mkChange ex_red ex_blue; mkChange ex_red ex_green]).
Proof.
  destruct recolor_first_match_wins as [HA HB]. split.
  - destruct (HA (mkColormap 2 [ex_red; ex_white])
                (ThunkChanges (mkChange ex_red ex_blue) [mkChange ex_red ex_green])
                [mkChange ex_red ex_blue; mkChange ex_red ex_green])
      as (col' & Hrun & _ & Hcol); [reflexivity | simpl; lia |].
    exists col'. split; [exact Hrun|]. split.
    + apply (proj1 (proj1 (Hcol 0%nat ex_red eq_refl) ltac:(simpl; lia))
               0%nat (mkChange ex_red ex_blue)).
      split; [reflexivity|]. split; [left; simpl; tauto | intros; lia].
    + apply (proj2 (proj1 (Hcol 1%nat ex_white eq_refl) ltac:(simpl; lia))).
      intros ch Hch [[_ (_ & Hg & _)]|[Hp _]].
      * apply list_elem_of_In in Hch. simpl in Hch.
        destruct Hch as [<-|[<-|[]]]; discriminate.
      * apply list_elem_of_In in Hch. simpl in Hch.
        destruct Hch as [<-|[<-|[]]]; apply Hp; reflexivity.
  - destruct (HB [] [] ex_red ex_blue ex_green eq_refl eq_refl)
      as (l1 & l2 & t & H1 & H2 & H3 & _ & H4 & _).
    exists l1, l2, t. auto.
Defined.

(** ** The external-process transform *)







(** C1. With a parsed colormap of one entry for a colormap of two,
    pipe_color_transformer sets its count [nc] to the count of the
    original, 2, and copies two cells of the parsed array: the entry 1 of
    the original, which lies beyond the parsed count, does not stay white;
    it becomes whatever the parsed array holds past its count, and the
    copy reads outside a parsed array that has no such cell. With a
    parsed colormap of two entries for a colormap of one, it copies both,
    the second one outside the original's entries. *)
Theorem pipe_too_few_overwrites_rest :
  (exists w',
     pipe_color_transformer ex_env_too_few ex_world
       (mkColormap 2 [ex_red; ex_white]) "sort"
     = Ok (w', mkColormap 2 [ex_blue; ex_green])
     /\ diags w'
        = [mkDiag SevWarning "too few colors in color transformation results"])
  /\ pipe_color_transformer ex_env_too_few_tight ex_world
       (mkColormap 2 [ex_red; ex_white]) "sort" = Undef
  /\ (exists w',
        pipe_color_transformer ex_env_too_many ex_world
          (mkColormap 1 [ex_red; ex_white]) "sort"
        = Ok (w', mkColormap 1 [ex_blue; ex_green]))
  /\ pipe_color_transformer ex_env_too_many ex_world
       (mkColormap 1 [ex_red]) "sort" = Undef.
Proof.
  split; [|split; [|split]].
  - eexists. split; reflexivity.
  - reflexivity.
  - eexists. reflexivity.
  - reflexivity.
Qed.

(** ** Crop *)

Section CropProperties.

Import Crop.

(** combine_crop computes the intersection, in frame coordinates. *)
Lemma combine_crop_intersection (dst crop : Gt_Crop) (gfi : Gif_Image) :
  let c := combine_crop dst crop gfi in
  x c = Z.max (x crop) (Image.left gfi) - Image.left gfi
  /\ y c = Z.max (y crop) (Image.top gfi) - Image.top gfi
  /\ w c = Z.min (x crop + w crop) (Image.left gfi + Image.width gfi)
           - Z.max (x crop) (Image.left gfi)
  /\ h c = Z.min (y crop + h crop) (Image.top gfi + Image.height gfi)
           - Z.max (y crop) (Image.top gfi).
Proof.
  unfold combine_crop.
  destruct (Z.ltb_spec (x crop - Image.left gfi) 0);
    destruct (Z.ltb_spec (y crop - Image.top gfi) 0); simpl;
    repeat match goal with
           | |- context [?a <? ?b] => destruct (Z.ltb_spec a b)
           end; simpl; lia.
Qed.

Lemma empty_test (crop : Gt_Crop) (gfi : Gif_Image) :
  let c := combine_crop fresh_crop crop gfi in
  (0 <? w c) && (0 <? h c) = false <-> intersection_empty crop gfi.
Proof.
  intros c. destruct (combine_crop_intersection fresh_crop crop gfi)
    as (_ & _ & Hw & Hh). fold c in Hw, Hh.
  unfold intersection_empty. rewrite andb_false_iff, !Z.ltb_ge. lia.
Qed.

(** The empty branch. *)
Lemma crop_image_emptied (gfi : Gif_Image) (crop : Gt_Crop) :
  intersection_empty crop gfi ->
  crop_image gfi crop false =
  Ok (Image.mkImage None (Image.image_data gfi) 0 0 (Image.left gfi)
        (Image.top gfi) (Image.transparent gfi) (Image.compressed gfi),
      false).
Proof.
  intros He%empty_test. unfold crop_image. rewrite He. reflexivity.
Qed.

(** The branch that keeps one pixel. *)
Lemma crop_image_preserved (gfi : Gif_Image) (crop : Gt_Crop) (row0 p : Z) :
  intersection_empty crop gfi ->
  load (Image.rows gfi) 0 = Ok row0 ->
  load (Image.image_data gfi) (row0 + 0) = Ok p ->
  crop_image gfi crop true =
  Ok (Image.mkImage (Some [row0]) (Image.image_data gfi) 1 1 (Image.left gfi)
        (Image.top gfi) p (Image.compressed gfi),
      true).
Proof.
  intros He%empty_test Hrow Hp. unfold crop_image. rewrite He. simpl.
  rewrite Hrow. simpl. rewrite Hp. reflexivity.
Qed.

(** The branch of a non-empty intersection, for a frame whose row table
    has a row for each of its [height] lines. *)
Lemma crop_image_overlap (gfi : Gif_Image) (crop : Gt_Crop) (preserve : bool) :
  ~ intersection_empty crop gfi ->
  Image.height gfi <= Z.of_nat (length (Image.rows gfi)) ->
  let c := combine_crop fresh_crop crop gfi in
  exists table,
    crop_image gfi crop preserve =
    Ok (Image.mkImage (Some table) (Image.image_data gfi) (w c) (h c)
          (Image.left gfi + (x c - left_offset crop))
          (Image.top gfi + (y c - top_offset crop))
          (Image.transparent gfi) (Image.compressed gfi),
        true)
    /\ Z.of_nat (length table) = h c
    /\ forall (j : nat) (row : Z),
         table !! j = Some row ->
         exists row0, Image.rows gfi !! (Z.to_nat (y c) + j)%nat = Some row0
                      /\ row = row0 + x c.
Proof.
  intros Hne Hrows c.
  assert (Htest : (0 <? w c) && (0 <? h c) = true).
  { destruct ((0 <? w c) && (0 <? h c)) eqn:E; [reflexivity|].
    exfalso. apply Hne. by apply empty_test. }
  apply andb_true_iff in Htest as Hwh. rewrite !Z.ltb_lt in Hwh.
  destruct (combine_crop_intersection fresh_crop crop gfi) as (Hx & Hy & Hw & Hh).
  fold c in Hx, Hy, Hw, Hh.
  destruct (for_upto_invariant
    (fun k table =>
       Z.of_nat (length table) = k
       /\ forall (j : nat) (row : Z), table !! j = Some row ->
            exists row0, Image.rows gfi !! (Z.to_nat (y c) + j)%nat = Some row0
                         /\ row = row0 + x c)
    (fun j table => row ← load (Image.rows gfi) (y c + j); Ok (table ++ [row + x c]))
    0 (h c) []) as (table & Hrun & Hlen & Htable).
  - lia.
  - split; [reflexivity|]. intros j row Hj. by rewrite lookup_nil in Hj.
  - intros k t Hk (Hlen & Ht).
    destruct (lookup_lt_is_Some_2 (Image.rows gfi) (Z.to_nat (y c + k)))
      as [row0 Hrow0]; [lia|].
    exists (t ++ [row0 + x c]). split; [|split].
    + assert (Hl : load (Image.rows gfi) (y c + k) = Ok row0)
        by (apply load_Ok; split; [lia | assumption]).
      by rewrite Hl.
    + rewrite length_app. simpl. lia.
    + intros j row Hj. destruct (decide (j < length t)%nat) as [L|L].
      * rewrite lookup_app_l in Hj by assumption. by apply Ht.
      * rewrite lookup_app_r in Hj by lia.
        destruct (j - length t)%nat as [|n] eqn:E; [|by destruct n].
        injection Hj as <-. exists row0. split; [|reflexivity].
        rewrite <- Hrow0. f_equal. lia.
  - exists table. split; [|split; assumption].
    unfold crop_image. fold c. rewrite Htest. simpl. rewrite Hrun. reflexivity.
Qed.

(** C4. When the requested rectangle and the frame do not intersect:
    without [preserve_total_crop] the frame ends with width 0, height 0
    and no row table, and crop_image returns false; with it, and a
    top-left pixel [p] to keep, the frame ends 1 by 1, its one pixel is
    [p], its transparent index is [p], and crop_image returns true.
    Whenever crop_image returns, on any rectangle, its result is true
    exactly when the frame ends with a row table, and exactly when it ends
    with a positive width and height; and it does return when the frame's
    row table has its [height] rows and the rectangle intersects it. *)
Theorem crop_empty_intersection :
  forall (gfi : Gif_Image) (crop : Gt_Crop),
    (intersection_empty crop gfi ->
     exists gfi',
       crop_image gfi crop false = Ok (gfi', false)
       /\ Image.width gfi' = 0 /\ Image.height gfi' = 0
       /\ Image.img gfi' = None)
    /\ (forall p : Z,
          intersection_empty crop gfi ->
          Image.getpixel gfi 0 0 = Ok p ->
          exists gfi',
            crop_image gfi crop true = Ok (gfi', true)
            /\ Image.width gfi' = 1 /\ Image.height gfi' = 1
            /\ Image.getpixel gfi' 0 0 = Ok p
            /\ Image.transparent gfi' = p)
    /\ (forall (preserve : bool) (gfi' : Gif_Image) (r : bool),
          crop_image gfi crop preserve = Ok (gfi', r) ->
          (r = true <-> Image.img gfi' <> None)
          /\ (r = true <-> 0 < Image.width gfi' /\ 0 < Image.height gfi'))
    /\ (forall preserve : bool,
          ~ intersection_empty crop gfi ->
          Image.height gfi <= Z.of_nat (length (Image.rows gfi)) ->
          exists gfi', crop_image gfi crop preserve = Ok (gfi', true)).
Proof.
  intros gfi crop. split; [|split; [|split]].
  - intros He. rewrite (crop_image_emptied _ _ He). eexists. by split.
  - intros p He Hp. unfold Image.getpixel in Hp.
    destruct (load (Image.rows gfi) 0) as [row0| | |] eqn:Hrow; try discriminate.
    simpl in Hp. rewrite (crop_image_preserved _ _ row0 p He Hrow Hp).
    eexists. split; [reflexivity|]. simpl. repeat split; try reflexivity.
    unfold Image.getpixel. simpl. exact Hp.
  - intros preserve gfi' r Hrun.
    destruct (decide (intersection_empty crop gfi)) as [He|Hne].
    + destruct preserve.
      * unfold crop_image in Hrun. rewrite (proj2 (empty_test crop gfi) He) in Hrun.
        simpl in Hrun.
        destruct (load (Image.rows gfi) 0) as [row0| | |]; try discriminate.
        simpl in Hrun.
        destruct (load (Image.image_data gfi) (row0 + 0)) as [p| | |];
          try discriminate.
        injection Hrun as <- <-. simpl. split; split; try done; lia.
      * rewrite (crop_image_emptied _ _ He) in Hrun. injection Hrun as <- <-.
        simpl. split; split; try done; lia.
    + unfold crop_image in Hrun.
      destruct ((0 <? w (combine_crop fresh_crop crop gfi))
                && (0 <? h (combine_crop fresh_crop crop gfi))) eqn:Htest.
      * apply andb_true_iff in Htest as Hwh. rewrite !Z.ltb_lt in Hwh.
        simpl in Hrun.
        destruct (for_upto 0 _ _ []) as [table| | |]; try discriminate.
        injection Hrun as <- <-. simpl. split; split; done.
      * exfalso. apply Hne. by apply empty_test.
  - intros preserve Hne Hrows.
    destruct (crop_image_overlap gfi crop preserve Hne Hrows) as (table & Hrun & _).
    eauto.
Qed.

Lemma ex_crop_outside_empty : intersection_empty ex_crop_outside ex_frame.
Proof. unfold intersection_empty. simpl. lia. Defined.

Lemma ex_crop_inside_overlaps : ~ intersection_empty ex_crop_inside ex_frame.
Proof. unfold intersection_empty. simpl. lia. Defined.

(** The right column of the frame, kept by a rectangle that reaches past
    it: a new row table into the same bytes. *)
Example crop_image_right_column :
  crop_image ex_frame ex_crop_inside false
  = Ok (Image.mkImage (Some [1; 3]) [7; 8; 9; 10] 1 2 0 0 (-1) None, true).
Proof. reflexivity. Qed.

Lemma crop_empty_intersection_witness :
  (exists gfi',
     crop_image ex_frame ex_crop_outside false = Ok (gfi', false)
     /\ Image.width gfi' = 0 /\ Image.height gfi' = 0 /\ Image.img gfi' = None)
  /\ (exists gfi',
        crop_image ex_frame ex_crop_outside true = Ok (gfi', true)
        /\ Image.width gfi' = 1 /\ Image.height gfi' = 1
        /\ Image.getpixel gfi' 0 0 = Ok 7
        /\ Image.transparent gfi' = 7)
  /\ (exists gfi', crop_image ex_frame ex_crop_inside false = Ok (gfi', true)).
Proof.
  destruct (crop_empty_intersection ex_frame ex_crop_outside) as (HA & HB & _).
  destruct (crop_empty_intersection ex_frame ex_crop_inside) as (_ & _ & _ & HD).
  split; [|split].
  - exact (HA ex_crop_outside_empty).
  - exact (HB 7 ex_crop_outside_empty eq_refl).
  - apply (HD false ex_crop_inside_overlaps). simpl. lia.
Defined.

(** C10. In the branch that collapses the frame to one pixel, crop_image
    changes the width, the height, the row table and the transparent index
    and nothing else: the left and top offsets stay. They stay in the
    branch that empties the frame too. Only for a non-empty intersection
    are they moved, by the origin of the intersection less the anchor of
    the rectangle. *)
Theorem crop_collapse_keeps_offsets :
  forall (gfi : Gif_Image) (crop : Gt_Crop),
    (forall row0 p : Z,
       intersection_empty crop gfi ->
       load (Image.rows gfi) 0 = Ok row0 ->
       load (Image.image_data gfi) (row0 + 0) = Ok p ->
       crop_image gfi crop true =
       Ok (Image.mkImage (Some [row0]) (Image.image_data gfi) 1 1
             (Image.left gfi) (Image.top gfi) p (Image.compressed gfi),
           true))
    /\ (forall (preserve : bool) (gfi' : Gif_Image) (r : bool),
          intersection_empty crop gfi ->
          crop_image gfi crop preserve = Ok (gfi', r) ->
          Image.left gfi' = Image.left gfi /\ Image.top gfi' = Image.top gfi)
    /\ (forall (preserve : bool) (gfi' : Gif_Image) (r : bool),
          ~ intersection_empty crop gfi ->
          crop_image gfi crop preserve = Ok (gfi', r) ->
          Image.left gfi'
          = Image.left gfi
            + (x (combine_crop fresh_crop crop gfi) - left_offset crop)
          /\ Image.top gfi'
             = Image.top gfi
               + (y (combine_crop fresh_crop crop gfi) - top_offset crop)
          /\ Image.left gfi'
             = Z.max (x crop) (Image.left gfi) - left_offset crop
          /\ Image.top gfi'
             = Z.max (y crop) (Image.top gfi) - top_offset crop).
Proof.
  intros gfi crop. split; [|split].
  - intros row0 p He Hrow Hp. by apply crop_image_preserved.
  - intros preserve gfi' r He Hrun. destruct preserve.
    + unfold crop_image in Hrun. rewrite (proj2 (empty_test crop gfi) He) in Hrun.
      simpl in Hrun.
      destruct (load (Image.rows gfi) 0) as [row0| | |]; try discriminate.
      simpl in Hrun.
      destruct (load (Image.image_data gfi) (row0 + 0)) as [p| | |];
        try discriminate.
      injection Hrun as <- <-. by split.
    + rewrite (crop_image_emptied _ _ He) in Hrun. injection Hrun as <- <-.
      by split.
  - intros preserve gfi' r Hne Hrun.
    destruct (combine_crop_intersection fresh_crop crop gfi) as (Hx & Hy & _).
    unfold crop_image in Hrun.
    destruct ((0 <? w (combine_crop fresh_crop crop gfi))
              && (0 <? h (combine_crop fresh_crop crop gfi))) eqn:Htest.
    + simpl in Hrun.
      destruct (for_upto 0 _ _ []) as [table| | |]; try discriminate.
      injection Hrun as <- <-. simpl. lia.
    + exfalso. apply Hne. by apply empty_test.
Qed.

Lemma crop_collapse_keeps_offsets_witness :
  crop_image ex_frame ex_crop_outside true =
  Ok (Image.mkImage (Some [0]) [7; 8; 9; 10] 1 1 0 0 7 None, true).
Proof.
  exact (proj1 (crop_collapse_keeps_offsets ex_frame ex_crop_outside)
           0 7 ex_crop_outside_empty eq_refl eq_refl).
Defined.

End CropProperties.

(** ** More memory rules *)

Lemma load_in_range {A : Type} (mem : list A) (i : Z) :
  0 <= i < Z.of_nat (length mem) -> exists v, load mem i = Ok v.
Proof.
  intros H. destruct (lookup_lt_is_Some_2 mem (Z.to_nat i)) as [v Hv]; [lia|].
  exists v. apply load_Ok. split; [lia | assumption].
Qed.

Lemma store_inv {A : Type} (mem mem' : list A) (i : Z) (v : A) :
  store mem i v = Ok mem' ->
  0 <= i < Z.of_nat (length mem) /\ mem' = <[Z.to_nat i := v]> mem.
Proof.
  unfold store. destruct (Z.ltb_spec i 0); [discriminate|].
  destruct (Nat.ltb_spec (Z.to_nat i) (length mem)); [|discriminate].
  intros [= <-]. split; [lia | reflexivity].
Qed.

Lemma load_store {A : Type} (mem : list A) (i j : Z) (v : A) :
  0 <= i < Z.of_nat (length mem) ->
  load (<[Z.to_nat i := v]> mem) j = if decide (j = i) then Ok v else load mem j.
Proof.
  intros Hi. destruct (decide (j = i)) as [->|Hne].
  - apply load_Ok. split; [lia|]. apply list_lookup_insert_eq. lia.
  - unfold load. destruct (Z.ltb_spec j 0); [reflexivity|].
    rewrite list_lookup_insert_ne by lia. reflexivity.
Qed.

(** Two arrays that read the same everywhere are the same array. *)
Lemma load_ext {A : Type} (m1 m2 : list A) :
  (forall i : Z, load m1 i = load m2 i) -> m1 = m2.
Proof.
  intros H. apply list_eq. intros n. specialize (H (Z.of_nat n)).
  unfold load in H. destruct (Z.ltb_spec (Z.of_nat n) 0); [lia|].
  rewrite Nat2Z.id in H.
  destruct (m1 !! n), (m2 !! n); congruence.
Qed.

Lemma memcpy_Ok {A : Type} (mem : list A) (p n : Z) :
  0 <= p -> 0 <= n -> p + n <= Z.of_nat (length mem) ->
  exists buffer,
    FlipRotate.memcpy mem p n = Ok buffer
    /\ Z.of_nat (length buffer) = n
    /\ forall x, 0 <= x < n -> load buffer x = load mem (p + x).
Proof.
  intros Hp Hn Hlen. unfold FlipRotate.memcpy.
  destruct (Z.ltb_spec p 0); [lia|]. destruct (Z.ltb_spec n 0); [lia|].
  destruct (Z.ltb_spec (Z.of_nat (length mem)) (p + n)); [lia|]. simpl.
  eexists. split; [reflexivity|]. split.
  - rewrite length_take, length_drop. lia.
  - intros x Hx. unfold load.
    destruct (Z.ltb_spec x 0); [lia|]. destruct (Z.ltb_spec (p + x) 0); [lia|].
    rewrite lookup_take_lt by lia. rewrite lookup_drop.
    replace (Z.to_nat p + Z.to_nat x)%nat with (Z.to_nat (p + x)) by lia.
    reflexivity.
Qed.

(** ** Raw frames *)

Lemma rows_installed (gfi : Gif_Image) (new_data : list Z) :
  Image.rows (Image.Gif_SetUncompressedImage gfi new_data)
  = (fun y => Z.of_nat y * Image.width gfi) <$> seq 0 (Z.to_nat (Image.height gfi)).
Proof. reflexivity. Qed.

(** The frame that Gif_SetUncompressedImage installs is raw when the bytes
    are as many as the frame has pixels. *)
Lemma raw_frame_installed (gfi : Gif_Image) (new_data : list Z) :
  0 <= Image.width gfi -> 0 <= Image.height gfi ->
  Z.of_nat (length new_data) = Image.width gfi * Image.height gfi ->
  raw_frame (Image.Gif_SetUncompressedImage gfi new_data).
Proof.
  intros Hw Hh Hlen.
  assert (Hrow : forall (y : nat) (row : Z),
            Image.rows (Image.Gif_SetUncompressedImage gfi new_data) !! y
            = Some row ->
            row = Z.of_nat y * Image.width gfi
            /\ Z.of_nat y < Image.height gfi).
  { intros y row. rewrite rows_installed, list_lookup_fmap. intros H.
    destruct (seq 0 (Z.to_nat (Image.height gfi)) !! y) as [k|] eqn:E;
      [|discriminate].
    apply lookup_seq in E as [-> Hk]. injection H as <-. split; lia. }
  split.
  - exact Hw.
  - exact Hh.
  - by eexists.
  - rewrite rows_installed, length_fmap, length_seq.
    cbn [Image.Gif_SetUncompressedImage Image.height]. lia.
  - intros y row H. destruct (Hrow y row H) as [-> Hy].
    cbn [Image.Gif_SetUncompressedImage Image.width Image.image_data]. nia.
  - intros y1 y2 r1 r2 Hne H1 H2.
    destruct (Hrow y1 r1 H1) as [-> _]. destruct (Hrow y2 r2 H2) as [-> _].
    cbn [Image.Gif_SetUncompressedImage Image.width]. nia.
Qed.

(** ** Flip *)

Section FlipProperties.

Import FlipRotate.

(** One row reversed in place: the bytes of the row are mirrored and the
    others stay. *)
Lemma flip_row_mirror (width row : Z) (mem : list Z) :
  0 <= row -> 0 <= width -> row + width <= Z.of_nat (length mem) ->
  exists mem',
    flip_row width row mem = Ok mem'
    /\ length mem' = length mem
    /\ (forall x, 0 <= x < width ->
          load mem' (row + x) = load mem (row + (width - 1 - x)))
    /\ (forall k, ~ (row <= k < row + width) -> load mem' k = load mem k).
Proof.
  intros Hrow Hw Hlen. unfold flip_row.
  destruct (memcpy_Ok mem row width Hrow Hw Hlen) as (buffer & -> & Hblen & Hbuf).
  simpl.
  destruct (for_upto_invariant
    (fun x (st : Z * list Z) =>
       fst st = row + width - 1 - x
       /\ length (snd st) = length mem
       /\ (forall k, row + width - x <= k < row + width ->
             load (snd st) k = load mem (row + (width - 1 - (k - row))))
       /\ (forall k, ~ (row + width - x <= k < row + width) ->
             load (snd st) k = load mem k))
    (fun x '(trav, mem) =>
       b ← load buffer x; mem ← store mem trav b; Ok (trav - 1, mem))
    0 width (row + width - 1, mem))
    as ([trav mem'] & Hrun & _ & Hlen' & Hin & Hout).
  - assumption.
  - simpl. repeat split; [lia | intros; lia].
  - intros x [trav cur] Hx (Htrav & Hcur & Hin & Hout). simpl in *. subst trav.
    destruct (load_in_range mem (row + x)) as [b Hb]; [lia|].
    rewrite (Hbuf x Hx), Hb. simpl.
    rewrite store_Ok by lia. simpl.
    eexists. split; [reflexivity|]. simpl. split; [lia|]. split.
    { by rewrite length_insert. }
    split.
    + intros k Hk. rewrite load_store by lia.
      destruct (decide (k = row + width - 1 - x)) as [->|Hne].
      * rewrite <- Hb. f_equal. lia.
      * apply Hin. lia.
    + intros k Hk. rewrite load_store by lia.
      destruct (decide (k = row + width - 1 - x)) as [->|Hne]; [lia|].
      apply Hout. lia.
  - rewrite Hrun. simpl in *. exists mem'. split; [reflexivity|].
    split; [assumption|]. split.
    + intros x Hx. rewrite Hin by lia. f_equal. lia.
    + intros k Hk. apply Hout. lia.
Qed.

(** The loop over the rows of a horizontal flip, on the pixel bytes. *)
Lemma flip_rows_mirror (gfi : Gif_Image) :
  raw_frame gfi ->
  let width := Image.width gfi in
  exists mem',
    for_upto 0 (Image.height gfi)
      (fun y mem => row ← load (Image.rows gfi) y; flip_row width row mem)
      (Image.image_data gfi) = Ok mem'
    /\ length mem' = length (Image.image_data gfi)
    /\ (forall (y : nat) (row x : Z),
          Image.rows gfi !! y = Some row -> 0 <= x < width ->
          load mem' (row + x) = load (Image.image_data gfi) (row + (width - 1 - x)))
    /\ (forall k,
          (forall (y : nat) (row : Z), Image.rows gfi !! y = Some row ->
             ~ (row <= k < row + width)) ->
          load mem' k = load (Image.image_data gfi) k).
Proof.
  intros Hraw width.
  destruct Hraw as [Hw Hh _ Hrows Hbounds Hdisj]. fold width in Hbounds, Hdisj.
  set (mem0 := Image.image_data gfi) in *.
  destruct (for_upto_invariant
    (fun n cur =>
       length cur = length mem0
       /\ (forall (y : nat) (row x : Z),
             Z.of_nat y < n -> Image.rows gfi !! y = Some row -> 0 <= x < width ->
             load cur (row + x) = load mem0 (row + (width - 1 - x)))
       /\ (forall k,
             (forall (y : nat) (row : Z),
                Z.of_nat y < n -> Image.rows gfi !! y = Some row ->
                ~ (row <= k < row + width)) ->
             load cur k = load mem0 k))
    (fun y mem => row ← load (Image.rows gfi) y; flip_row width row mem)
    0 (Image.height gfi) mem0)
    as (mem' & Hrun & Hlen & Hin & Hout).
  - assumption.
  - split; [reflexivity|]. split; [intros; lia | reflexivity].
  - intros n cur Hn (Hlen & Hin & Hout).
    destruct (lookup_lt_is_Some_2 (Image.rows gfi) (Z.to_nat n)) as [r Hr]; [lia|].
    assert (Hload : load (Image.rows gfi) n = Ok r)
      by (apply load_Ok; split; [lia | assumption]).
    rewrite Hload. simpl.
    destruct (Hbounds _ _ Hr) as [Hr0 Hr1].
    destruct (flip_row_mirror width r cur) as (cur' & Hflip & Hlen' & Hin' & Hout');
      [lia | lia | lia |].
    exists cur'. split; [assumption|]. split; [congruence|]. split.
    + intros y row x Hy Hrow Hx.
      destruct (decide (y = Z.to_nat n)) as [->|Hne].
      * rewrite Hr in Hrow. injection Hrow as <-.
        rewrite Hin' by assumption. apply Hout.
        intros y' row' Hy' Hrow'.
        destruct (Hdisj y' (Z.to_nat n) row' r) as [D|D]; [lia | assumption.. | |];
          lia.
      * rewrite Hout'.
        -- apply (Hin y); [lia | assumption..].
        -- destruct (Hdisj y (Z.to_nat n) row r) as [D|D];
             [assumption.. | |]; lia.
    + intros k Hk. rewrite Hout'.
      * apply Hout. intros y row Hy. apply Hk. lia.
      * apply (Hk (Z.to_nat n)); [lia | assumption].
  - exists mem'. split; [assumption|]. split; [assumption|]. split.
    + intros y row x Hrow Hx. apply (Hin y); [|assumption..].
      apply lookup_lt_Some in Hrow. lia.
    + intros k Hk. apply Hout. intros y row _. apply Hk.
Qed.

(** What one horizontal flip does to a raw frame. *)
Lemma flip_image_horizontal (gfi : Gif_Image) (screen_width screen_height : Z) :
  raw_frame gfi ->
  let width := Image.width gfi in
  exists mem',
    flip_image gfi screen_width screen_height false =
    Ok (Image.mkImage (Image.img gfi) mem' width (Image.height gfi)
          (screen_width - (Image.left gfi + width)) (Image.top gfi)
          (Image.transparent gfi) (Image.compressed gfi))
    /\ length mem' = length (Image.image_data gfi)
    /\ (forall (y : nat) (row x : Z),
          Image.rows gfi !! y = Some row -> 0 <= x < width ->
          load mem' (row + x) = load (Image.image_data gfi) (row + (width - 1 - x)))
    /\ (forall k,
          (forall (y : nat) (row : Z), Image.rows gfi !! y = Some row ->
             ~ (row <= k < row + width)) ->
          load mem' k = load (Image.image_data gfi) k).
Proof.
  intros Hraw width.
  destruct (flip_rows_mirror gfi Hraw) as (mem' & Hrun & Hrest).
  exists mem'. split; [|exact Hrest].
  unfold flip_image. simpl. rewrite Hrun. reflexivity.
Qed.

(** A horizontal flip keeps a raw frame raw. *)
Lemma raw_frame_same_table (gfi : Gif_Image) (mem' : list Z) (l t : Z) :
  raw_frame gfi ->
  length mem' = length (Image.image_data gfi) ->
  raw_frame (Image.mkImage (Image.img gfi) mem' (Image.width gfi)
               (Image.height gfi) l t (Image.transparent gfi)
               (Image.compressed gfi)).
Proof.
  intros [Hw Hh Ht Hrows Hbounds Hdisj] Hlen.
  split; simpl; try assumption.
  unfold Image.rows in *. simpl. rewrite Hlen. assumption.
Qed.

(** C6. On a raw frame, flip_image with [is_vert] false returns; it sets
    left to [screen_width - (left + width)] and reverses the bytes of each
    row; applied again with the same screen width, it returns the frame it
    started from: the pixel bytes, the row table and the offsets are the
    original ones. *)
Theorem flip_horizontal_involution :
  forall (gfi : Gif_Image) (screen_width screen_height : Z),
    raw_frame gfi ->
    exists gfi1,
      flip_image gfi screen_width screen_height false = Ok gfi1
      /\ Image.left gfi1 = screen_width - (Image.left gfi + Image.width gfi)
      /\ (forall y x,
            0 <= y < Image.height gfi -> 0 <= x < Image.width gfi ->
            Image.getpixel gfi1 y x
            = Image.getpixel gfi y (Image.width gfi - 1 - x))
      /\ flip_image gfi1 screen_width screen_height false = Ok gfi.
Proof.
  intros gfi sw sh Hraw.
  destruct (flip_image_horizontal gfi sw sh Hraw) as (mem1 & Hrun1 & Hlen1 & Hin1 & Hout1).
  cbv zeta in *.
  set (gfi1 := Image.mkImage (Image.img gfi) mem1 (Image.width gfi)
                 (Image.height gfi) (sw - (Image.left gfi + Image.width gfi))
                 (Image.top gfi) (Image.transparent gfi) (Image.compressed gfi))
    in *.
  assert (Hraw1 : raw_frame gfi1) by (by apply raw_frame_same_table).
  assert (Hrows1 : Image.rows gfi1 = Image.rows gfi) by reflexivity.
  exists gfi1. split; [assumption|]. split; [reflexivity|]. split.
  - intros y x Hy Hx. unfold Image.getpixel. rewrite Hrows1.
    destruct (load_in_range (Image.rows gfi) y) as [row Hrow].
    { rewrite (raw_rows _ Hraw). lia. }
    rewrite Hrow. simpl. apply load_Ok in Hrow as [_ Hrow].
    rewrite (Hin1 _ _ _ Hrow Hx). reflexivity.
  - destruct (flip_image_horizontal gfi1 sw sh Hraw1)
      as (mem2 & Hrun2 & Hlen2 & Hin2 & Hout2).
    cbv zeta in *. rewrite Hrun2. rewrite Hrows1 in Hin2, Hout2. simpl in *.
    assert (Hmem : mem2 = Image.image_data gfi).
    { apply load_ext. intros k.
      destruct (decide (Exists (fun row => row <= k < row + Image.width gfi)
                          (Image.rows gfi))) as [E|E].
      - apply Exists_exists in E as (row & Hrow & Hk).
        apply list_elem_of_lookup in Hrow as [y Hrow].
        replace k with (row + (k - row)) at 1 by lia.
        rewrite (Hin2 y) by (assumption || lia).
        rewrite (Hin1 y) by (assumption || lia).
        f_equal. lia.
      - assert (Hnone : forall (y : nat) (row : Z),
                  Image.rows gfi !! y = Some row ->
                  ~ (row <= k < row + Image.width gfi)).
        { intros y row Hrow Hk. apply E. apply Exists_exists. exists row.
          split; [by eapply list_elem_of_lookup_2 | assumption]. }
        rewrite (Hout2 k Hnone). apply (Hout1 k Hnone). }
    rewrite Hmem. destruct gfi. simpl. f_equal. f_equal. lia.
Qed.

Lemma ex_wide_frame_raw : raw_frame ex_wide_frame.
Proof.
  split; simpl; try lia.
  - by eexists.
  - intros [|[|y]] row; simpl; intros [= <-]; lia.
  - intros [|[|y1]] [|[|y2]] r1 r2 Hne; simpl; intros [= <-] [= <-];
      try lia; done.
Defined.

(** Its rows reversed, the bytes between the rows untouched; and its rows
    exchanged, not a byte moved. *)
Example flip_image_wide_frame :
  flip_image ex_wide_frame 100 100 false
  = Ok (Image.mkImage (Some [0; 4]) [3; 2; 1; 0; 6; 5; 4; 0] 3 2 87 20 (-1) None)
  /\ flip_image ex_wide_frame 100 100 true
     = Ok (Image.mkImage (Some [4; 0]) [1; 2; 3; 0; 4; 5; 6; 0] 3 2 10 78 (-1) None).
Proof. split; reflexivity. Qed.

Lemma flip_horizontal_involution_witness :
  exists gfi1,
    flip_image ex_wide_frame 100 100 false = Ok gfi1
    /\ Image.left gfi1 = 100 - (Image.left ex_wide_frame + Image.width ex_wide_frame)
    /\ (forall y x,
          0 <= y < Image.height ex_wide_frame ->
          0 <= x < Image.width ex_wide_frame ->
          Image.getpixel gfi1 y x
          = Image.getpixel ex_wide_frame y (Image.width ex_wide_frame - 1 - x))
    /\ flip_image gfi1 100 100 false = Ok ex_wide_frame.
Proof.
  exact (flip_horizontal_involution ex_wide_frame 100 100 ex_wide_frame_raw).
Defined.

End FlipProperties.

(** ** Rotate *)

Section RotateProperties.

Import FlipRotate.

Variable uninit : nat -> Z.

Lemma appends_nothing N : appends N Ok [].
Proof.
  intros trav nd _ Hlen _. exists nd. simpl.
  rewrite Z.add_0_r, Nat.add_0_r, app_nil_r. auto.
Qed.

Lemma appends_then N step1 step2 out1 out2 :
  appends N step1 out1 -> appends N step2 out2 ->
  appends N (fun st => st' ← step1 st; step2 st') (out1 ++ out2).
Proof.
  intros H1 H2 trav nd Htrav Hlen Hroom. rewrite length_app in Hroom.
  destruct (H1 trav nd) as (nd1 & Hrun1 & Hlen1 & Htake1); [lia..|].
  destruct (H2 (trav + Z.of_nat (length out1)) nd1)
    as (nd2 & Hrun2 & Hlen2 & Htake2); [lia..|].
  exists nd2. rewrite Hrun1. simpl. rewrite Hrun2, length_app.
  split; [f_equal; f_equal; lia|]. split; [assumption|].
  replace (Z.to_nat (trav + Z.of_nat (length out1)))
    with (Z.to_nat trav + length out1)%nat in Htake2 by lia.
  rewrite Nat.add_assoc, Htake2, Htake1. by rewrite <- app_assoc.
Qed.

Lemma appends_ext N step step' out :
  (forall st, step st = step' st) -> appends N step out -> appends N step' out.
Proof.
  intros Heq H trav nd H1 H2 H3. rewrite <- Heq. by apply H.
Qed.

Lemma downfrom_reverse (i : Z) (n : nat) :
  downfrom i n = reverse (seqZ (i - Z.of_nat n + 1) (Z.of_nat n)).
Proof.
  revert i. induction n as [|n IH]; intros i; [reflexivity|].
  rewrite seqZ_S, reverse_snoc. simpl downfrom. f_equal; [lia|].
  rewrite IH. do 2 f_equal. lia.
Qed.

Lemma appends_for_loop N body out (n : nat) (i : Z) :
  (forall k, i <= k < i + Z.of_nat n -> appends N (body k) (out k)) ->
  appends N (for_loop n i body) (concat (map out (seqZ i (Z.of_nat n)))).
Proof.
  revert i. induction n as [|n IH]; intros i Hbody.
  - apply appends_nothing.
  - rewrite seqZ_cons by lia. simpl map. simpl concat.
    replace (Z.pred (Z.of_nat (Datatypes.S n))) with (Z.of_nat n) by lia.
    apply (appends_ext N (fun st => st' ← body i st; for_loop n (Z.succ i) body st')).
    { intros st. reflexivity. }
    apply appends_then; [apply Hbody; lia|].
    apply IH. intros k Hk. apply Hbody. lia.
Qed.

Lemma appends_down_loop N body out (n : nat) (i : Z) :
  (forall k, i - Z.of_nat n < k <= i -> appends N (body k) (out k)) ->
  appends N (down_loop n i body) (concat (map out (downfrom i n))).
Proof.
  revert i. induction n as [|n IH]; intros i Hbody.
  - apply appends_nothing.
  - simpl downfrom. simpl map. simpl concat.
    apply (appends_ext N (fun st => st' ← body i st; down_loop n (i - 1) body st')).
    { intros st. reflexivity. }
    apply appends_then; [apply Hbody; lia|].
    apply IH. intros k Hk. apply Hbody. lia.
Qed.

Lemma appends_rotate_put N gfi x y v :
  Image.getpixel gfi y x = Ok v -> appends N (rotate_put gfi x y) [v].
Proof.
  intros Hv trav nd Htrav Hlen Hroom. simpl in Hroom.
  unfold rotate_put. rewrite Hv. simpl. rewrite store_Ok by lia. simpl.
  eexists. split; [reflexivity|]. split; [by rewrite length_insert|].
  rewrite Nat.add_1_r.
  rewrite (take_S_r _ _ v) by (apply list_lookup_insert_eq; lia).
  by rewrite take_insert_ge.
Qed.

(** A run that starts at the first cell and appends as many values as the
    buffer has cells leaves the buffer equal to what it appended. *)
Lemma appends_all N step out nd :
  appends N step out -> length nd = N -> length out = N ->
  exists trav, step (0, nd) = Ok (trav, out).
Proof.
  intros H Hlen Hout.
  destruct (H 0 nd) as (nd' & Hrun & Hlen' & Htake); [lia..|].
  simpl in Htake. rewrite take_ge in Htake by lia. subst nd'. eauto.
Qed.

Lemma raw_frame_getpixel (gfi : Gif_Image) (y x : Z) :
  raw_frame gfi ->
  0 <= y < Image.height gfi -> 0 <= x < Image.width gfi ->
  Image.getpixel gfi y x = Ok (pix gfi (y, x)).
Proof.
  intros Hraw Hy Hx. unfold pix, Image.getpixel. simpl.
  destruct (load_in_range (Image.rows gfi) y) as [row Hrow].
  { rewrite (raw_rows _ Hraw). lia. }
  rewrite Hrow. simpl. apply load_Ok in Hrow as [_ Hrow].
  destruct (raw_bounds _ Hraw _ _ Hrow) as [H0 H1].
  destruct (load_in_range (Image.image_data gfi) (row + x)) as [v Hv]; [lia|].
  by rewrite Hv.
Qed.

Lemma length_Gif_NewArray (n : Z) :
  length (Gif_NewArray uninit n) = Z.to_nat n.
Proof. unfold Gif_NewArray. by rewrite length_map, length_seq. Qed.

Lemma length_concat_const {A B : Type} (f : A -> list B) (l : list A) (n : nat) :
  (forall a, length (f a) = n) -> length (concat (map f l)) = (length l * n)%nat.
Proof.
  intros Hf. induction l as [|a l IH]; [reflexivity|].
  simpl. rewrite length_app, Hf, IH. lia.
Qed.

Lemma by_columns_concat (f : Z * Z -> Z) (xs ys : list Z) :
  f <$> by_columns xs ys
  = concat (map (fun x => concat (map (fun y => [f (y, x)]) ys)) xs).
Proof.
  unfold by_columns. induction xs as [|x xs IH]; [reflexivity|].
  simpl. rewrite fmap_app, IH. f_equal.
  clear IH. induction ys as [|y ys IH]; [reflexivity|].
  simpl. by rewrite <- IH.
Qed.

Lemma length_by_columns (xs ys : list Z) :
  length (by_columns xs ys) = (length xs * length ys)%nat.
Proof.
  unfold by_columns. apply length_concat_const. intros x. apply length_map.
Qed.

Lemma by_columns_in_range (xs ys : list Z) (w h : Z) :
  Forall (fun x => 0 <= x < w) xs -> Forall (fun y => 0 <= y < h) ys ->
  Forall (fun yx : Z * Z => 0 <= yx.1 < h /\ 0 <= yx.2 < w) (by_columns xs ys).
Proof.
  intros Hxs Hys. unfold by_columns.
  induction Hxs as [|x xs Hx _ IH]; simpl; [constructor|].
  apply Forall_app. split; [|exact IH].
  apply Forall_map. eapply Forall_impl; [exact Hys|].
  intros y Hy. simpl. split; assumption.
Qed.

Lemma seqZ_in_range (n : Z) : Forall (fun k => 0 <= k < n) (seqZ 0 n).
Proof.
  apply Forall_forall. intros k Hk. apply list_elem_of_lookup in Hk as [i Hi].
  apply lookup_seqZ in Hi. lia.
Qed.

Lemma pixels_by_columns (gfi : Gif_Image) (order : list (Z * Z)) :
  raw_frame gfi ->
  Forall (fun yx : Z * Z => 0 <= yx.1 < Image.height gfi
                            /\ 0 <= yx.2 < Image.width gfi) order ->
  Forall2 (fun v (yx : Z * Z) => Image.getpixel gfi yx.1 yx.2 = Ok v)
          (pix gfi <$> order) order.
Proof.
  intros Hraw Horder. induction Horder as [|[y x] order [Hy Hx] _ IH]; simpl.
  - constructor.
  - constructor; [|exact IH]. by apply raw_frame_getpixel.
Qed.

(** The two loop nests of rotate_image fill the new buffer with the pixels
    of the frame in the order of their traversal. *)
Lemma rotate_loops_90 (gfi : Gif_Image) :
  raw_frame gfi ->
  let width := Image.width gfi in
  let height := Image.height gfi in
  exists trav,
    for_upto 0 width
      (fun x st => for_downto (height - 1) 0 (fun y st => rotate_put gfi x y st) st)
      (0, Gif_NewArray uninit (width * height))
    = Ok (trav, pix gfi <$> by_columns (seqZ 0 width) (reverse (seqZ 0 height))).
Proof.
  intros Hraw width height.
  pose proof (raw_width _ Hraw) as Hw. pose proof (raw_height _ Hraw) as Hh.
  fold width in Hw. fold height in Hh.
  rewrite by_columns_concat.
  replace (reverse (seqZ 0 height)) with (downfrom (height - 1) (Z.to_nat height)).
  2:{ rewrite downfrom_reverse. do 2 f_equal; lia. }
  replace (seqZ 0 width) with (seqZ 0 (Z.of_nat (Z.to_nat (width - 0))))
    by (f_equal; lia).
  apply (appends_all (Z.to_nat (width * height))).
  - unfold for_upto. apply appends_for_loop. intros x Hx.
    unfold for_downto.
    replace (Z.to_nat (height - 1 - 0 + 1)) with (Z.to_nat height) by lia.
    apply appends_down_loop. intros y Hy.
    apply appends_rotate_put. apply (raw_frame_getpixel gfi y x Hraw); lia.
  - apply length_Gif_NewArray.
  - rewrite (length_concat_const _ _ (Z.to_nat height)).
    + rewrite length_seqZ. lia.
    + intros x. rewrite (length_concat_const _ _ 1%nat) by reflexivity.
      clear. generalize (height - 1). induction (Z.to_nat height) as [|n IH];
        intros i; simpl; [reflexivity|]. specialize (IH (i - 1)). lia.
Qed.

Lemma length_downfrom (i : Z) (n : nat) : length (downfrom i n) = n.
Proof. revert i. induction n as [|n IH]; intros i; simpl; [|rewrite IH]; reflexivity. Qed.

Lemma rotate_loops_270 (gfi : Gif_Image) :
  raw_frame gfi ->
  let width := Image.width gfi in
  let height := Image.height gfi in
  exists trav,
    for_downto (width - 1) 0
      (fun x st => for_upto 0 height (fun y st => rotate_put gfi x y st) st)
      (0, Gif_NewArray uninit (width * height))
    = Ok (trav, pix gfi <$> by_columns (reverse (seqZ 0 width)) (seqZ 0 height)).
Proof.
  intros Hraw width height.
  pose proof (raw_width _ Hraw) as Hw. pose proof (raw_height _ Hraw) as Hh.
  fold width in Hw. fold height in Hh.
  rewrite by_columns_concat.
  replace (reverse (seqZ 0 width)) with (downfrom (width - 1) (Z.to_nat width)).
  2:{ rewrite downfrom_reverse. do 2 f_equal; lia. }
  replace (seqZ 0 height) with (seqZ 0 (Z.of_nat (Z.to_nat (height - 0))))
    by (f_equal; lia).
  apply (appends_all (Z.to_nat (width * height))).
  - unfold for_downto.
    replace (Z.to_nat (width - 1 - 0 + 1)) with (Z.to_nat width) by lia.
    apply appends_down_loop. intros x Hx.
    unfold for_upto. apply appends_for_loop. intros y Hy.
    apply appends_rotate_put. apply (raw_frame_getpixel gfi y x Hraw); lia.
  - apply length_Gif_NewArray.
  - rewrite (length_concat_const _ _ (Z.to_nat height)).
    + rewrite length_downfrom. lia.
    + intros x. rewrite (length_concat_const _ _ 1%nat) by reflexivity.
      rewrite length_seqZ. lia.
Qed.

(** C7. On a raw frame of no more than INT_MAX pixels (the size of the new
    buffer is an [int] product), rotate_image with [rotation] 1 returns a
    raw frame whose pixel bytes are the pixels of the source taken column by column
    from the left and, within a column, row by row from the bottom; its
    left is [screen_height - (top + height)] and its top the old left. With
    [rotation] 3 the columns are taken from the right and the rows from
    the top; the new top is [screen_width - (left + width)] and the new
    left the old top. In both cases the new width is the old height and
    the new height the old width. *)
Theorem rotate_image_traversal :
  forall (gfi : Gif_Image) (screen_width screen_height : Z),
    raw_frame gfi ->
    Image.width gfi * Image.height gfi <= INT_MAX ->
    let width := Image.width gfi in
    let height := Image.height gfi in
    (exists gfi',
       rotate_image uninit gfi screen_width screen_height 1 = Ok gfi'
       /\ raw_frame gfi'
       /\ Forall2 (fun v (yx : Z * Z) => Image.getpixel gfi yx.1 yx.2 = Ok v)
            (Image.image_data gfi')
            (by_columns (seqZ 0 width) (reverse (seqZ 0 height)))
       /\ Image.left gfi' = screen_height - (Image.top gfi + height)
       /\ Image.top gfi' = Image.left gfi
       /\ Image.width gfi' = height /\ Image.height gfi' = width)
    /\ (exists gfi',
          rotate_image uninit gfi screen_width screen_height 3 = Ok gfi'
          /\ raw_frame gfi'
          /\ Forall2 (fun v (yx : Z * Z) => Image.getpixel gfi yx.1 yx.2 = Ok v)
               (Image.image_data gfi')
               (by_columns (reverse (seqZ 0 width)) (seqZ 0 height))
          /\ Image.top gfi' = screen_width - (Image.left gfi + width)
          /\ Image.left gfi' = Image.top gfi
          /\ Image.width gfi' = height /\ Image.height gfi' = width).
Proof.
  intros gfi sw sh Hraw Hpixels width height.
  pose proof (raw_width _ Hraw) as Hw. pose proof (raw_height _ Hraw) as Hh.
  fold width in Hw, Hpixels. fold height in Hh, Hpixels.
  assert (Hn : int (width * height) = Ok (width * height))
    by (apply int_Ok; unfold INT_MIN; nia).
  split.
  - destruct (rotate_loops_90 gfi Hraw) as (trav & Hrun).
    unfold rotate_image. fold width height. rewrite Hn. simpl. cbv zeta in Hrun.
    fold width height in Hrun. rewrite Hrun. simpl.
    eexists. split; [reflexivity|]. split.
    { apply raw_frame_installed; simpl; [lia.. |].
      rewrite length_fmap, length_by_columns, length_reverse, !length_seqZ. nia. }
    simpl. split; [|tauto].
    apply pixels_by_columns; [assumption|].
    apply by_columns_in_range; [apply seqZ_in_range|].
    apply Forall_reverse, seqZ_in_range.
  - destruct (rotate_loops_270 gfi Hraw) as (trav & Hrun).
    unfold rotate_image. fold width height. rewrite Hn. simpl. cbv zeta in Hrun.
    fold width height in Hrun. rewrite Hrun. simpl.
    eexists. split; [reflexivity|]. split.
    { apply raw_frame_installed; simpl; [lia.. |].
      rewrite length_fmap, length_by_columns, length_reverse, !length_seqZ. nia. }
    simpl. split; [|tauto].
    apply pixels_by_columns; [assumption|].
    apply by_columns_in_range; [|apply seqZ_in_range].
    apply Forall_reverse, seqZ_in_range.
Qed.

End RotateProperties.

(** The 3 by 2 frame [1 2 3 / 4 5 6] turned by 90 and by 270 degrees on a
    100 by 100 screen. *)
Example rotate_image_wide_frame :
  FlipRotate.rotate_image (fun _ => 0) ex_wide_frame 100 100 1
  = Ok (Image.mkImage (Some [0; 2; 4]) [4; 1; 5; 2; 6; 3] 2 3 78 10 (-1) None)
  /\ FlipRotate.rotate_image (fun _ => 0) ex_wide_frame 100 100 3
     = Ok (Image.mkImage (Some [0; 2; 4]) [3; 6; 2; 5; 1; 4] 2 3 20 87 (-1) None)
  /\ FlipRotate.rotate_image (fun _ => 0) ex_wide_frame 100 100 2 = AssertFail.
Proof. repeat split; reflexivity. Qed.

Lemma rotate_image_traversal_witness :
  (exists gfi',
     FlipRotate.rotate_image (fun _ => 0) ex_wide_frame 100 100 1 = Ok gfi'
     /\ raw_frame gfi'
     /\ Forall2 (fun v (yx : Z * Z) => Image.getpixel ex_wide_frame yx.1 yx.2 = Ok v)
          (Image.image_data gfi')
          (by_columns (seqZ 0 3) (reverse (seqZ 0 2)))
     /\ Image.left gfi' = 100 - (20 + 2)
     /\ Image.top gfi' = 10
     /\ Image.width gfi' = 2 /\ Image.height gfi' = 3)
  /\ (exists gfi',
        FlipRotate.rotate_image (fun _ => 0) ex_wide_frame 100 100 3 = Ok gfi'
        /\ raw_frame gfi'
        /\ Forall2 (fun v (yx : Z * Z) => Image.getpixel ex_wide_frame yx.1 yx.2 = Ok v)
             (Image.image_data gfi')
             (by_columns (reverse (seqZ 0 3)) (seqZ 0 2))
        /\ Image.top gfi' = 100 - (10 + 3)
        /\ Image.left gfi' = 20
        /\ Image.width gfi' = 2 /\ Image.height gfi' = 3).
Proof.
  apply (rotate_image_traversal (fun _ => 0) ex_wide_frame 100 100
           ex_wide_frame_raw).
  vm_compute. discriminate.
Defined.

(** ** Scale *)

Section ScaleArithmetic.

Import FlipRotate Scale.

Lemma SCALE_mul (d : Z) : SCALE d = 1024 * d.
Proof. unfold SCALE. rewrite Z.shiftl_mul_pow2 by lia. lia. Qed.

Lemma UNSCALE_div (d : Z) : UNSCALE d = (d + 512) / 1024.
Proof.
  unfold UNSCALE, UNSCALE_NOROUND. rewrite Z.shiftr_div_pow2 by lia. reflexivity.
Qed.

Lemma UNSCALE_whole (a : Z) : UNSCALE (1024 * a) = a.
Proof. rewrite UNSCALE_div. symmetry. apply (Z.div_unique _ _ _ 512); lia. Qed.

Lemma UNSCALE_NOROUND_INT_MAX : UNSCALE_NOROUND INT_MAX = 2097151.
Proof. reflexivity. Qed.

(** The fixed-point step of the factor 1.0 is 1024. *)
Lemma step_of_one :
  double_to_int (int_to_double SCALE_FACTOR * 1 + 0.5)%float = Ok 1024.
Proof. vm_compute. reflexivity. Qed.

(** The fixed-point step of the factor 0.5 is 512. *)
Lemma step_of_half :
  double_to_int (int_to_double SCALE_FACTOR * 0.5 + 0.5)%float = Ok 512.
Proof. vm_compute. reflexivity. Qed.

(** The row table that Gif_SetUncompressedImage builds. *)
Lemma load_row_table (w h y : Z) :
  0 <= y < h ->
  load (map (fun y => Z.of_nat y * w) (seq 0 (Z.to_nat h))) y = Ok (y * w).
Proof.
  intros Hy. apply load_Ok. split; [lia|].
  rewrite list_lookup_fmap, lookup_seq_lt by lia. simpl.
  by rewrite Z2Nat.id by lia.
Qed.

Lemma SCALE_int_Ok (d : Z) :
  0 <= d <= UNSCALE_NOROUND INT_MAX -> SCALE_int d = Ok (SCALE d).
Proof.
  rewrite UNSCALE_NOROUND_INT_MAX. intros Hd. unfold SCALE_int.
  destruct (Z.ltb_spec d 0); [lia|]. apply int_Ok. rewrite SCALE_mul.
  unfold INT_MIN, INT_MAX. lia.
Qed.

Lemma UNSCALE_int_Ok (d : Z) :
  INT_MIN <= d + 512 <= INT_MAX -> UNSCALE_int d = Ok (UNSCALE d).
Proof.
  intros Hd. unfold UNSCALE_int. change (Z.shiftl 1 9) with 512.
  by rewrite int_Ok.
Qed.

Lemma UNSCALE_int_inv (d v : Z) :
  UNSCALE_int d = Ok v -> v = UNSCALE d /\ INT_MIN <= d + 512 <= INT_MAX.
Proof.
  unfold UNSCALE_int. change (Z.shiftl 1 9) with 512.
  intros (s & Hs & Hv)%bind_Ok_inv. apply int_inv in Hs as [-> Hs].
  injection Hv as <-. auto.
Qed.

(** A conditional between two results that return. *)
Lemma if_Ok {A : Type} (b : bool) (x y : A) :
  (if b then Ok x else Ok y) = Ok (if b then x else y).
Proof. by destruct b. Qed.

End ScaleArithmetic.

Section ScanArithmetic.

Import Scale.

Lemma UNSCALE_sub_SCALE (a b : Z) : UNSCALE (a - SCALE b) = UNSCALE a - b.
Proof.
  rewrite !UNSCALE_div, SCALE_mul.
  replace (a - 1024 * b + 512) with (a + 512 + (- b) * 1024) by lia.
  rewrite Z.div_add by lia. lia.
Qed.

Lemma UNSCALE_mono (a b : Z) : a <= b -> UNSCALE a <= UNSCALE b.
Proof. intros H. rewrite !UNSCALE_div. apply Z.div_le_mono; lia. Qed.

Lemma UNSCALE_NOROUND_div (d : Z) : UNSCALE_NOROUND d = d / 1024.
Proof. unfold UNSCALE_NOROUND. by rewrite Z.shiftr_div_pow2 by lia. Qed.

Lemma UNSCALE_NOROUND_le (d : Z) : UNSCALE_NOROUND d <= UNSCALE d.
Proof.
  rewrite UNSCALE_NOROUND_div, UNSCALE_div. apply Z.div_le_mono; lia.
Qed.

(** [d < SCALE (n + 1)] is [UNSCALE_NOROUND d <= n]. *)
Lemma below_SCALE (d n : Z) : d < SCALE (n + 1) <-> UNSCALE_NOROUND d <= n.
Proof.
  rewrite SCALE_mul, UNSCALE_NOROUND_div.
  pose proof (Z.div_mod d 1024). pose proof (Z.mod_pos_bound d 1024). lia.
Qed.

(** What a run of the edge computation that returns has computed. *)
Lemma scale_geometry_run (gfi : Gif_Image) (xfactor yfactor : float)
    (g : geometry) :
  scale_geometry gfi xfactor yfactor = Ok g ->
  let right := UNSCALE (scaled_xstep g * (Image.left gfi + Image.width gfi)) in
  let bottom := UNSCALE (scaled_ystep g * (Image.top gfi + Image.height gfi)) in
  double_to_int (int_to_double SCALE_FACTOR * xfactor + 0.5)%float
  = Ok (scaled_xstep g)
  /\ double_to_int (int_to_double SCALE_FACTOR * yfactor + 0.5)%float
     = Ok (scaled_ystep g)
  /\ new_left g = UNSCALE (scaled_xstep g * Image.left gfi)
  /\ new_top g = UNSCALE (scaled_ystep g * Image.top gfi)
  /\ ((0 < right - new_left g /\ new_right g = right
       /\ new_width g = right - new_left g)
      \/ (right - new_left g <= 0 /\ new_right g = new_left g + 1
          /\ new_width g = 1))
  /\ ((0 < bottom - new_top g /\ new_bottom g = bottom
       /\ new_height g = bottom - new_top g)
      \/ (bottom - new_top g <= 0 /\ new_bottom g = new_top g + 1
          /\ new_height g = 1))
  /\ new_width g <= UNSCALE_NOROUND INT_MAX
  /\ new_height g <= UNSCALE_NOROUND INT_MAX
  /\ (INT_MIN <= scaled_xstep g * Image.left gfi
      /\ scaled_xstep g * Image.left gfi + 512 <= INT_MAX)
  /\ (INT_MIN <= scaled_xstep g * (Image.left gfi + Image.width gfi)
      /\ scaled_xstep g * (Image.left gfi + Image.width gfi) + 512 <= INT_MAX)
  /\ (INT_MIN <= scaled_ystep g * Image.top gfi
      /\ scaled_ystep g * Image.top gfi + 512 <= INT_MAX)
  /\ (INT_MIN <= scaled_ystep g * (Image.top gfi + Image.height gfi)
      /\ scaled_ystep g * (Image.top gfi + Image.height gfi) + 512 <= INT_MAX).
Proof.
  unfold scale_geometry. intros H.
  apply bind_Ok_inv in H as (xs & Hxs & H).
  apply bind_Ok_inv in H as (ys & Hys & H).
  apply bind_Ok_inv in H as (nl & Hnl & H).
  apply bind_Ok_inv in H as (nt & Hnt & H).
  apply bind_Ok_inv in H as (nr & Hnr & H).
  apply bind_Ok_inv in H as (nb & Hnb & H).
  apply bind_Ok_inv in H as (nw & Hnw & H).
  apply bind_Ok_inv in H as (nh & Hnh & H).
  apply bind_Ok_inv in H as ([nw' nr'] & Hcw & H).
  apply bind_Ok_inv in H as ([nh' nb'] & Hch & H).
  apply bind_Ok_inv in Hnl as (p1 & Hp1 & Hnl).
  apply int_inv in Hp1 as [-> Hp1]. apply UNSCALE_int_inv in Hnl as [-> Hnl].
  apply bind_Ok_inv in Hnt as (p2 & Hp2 & Hnt).
  apply int_inv in Hp2 as [-> Hp2]. apply UNSCALE_int_inv in Hnt as [-> Hnt].
  apply bind_Ok_inv in Hnr as (e1 & He1 & Hnr).
  apply int_inv in He1 as [-> He1].
  apply bind_Ok_inv in Hnr as (p3 & Hp3 & Hnr).
  apply int_inv in Hp3 as [-> Hp3]. apply UNSCALE_int_inv in Hnr as [-> Hnr].
  apply bind_Ok_inv in Hnb as (e2 & He2 & Hnb).
  apply int_inv in He2 as [-> He2].
  apply bind_Ok_inv in Hnb as (p4 & Hp4 & Hnb).
  apply int_inv in Hp4 as [-> Hp4]. apply UNSCALE_int_inv in Hnb as [-> Hnb].
  apply int_inv in Hnw as [-> Hnw]. apply int_inv in Hnh as [-> Hnh].
  rewrite UNSCALE_NOROUND_INT_MAX in *.
  assert (Hw : (0 < UNSCALE (xs * (Image.left gfi + Image.width gfi))
                    - UNSCALE (xs * Image.left gfi)
                /\ nr' = UNSCALE (xs * (Image.left gfi + Image.width gfi))
                /\ nw' = UNSCALE (xs * (Image.left gfi + Image.width gfi))
                         - UNSCALE (xs * Image.left gfi))
               \/ (UNSCALE (xs * (Image.left gfi + Image.width gfi))
                   - UNSCALE (xs * Image.left gfi) <= 0
                   /\ nr' = UNSCALE (xs * Image.left gfi) + 1 /\ nw' = 1)).
  { destruct (Z.leb_spec (UNSCALE (xs * (Image.left gfi + Image.width gfi))
                          - UNSCALE (xs * Image.left gfi)) 0).
    - apply bind_Ok_inv in Hcw as (r & Hr & Hcw). apply int_inv in Hr as [-> _].
      injection Hcw as <- <-. right. auto.
    - injection Hcw as <- <-. left. auto. }
  assert (Hh : (0 < UNSCALE (ys * (Image.top gfi + Image.height gfi))
                    - UNSCALE (ys * Image.top gfi)
                /\ nb' = UNSCALE (ys * (Image.top gfi + Image.height gfi))
                /\ nh' = UNSCALE (ys * (Image.top gfi + Image.height gfi))
                         - UNSCALE (ys * Image.top gfi))
               \/ (UNSCALE (ys * (Image.top gfi + Image.height gfi))
                   - UNSCALE (ys * Image.top gfi) <= 0
                   /\ nb' = UNSCALE (ys * Image.top gfi) + 1 /\ nh' = 1)).
  { destruct (Z.leb_spec (UNSCALE (ys * (Image.top gfi + Image.height gfi))
                          - UNSCALE (ys * Image.top gfi)) 0).
    - apply bind_Ok_inv in Hch as (r & Hr & Hch). apply int_inv in Hr as [-> _].
      injection Hch as <- <-. right. auto.
    - injection Hch as <- <-. left. auto. }
  destruct (Z.ltb_spec 2097151 nw'); [discriminate|].
  destruct (Z.ltb_spec 2097151 nh'); [discriminate|].
  injection H as <-. simpl.
  split; [assumption|]. split; [assumption|]. split; [reflexivity|].
  split; [reflexivity|]. split; [exact Hw|]. split; [exact Hh|].
  split; [assumption|]. split; [assumption|].
  split; [lia|]. split; [lia|]. split; lia.
Qed.

(** The edges that scale_geometry returns. *)
Lemma scale_geometry_edges (gfi : Gif_Image) (xfactor yfactor : float)
    (g : geometry) :
  scale_geometry gfi xfactor yfactor = Ok g -> geometry_of gfi g.
Proof.
  intros H. apply scale_geometry_run in H. cbv zeta in H.
  destruct H as (_ & _ & Hl & Ht & Hw & Hh & Hnw & Hnh & Hx0 & Hx1 & Hy0 & Hy1).
  split; try assumption; lia.
Qed.

(** The steps depend on the factors only, and each edge on its step and
    its position only; a width or height that would not be positive is
    set to 1. *)
Lemma scale_geometry_inv (gfi : Gif_Image) (xfactor yfactor : float)
    (g : geometry) :
  scale_geometry gfi xfactor yfactor = Ok g ->
  double_to_int (int_to_double SCALE_FACTOR * xfactor + 0.5)%float
  = Ok (scaled_xstep g)
  /\ double_to_int (int_to_double SCALE_FACTOR * yfactor + 0.5)%float
     = Ok (scaled_ystep g)
  /\ new_left g = UNSCALE (scaled_xstep g * Image.left gfi)
  /\ new_top g = UNSCALE (scaled_ystep g * Image.top gfi)
  /\ (new_left g + new_width g
      = UNSCALE (scaled_xstep g * (Image.left gfi + Image.width gfi))
      \/ (new_width g = 1
          /\ UNSCALE (scaled_xstep g * (Image.left gfi + Image.width gfi))
             <= new_left g))
  /\ (new_top g + new_height g
      = UNSCALE (scaled_ystep g * (Image.top gfi + Image.height gfi))
      \/ (new_height g = 1
          /\ UNSCALE (scaled_ystep g * (Image.top gfi + Image.height gfi))
             <= new_top g)).
Proof.
  intros H. apply scale_geometry_run in H. cbv zeta in H.
  destruct H as (Hxs & Hys & Hl & Ht & Hw & Hh & _).
  do 4 (split; [assumption|]). split; lia.
Qed.

End ScanArithmetic.

Section DownLoop.

Context {S : Type}.

(** A counted loop whose body does not read the counter keeps an
    invariant of the number of iterations done. *)
Lemma down_loop_invariant (P : nat -> S -> Prop) (body : Z -> S -> result S)
    (n : nat) (i : Z) (s : S) :
  P O s ->
  (forall (m : nat) (k : Z) (t : S), (m < n)%nat -> P m t ->
     exists t', body k t = Ok t' /\ P (Datatypes.S m) t') ->
  exists s', down_loop n i body s = Ok s' /\ P n s'.
Proof.
  revert P i s. induction n as [|n IH]; intros P i s H0 Hstep.
  - exists s. by split.
  - destruct (Hstep O i s) as (t & Hb & Ht); [lia | assumption |].
    destruct (IH (fun m => P (Datatypes.S m)) (i - 1) t) as (s' & Hl & Hs').
    + assumption.
    + intros m k u Hm. apply Hstep. lia.
    + exists s'. simpl. rewrite Hb. by split.
Qed.

End DownLoop.

Section ScanCoverage.

Import Scale.

Variables (gfi : Gif_Image) (g : geometry).

Hypothesis Hraw : raw_frame gfi.
Hypothesis Hgeo : geometry_of gfi g.
Hypothesis Hwidth : 1 <= Image.width gfi.
Hypothesis Hheight : 1 <= Image.height gfi.
Hypothesis Hxstep : 0 <= scaled_xstep g.
Hypothesis Hystep : 0 <= scaled_ystep g.
Hypothesis Hfits : scan_fits_int gfi g.

Lemma cell_inj (Y1 X1 Y2 X2 : Z) :
  0 <= X1 < new_width g -> 0 <= X2 < new_width g ->
  Y1 * new_width g + X1 = Y2 * new_width g + X2 ->
  Y1 = Y2 /\ X1 = X2.
Proof.
  intros H1 H2 H. destruct (Z.lt_trichotomy Y1 Y2) as [Hlt|[->|Hlt]]; nia.
Qed.

Lemma cell_in_buffer (Y X : Z) :
  0 <= Y < new_height g -> 0 <= X < new_width g ->
  0 <= Y * new_width g + X < new_width g * new_height g.
Proof. intros HY HX. nia. Qed.

(** A store of the pixel of a fitting row and column into a cell makes
    the cell show it and keeps what the other cells show. *)
Lemma shows_store (nd : list Z) (Y0 X0 j i v : Z) :
  Z.of_nat (length nd) = new_width g * new_height g ->
  0 <= Y0 < new_height g -> 0 <= X0 < new_width g ->
  0 <= j < Image.height gfi -> 0 <= i < Image.width gfi ->
  Image.getpixel gfi j i = Ok v ->
  row_of gfi g j (new_top g + Y0) ->
  column_of gfi g i (new_left g + X0) ->
  exists nd',
    store nd (Y0 * new_width g + X0) v = Ok nd'
    /\ length nd' = length nd
    /\ shows gfi g nd' Y0 X0
    /\ forall Y X, 0 <= X < new_width g -> shows gfi g nd Y X -> shows gfi g nd' Y X.
Proof.
  intros Hlen HY0 HX0 Hj Hi Hv Hrow Hcol.
  pose proof (cell_in_buffer Y0 X0 HY0 HX0) as Hidx.
  rewrite store_Ok by lia. eexists. split; [reflexivity|].
  split; [by rewrite length_insert|].
  assert (Hhere : shows gfi g (<[Z.to_nat (Y0 * new_width g + X0) := v]> nd) Y0 X0).
  { exists j, i, v. rewrite load_store by lia.
    rewrite decide_True by reflexivity. auto 10. }
  split; [exact Hhere|].
  intros Y X HX (j' & i' & v' & Hj' & Hi' & Hload & Hrest).
  destruct (decide (Y * new_width g + X = Y0 * new_width g + X0)) as [E|E].
  - apply cell_inj in E as [-> ->]; assumption.
  - exists j', i', v'. rewrite load_store by lia. rewrite decide_False by exact E.
    auto.
Qed.

(** The innermost loop: [y_delta] cells of one column, one below the
    other. *)
Lemma fill_shows (in_line j i y_delta Y0 X0 : Z) (nd : list Z) :
  Image.rows gfi !! Z.to_nat j = Some in_line ->
  0 <= j < Image.height gfi -> 0 <= i < Image.width gfi ->
  0 <= y_delta -> 0 <= Y0 -> Y0 + y_delta <= new_height g ->
  0 <= X0 < new_width g ->
  Z.of_nat (length nd) = new_width g * new_height g ->
  (forall k, 0 <= k < y_delta -> row_of gfi g j (new_top g + (Y0 + k))) ->
  column_of gfi g i (new_left g + X0) ->
  exists nd',
    scale_fill gfi g in_line i y_delta (Y0 * new_width g + X0) nd = Ok nd'
    /\ length nd' = length nd
    /\ (forall k, 0 <= k < y_delta -> shows gfi g nd' (Y0 + k) X0)
    /\ forall Y X, 0 <= X < new_width g -> shows gfi g nd Y X -> shows gfi g nd' Y X.
Proof.
  intros Hline Hj Hi Hyd HY0 HY1 HX0 Hlen Hrows Hcol.
  destruct (raw_bounds _ Hraw _ _ Hline) as [Hlo Hhi].
  destruct (load_in_range (Image.image_data gfi) (in_line + i)) as [v Hv]; [lia|].
  assert (Hpix : Image.getpixel gfi j i = Ok v).
  { unfold Image.getpixel.
    assert (Hl : load (Image.rows gfi) j = Ok in_line)
      by (apply load_Ok; split; [lia | assumption]).
    by rewrite Hl. }
  unfold scale_fill.
  apply (for_upto_invariant
    (fun k cur =>
       length cur = length nd
       /\ (forall k', 0 <= k' < k -> shows gfi g cur (Y0 + k') X0)
       /\ forall Y X, 0 <= X < new_width g -> shows gfi g nd Y X ->
                      shows gfi g cur Y X)).
  - exact Hyd.
  - split; [reflexivity|]. split; [intros k' Hk'; lia | auto].
  - intros k cur Hk (Hlen' & Hdone & Hkeep). rewrite Hv. run_bind.
    rewrite int_Ok.
    2:{ destruct Hfits as (_ & _ & _ & _ & _ & Hcells).
        pose proof (geo_width _ _ Hgeo). unfold INT_MIN. nia. }
    run_bind.
    destruct (shows_store cur (Y0 + k) X0 j i v) as (nd' & Hst & Hl' & Hs & Hk');
      [lia | lia | assumption.. | by apply Hrows | assumption |].
    exists nd'. split.
    { rewrite <- Hst. f_equal. lia. }
    split; [lia|]. split.
    + intros k' Hk'k. destruct (decide (k' = k)) as [->|Hne]; [exact Hs|].
      apply Hk'; [assumption|]. apply Hdone. lia.
    + intros Y X HX HYX. apply Hk'; [assumption|]. by apply Hkeep.
Qed.

(** The ranges of the scan. *)
Lemma scan_ranges :
  0 <= new_left g /\ new_right g <= 2097151
  /\ 0 <= new_top g /\ new_bottom g <= 2097151
  /\ new_width g * new_height g <= INT_MAX
  /\ (forall k, 0 <= k <= Image.width gfi ->
        0 <= scaled_xstep g * (Image.left gfi + k)
        /\ scaled_xstep g * (Image.left gfi + k) + 512 <= INT_MAX)
  /\ (forall k, 0 <= k <= Image.height gfi ->
        0 <= scaled_ystep g * (Image.top gfi + k)
        /\ scaled_ystep g * (Image.top gfi + k) + 512 <= INT_MAX).
Proof.
  destruct Hfits as (Hl & Ht & Hr & Hb & _ & Hcells).
  rewrite UNSCALE_NOROUND_INT_MAX in Hr, Hb.
  pose proof (geo_x_end _ _ Hgeo) as [_ Hx]. pose proof (geo_y_end _ _ Hgeo) as [_ Hy].
  split. { rewrite (geo_left _ _ Hgeo), UNSCALE_div. apply Z.div_pos; nia. }
  split; [assumption|].
  split. { rewrite (geo_top _ _ Hgeo), UNSCALE_div. apply Z.div_pos; nia. }
  split; [assumption|]. split; [assumption|].
  split; intros k Hk; split; nia.
Qed.

(** Where the scaled right edge of the column [i] falls. *)
Lemma column_edge (i : Z) :
  0 <= i < Image.width gfi ->
  let sx := if i =? Image.width gfi - 1 then SCALE (new_right g)
            else scaled_xstep g * (Image.left gfi + i) + scaled_xstep g in
  UNSCALE (scaled_xstep g * (Image.left gfi + i)) <= UNSCALE sx <= new_right g
  /\ (i < Image.width gfi - 1 ->
      sx = scaled_xstep g * (Image.left gfi + (i + 1)))
  /\ (i = Image.width gfi - 1 -> UNSCALE sx = new_right g).
Proof.
  intros Hi. pose proof (geo_right_edge _ _ Hgeo) as Hedge.
  assert (Hmono : forall a b, a <= b ->
            UNSCALE (scaled_xstep g * (Image.left gfi + a))
            <= UNSCALE (scaled_xstep g * (Image.left gfi + b))).
  { intros a b Hab. apply UNSCALE_mono. nia. }
  destruct (Z.eqb_spec i (Image.width gfi - 1)) as [->|Hne]; simpl.
  - rewrite SCALE_mul, UNSCALE_whole. split; [|split; [lia | reflexivity]].
    split; [|lia].
    etransitivity; [apply (Hmono _ (Image.width gfi)); lia | exact Hedge].
  - replace (scaled_xstep g * (Image.left gfi + i) + scaled_xstep g)
      with (scaled_xstep g * (Image.left gfi + (i + 1))) by lia.
    split; [|split; [reflexivity | lia]]. split.
    + apply Hmono. lia.
    + etransitivity; [apply (Hmono _ (Image.width gfi)); lia | exact Hedge].
Qed.

(** The loop over the columns of one source row fills [y_delta] rows of
    the output from the left edge to the right edge. *)
Lemma columns_show (in_line j y_delta Y0 : Z) (nd : list Z) :
  Image.rows gfi !! Z.to_nat j = Some in_line ->
  0 <= j < Image.height gfi ->
  0 <= y_delta -> 0 <= Y0 -> Y0 + y_delta <= new_height g ->
  Z.of_nat (length nd) = new_width g * new_height g ->
  (forall k, 0 <= k < y_delta -> row_of gfi g j (new_top g + (Y0 + k))) ->
  exists st,
    for_upto 0 (Image.width gfi) (scale_column gfi g in_line y_delta)
      (new_left g, scaled_xstep g * Image.left gfi,
       Y0 * new_width g + (new_left g - new_left g), nd) = Ok st
    /\ length st.2 = length nd
    /\ (forall k X, 0 <= k < y_delta -> 0 <= X < new_width g ->
          shows gfi g st.2 (Y0 + k) X)
    /\ forall Y X, 0 <= X < new_width g -> shows gfi g nd Y X ->
                   shows gfi g st.2 Y X.
Proof.
  intros Hline Hj Hyd HY0 HY1 Hlen Hrows.
  pose proof (geo_left _ _ Hgeo) as Hleft.
  pose proof (geo_right _ _ Hgeo) as Hright.
  pose proof (geo_width _ _ Hgeo) as [Hnw _].
  destruct (for_upto_invariant
    (fun i (st : Z * Z * Z * list Z) =>
       let '(nx, sx, out, cur) := st in
       (i < Image.width gfi ->
        sx = scaled_xstep g * (Image.left gfi + i) /\ nx = UNSCALE sx)
       /\ (i = Image.width gfi -> nx = new_right g)
       /\ new_left g <= nx <= new_right g
       /\ out = Y0 * new_width g + (nx - new_left g)
       /\ length cur = length nd
       /\ (forall k X, 0 <= k < y_delta -> 0 <= X < nx - new_left g ->
             shows gfi g cur (Y0 + k) X)
       /\ forall Y X, 0 <= X < new_width g -> shows gfi g nd Y X ->
                      shows gfi g cur Y X)
    (scale_column gfi g in_line y_delta) 0 (Image.width gfi)
    (new_left g, scaled_xstep g * Image.left gfi,
     Y0 * new_width g + (new_left g - new_left g), nd))
    as ([[[nx sx] out] cur] & Hrun & _ & Hend & _ & _ & Hl & Hfill & Hkeep).
  - lia.
  - split; [|split; [lia|]; split; [lia|]; split; [reflexivity|];
             split; [reflexivity|]; split; [intros; lia | auto]].
    intros _. rewrite Z.add_0_r. split; [reflexivity | exact Hleft].
  - intros i [[[nx sx] out] cur] Hi (Hsx & _ & Hnx & Hout & Hl & Hfill & Hkeep).
    destruct Hsx as [-> ->]; [lia|].
    pose proof (column_edge i ltac:(lia)) as Hedge. cbv zeta in Hedge.
    destruct scan_ranges as (Hnl0 & Hnr1 & _ & _ & _ & Hxs & _).
    pose proof (Hxs (i + 1) ltac:(lia)) as Hnext.
    unfold scale_column.
    rewrite (int_Ok (scaled_xstep g * (Image.left gfi + i) + scaled_xstep g))
      by (unfold INT_MIN; lia).
    run_bind.
    rewrite (SCALE_int_Ok (new_right g))
      by (rewrite UNSCALE_NOROUND_INT_MAX; lia).
    rewrite if_Ok. run_bind.
    set (sx' := if i =? Image.width gfi - 1 then SCALE (new_right g)
                else scaled_xstep g * (Image.left gfi + i) + scaled_xstep g)
      in *.
    set (nx := UNSCALE (scaled_xstep g * (Image.left gfi + i))) in *.
    assert (Hsx' : 0 <= sx' /\ sx' + 512 <= INT_MAX).
    { subst sx'. destruct (i =? Image.width gfi - 1);
        [rewrite SCALE_mul; unfold INT_MAX | ]; lia. }
    destruct Hedge as ([Hlo Hhi] & Hmid & Hlast).
    rewrite (SCALE_int_Ok nx) by (rewrite UNSCALE_NOROUND_INT_MAX; lia).
    run_bind.
    rewrite (int_Ok (sx' - SCALE nx))
      by (rewrite SCALE_mul; unfold INT_MIN, INT_MAX in *; lia).
    run_bind.
    rewrite (UNSCALE_int_Ok (sx' - SCALE nx))
      by (rewrite SCALE_mul; unfold INT_MIN, INT_MAX in *; lia).
    run_bind.
    rewrite UNSCALE_sub_SCALE.
    destruct (down_loop_invariant
      (fun m (st : Z * Z * list Z) =>
         let '(nx', out', cur') := st in
         nx' = nx + Z.of_nat m /\ out' = out + Z.of_nat m
         /\ length cur' = length nd
         /\ (forall k X, 0 <= k < y_delta ->
               0 <= X < nx + Z.of_nat m - new_left g ->
               shows gfi g cur' (Y0 + k) X)
         /\ forall Y X, 0 <= X < new_width g -> shows gfi g nd Y X ->
                        shows gfi g cur' Y X)
      (fun _ '(new_x, out_data, new_data) =>
         new_data ← scale_fill gfi g in_line i y_delta out_data new_data;
         new_x ← int (new_x + 1);
         Ok (new_x, out_data + 1, new_data))
      (Z.to_nat (UNSCALE sx' - nx)) (UNSCALE sx' - nx) (nx, out, cur))
      as ([[nx' out'] cur'] & Hloop & -> & -> & Hl' & Hfill' & Hkeep').
    + rewrite !Z.add_0_r. auto.
    + intros m _ [[nx1 out1] cur1] Hm (-> & -> & Hl1 & Hfill1 & Hkeep1).
      destruct (fill_shows in_line j i y_delta Y0
                  (nx + Z.of_nat m - new_left g) cur1)
        as (nd' & Hst & Hl2 & Hs & Hothers); try assumption; try lia.
      { split; [lia|]. intros Hlt.
        replace (new_left g + (nx + Z.of_nat m - new_left g))
          with (nx + Z.of_nat m) by lia.
        rewrite <- Z.add_assoc, <- (Hmid Hlt). lia. }
      replace (out + Z.of_nat m)
        with (Y0 * new_width g + (nx + Z.of_nat m - new_left g)) by lia.
      rewrite Hst. run_bind.
      rewrite int_Ok by (unfold INT_MIN, INT_MAX; lia).
      run_bind. eexists. split; [reflexivity|].
      split; [lia|]. split; [lia|]. split; [lia|]. split.
      * intros k X Hk HX.
        destruct (decide (X = nx + Z.of_nat m - new_left g)) as [->|Hne];
          [by apply Hs|].
        apply Hothers; [lia|]. apply Hfill1; lia.
      * intros Y X HX HYX. apply Hothers; [assumption|]. by apply Hkeep1.
    + rewrite Hloop. run_bind. eexists. split; [reflexivity|].
      replace (nx + Z.of_nat (Z.to_nat (UNSCALE sx' - nx))) with (UNSCALE sx')
        in * by lia.
      split; [intros Hlt; split; [apply Hmid; lia | reflexivity]|].
      split; [intros Heq; apply Hlast; lia|].
      split; [lia|]. split; [lia|]. split; [assumption|]. split; assumption.
  - exists (nx, sx, out, cur). split; [exact Hrun|]. simpl.
    split; [assumption|]. split; [|assumption].
    intros k X Hk HX. apply Hfill; [assumption|]. rewrite Hend by reflexivity. lia.
Qed.

(** Where the scaled bottom edge of the row [j] falls. *)
Lemma row_edge (j : Z) :
  0 <= j < Image.height gfi ->
  let sy := if j =? Image.height gfi - 1 then SCALE (new_bottom g)
            else scaled_ystep g * (Image.top gfi + j) + scaled_ystep g in
  UNSCALE (scaled_ystep g * (Image.top gfi + j)) <= UNSCALE sy <= new_bottom g
  /\ (j < Image.height gfi - 1 ->
      sy = scaled_ystep g * (Image.top gfi + (j + 1)))
  /\ (j = Image.height gfi - 1 -> sy = SCALE (new_bottom g)).
Proof.
  intros Hj. pose proof (geo_bottom_edge _ _ Hgeo) as Hedge.
  assert (Hmono : forall a b, a <= b ->
            UNSCALE (scaled_ystep g * (Image.top gfi + a))
            <= UNSCALE (scaled_ystep g * (Image.top gfi + b))).
  { intros a b Hab. apply UNSCALE_mono. nia. }
  destruct (Z.eqb_spec j (Image.height gfi - 1)) as [->|Hne]; simpl.
  - rewrite SCALE_mul, UNSCALE_whole. split; [|split; [lia | reflexivity]].
    split; [|lia].
    etransitivity; [apply (Hmono _ (Image.height gfi)); lia | exact Hedge].
  - replace (scaled_ystep g * (Image.top gfi + j) + scaled_ystep g)
      with (scaled_ystep g * (Image.top gfi + (j + 1))) by lia.
    split; [|split; [reflexivity | lia]]. split.
    + apply Hmono. lia.
    + etransitivity; [apply (Hmono _ (Image.height gfi)); lia | exact Hedge].
Qed.

(** The loop over the source rows fills the whole output buffer. *)
Lemma rows_show (nd : list Z) :
  Z.of_nat (length nd) = new_width g * new_height g ->
  exists st,
    for_upto 0 (Image.height gfi) (scale_row gfi g)
      (new_top g, scaled_ystep g * Image.top gfi, nd) = Ok st
    /\ length st.2 = length nd
    /\ forall Y X, 0 <= Y < new_height g -> 0 <= X < new_width g ->
                   shows gfi g st.2 Y X.
Proof.
  intros Hlen.
  pose proof (geo_top _ _ Hgeo) as Htop.
  pose proof (geo_bottom _ _ Hgeo) as Hbottom.
  pose proof (geo_height _ _ Hgeo) as [Hnh _].
  destruct (for_upto_invariant
    (fun j (st : Z * Z * list Z) =>
       let '(ny, sy, cur) := st in
       (j < Image.height gfi ->
        sy = scaled_ystep g * (Image.top gfi + j)
        /\ UNSCALE_NOROUND sy <= ny <= UNSCALE sy)
       /\ (j = Image.height gfi -> ny = new_bottom g)
       /\ new_top g <= ny <= new_bottom g
       /\ length cur = length nd
       /\ forall Y X, 0 <= Y < ny - new_top g -> 0 <= X < new_width g ->
                      shows gfi g cur Y X)
    (scale_row gfi g) 0 (Image.height gfi)
    (new_top g, scaled_ystep g * Image.top gfi, nd))
    as ([[ny sy] cur] & Hrun & _ & Hend & _ & Hl & Hfill).
  - lia.
  - split; [|split; [lia|]; split; [lia|]; split; [reflexivity | intros; lia]].
    intros _. rewrite Z.add_0_r. split; [reflexivity|].
    rewrite Htop. split; [apply UNSCALE_NOROUND_le | lia].
  - intros j [[ny sy] cur] Hj (Hsy & _ & Hny & Hl & Hfill).
    destruct Hsy as (-> & Hfloor & Hround); [lia|].
    pose proof (row_edge j ltac:(lia)) as Hedge. cbv zeta in Hedge.
    destruct (load_in_range (Image.rows gfi) j) as [in_line Hline].
    { rewrite (raw_rows _ Hraw). lia. }
    destruct scan_ranges as (Hnl0 & _ & Hnt0 & Hnb1 & Hcells & Hxs & Hys).
    pose proof (Hys j ltac:(lia)) as Hthis.
    pose proof (Hys (j + 1) ltac:(lia)) as Hnext.
    pose proof (Hys (Image.height gfi) ltac:(lia)) as Hlasty.
    pose proof (geo_bottom_edge _ _ Hgeo) as Hbedge.
    pose proof (geo_width _ _ Hgeo) as [Hnw _].
    assert (Hroom : ny + 1 <= 2097151).
    { destruct Hfits as (_ & _ & _ & _ & [Hlt|Hstep] & _).
      - rewrite UNSCALE_NOROUND_INT_MAX in Hlt. lia.
      - assert (UNSCALE (scaled_ystep g * (Image.top gfi + j)) + 1
                <= UNSCALE (scaled_ystep g * (Image.top gfi + Image.height gfi))).
        { rewrite !UNSCALE_div.
          rewrite <- (Z.div_add _ 1 1024) by lia.
          apply Z.div_le_mono; [lia | nia]. }
        lia. }
    unfold scale_row. rewrite Hline. run_bind.
    apply load_Ok in Hline as [_ Hline].
    rewrite (int_Ok (scaled_ystep g * (Image.top gfi + j) + scaled_ystep g))
      by (unfold INT_MIN; lia).
    run_bind.
    rewrite (SCALE_int_Ok (new_bottom g))
      by (rewrite UNSCALE_NOROUND_INT_MAX; lia).
    rewrite if_Ok. run_bind.
    set (sy' := if j =? Image.height gfi - 1 then SCALE (new_bottom g)
                else scaled_ystep g * (Image.top gfi + j) + scaled_ystep g)
      in *.
    assert (Hsy' : 0 <= sy' /\ sy' + 512 <= INT_MAX).
    { subst sy'. destruct (j =? Image.height gfi - 1);
        [rewrite SCALE_mul; unfold INT_MAX | ]; lia. }
    destruct Hedge as ([Hlo Hhi] & Hmid & Hlast).
    rewrite (int_Ok (ny + 1)) by (unfold INT_MIN, INT_MAX; lia).
    run_bind.
    rewrite (SCALE_int_Ok (ny + 1)) by (rewrite UNSCALE_NOROUND_INT_MAX; lia).
    run_bind.
    destruct (Z.ltb_spec sy' (SCALE (ny + 1))) as [Hskip|Hrow].
    + eexists. split; [reflexivity|].
      split; [|split; [|split; [lia|]; split; assumption]].
      * intros Hlt. split; [apply Hmid; lia|].
        split; [by apply below_SCALE | lia].
      * intros Heq. rewrite Hlast in Hskip by lia.
        rewrite !SCALE_mul in Hskip. lia.
    + assert (Hup : ny + 1 <= UNSCALE sy').
      { rewrite <- (UNSCALE_whole (ny + 1)). apply UNSCALE_mono.
        rewrite SCALE_mul in Hrow. lia. }
      rewrite (SCALE_int_Ok ny) by (rewrite UNSCALE_NOROUND_INT_MAX; lia).
      run_bind.
      rewrite (int_Ok (sy' - SCALE ny))
        by (rewrite SCALE_mul; unfold INT_MIN, INT_MAX in *; lia).
      run_bind.
      rewrite (UNSCALE_int_Ok (sy' - SCALE ny))
        by (rewrite SCALE_mul; unfold INT_MIN, INT_MAX in *; lia).
      run_bind.
      rewrite UNSCALE_sub_SCALE.
      pose proof (Hxs 0 ltac:(lia)) as Hx0. rewrite Z.add_0_r in Hx0.
      rewrite (int_Ok (scaled_xstep g * Image.left gfi))
        by (unfold INT_MIN; lia).
      run_bind.
      rewrite (int_Ok (ny - new_top g)) by (unfold INT_MIN, INT_MAX; lia).
      run_bind.
      rewrite (int_Ok ((ny - new_top g) * new_width g))
        by (unfold INT_MIN; nia).
      run_bind.
      rewrite (int_Ok (new_left g - new_left g))
        by (unfold INT_MIN, INT_MAX; lia).
      run_bind.
      rewrite (int_Ok ((ny - new_top g) * new_width g
                       + (new_left g - new_left g)))
        by (unfold INT_MIN; nia).
      run_bind.
      destruct (columns_show in_line j (UNSCALE sy' - ny) (ny - new_top g) cur)
        as ([[[nx sx] out] cur'] & Hcols & Hl' & Hnew & Hkeep);
        try assumption; try lia.
      { intros k Hk. split; [lia|]. intros Hlt.
        rewrite <- Z.add_assoc, <- (Hmid Hlt). lia. }
      rewrite Hcols. run_bind. simpl in Hl', Hnew, Hkeep.
      rewrite (int_Ok (ny + (UNSCALE sy' - ny)))
        by (unfold INT_MIN, INT_MAX; lia).
      run_bind.
      eexists. split; [reflexivity|].
      replace (ny + (UNSCALE sy' - ny)) with (UNSCALE sy') by lia.
      split; [|split; [|split; [lia|]; split; [lia|]]].
      * intros Hlt. split; [apply Hmid; lia|].
        split; [apply UNSCALE_NOROUND_le | lia].
      * intros Heq. rewrite Hlast by lia. by rewrite SCALE_mul, UNSCALE_whole.
      * intros Y X HY HX.
        destruct (Z.lt_ge_cases Y (ny - new_top g)) as [Hold|Hnow].
        -- apply Hkeep; [assumption|]. apply Hfill; lia.
        -- replace Y with (ny - new_top g + (Y - (ny - new_top g))) by lia.
           apply Hnew; lia.
  - exists (ny, sy, cur). split; [exact Hrun|]. simpl. split; [assumption|].
    intros Y X HY HX. apply Hfill; [|assumption].
    rewrite Hend by reflexivity. lia.
Qed.

End ScanCoverage.

Section ScaleProperties.

Import FlipRotate Scale.

Variable uninit : nat -> Z.
Variable Gif_UncompressImage : Gif_Image -> Gif_Image.
Variable Gif_FullCompressImage : Gif_Stream -> Gif_Image -> Gif_Image.

(** The frame that scale_image returns, and what its buffer shows. *)
Lemma scale_image_scanned (gfs : Gif_Stream) (gfi : Gif_Image)
    (xfactor yfactor : float) (g : geometry) :
  raw_frame gfi ->
  1 <= Image.width gfi -> 1 <= Image.height gfi ->
  scale_geometry gfi xfactor yfactor = Ok g ->
  0 <= scaled_xstep g -> 0 <= scaled_ystep g ->
  scan_fits_int gfi g ->
  exists gfi',
    scale_image uninit Gif_UncompressImage Gif_FullCompressImage gfs gfi
      xfactor yfactor = Ok gfi'
    /\ raw_frame gfi'
    /\ Image.left gfi' = new_left g /\ Image.top gfi' = new_top g
    /\ Image.width gfi' = new_width g /\ Image.height gfi' = new_height g
    /\ forall Y X,
         0 <= Y < new_height g -> 0 <= X < new_width g ->
         exists j i v,
           0 <= j < Image.height gfi /\ 0 <= i < Image.width gfi
           /\ Image.getpixel gfi' Y X = Ok v
           /\ Image.getpixel gfi j i = Ok v
           /\ row_of gfi g j (new_top g + Y)
           /\ column_of gfi g i (new_left g + X).
Proof.
  intros Hraw Hw Hh Hg Hxs Hys Hfits.
  pose proof (scale_geometry_edges gfi xfactor yfactor g Hg) as Hgeo.
  destruct (raw_table _ Hraw) as [table Htable].
  pose proof (geo_width _ _ Hgeo) as Hnw.
  pose proof (geo_height _ _ Hgeo) as Hnh.
  pose proof (geo_x_start _ _ Hgeo) as Hx0.
  pose proof (geo_y_start _ _ Hgeo) as Hy0.
  destruct (rows_show gfi g Hraw Hgeo Hw Hh Hxs Hys Hfits
              (Gif_NewArray uninit (new_width g * new_height g)))
    as ([[ny sy] nd] & Hrun & Hlen & Hcells).
  { rewrite length_Gif_NewArray. nia. }
  simpl in Hlen, Hcells. rewrite length_Gif_NewArray in Hlen.
  unfold scale_image. rewrite Hg. run_bind.
  assert (Hraw_form : bool_decide (Image.img gfi = None) = false).
  { apply bool_decide_eq_false. by rewrite Htable. }
  rewrite Hraw_form.
  rewrite (int_Ok (new_width g * new_height g)).
  2:{ destruct Hfits as (_ & _ & _ & _ & _ & Hcount). unfold INT_MIN. nia. }
  run_bind.
  rewrite !(int_Ok (scaled_ystep g * Image.top gfi))
    by (unfold INT_MAX in *; lia).
  run_bind. rewrite Hrun. run_bind.
  rewrite (int_Ok (scaled_xstep g * Image.left gfi))
    by (unfold INT_MAX in *; lia).
  run_bind.
  rewrite !UNSCALE_int_Ok by (unfold INT_MIN, INT_MAX in *; lia).
  run_bind.
  rewrite <- (geo_left _ _ Hgeo), <- (geo_top _ _ Hgeo).
  eexists. split; [reflexivity|]. split.
  { apply raw_frame_installed; simpl; [lia.. |]. rewrite Hlen. nia. }
  simpl. do 4 (split; [reflexivity|]).
  intros Y X HY HX.
  destruct (Hcells Y X HY HX) as (j & i & v & Hj & Hi & Hload & Hpix & Hrow & Hcol).
  exists j, i, v. split; [assumption|]. split; [assumption|].
  split; [|auto]. unfold Image.getpixel at 1. unfold Image.rows. simpl.
  rewrite load_row_table by assumption. run_bind. exact Hload.
Qed.

(** At the factor 1.0 the scaled edges are the edges. *)
Lemma scale_geometry_one (gfi : Gif_Image) :
  edges_fit_int gfi -> 1 <= Image.width gfi -> 1 <= Image.height gfi ->
  scale_geometry gfi 1 1 = Ok (unit_geometry gfi).
Proof.
  intros (Hl & Ht & Hw & Hh) Hw1 Hh1. unfold scale_geometry, unit_geometry.
  rewrite UNSCALE_NOROUND_INT_MAX in Hw, Hh.
  rewrite step_of_one. run_bind.
  rewrite (int_Ok (1024 * Image.left gfi)) by (unfold INT_MIN, INT_MAX; lia).
  run_bind.
  rewrite (UNSCALE_int_Ok (1024 * Image.left gfi))
    by (unfold INT_MIN, INT_MAX; lia).
  run_bind.
  rewrite (int_Ok (1024 * Image.top gfi)) by (unfold INT_MIN, INT_MAX; lia).
  run_bind.
  rewrite (UNSCALE_int_Ok (1024 * Image.top gfi))
    by (unfold INT_MIN, INT_MAX; lia).
  run_bind.
  rewrite (int_Ok (Image.left gfi + Image.width gfi))
    by (unfold INT_MIN, INT_MAX; lia).
  run_bind.
  rewrite (int_Ok (1024 * (Image.left gfi + Image.width gfi)))
    by (unfold INT_MIN, INT_MAX; lia).
  run_bind.
  rewrite (UNSCALE_int_Ok (1024 * (Image.left gfi + Image.width gfi)))
    by (unfold INT_MIN, INT_MAX; lia).
  run_bind.
  rewrite (int_Ok (Image.top gfi + Image.height gfi))
    by (unfold INT_MIN, INT_MAX; lia).
  run_bind.
  rewrite (int_Ok (1024 * (Image.top gfi + Image.height gfi)))
    by (unfold INT_MIN, INT_MAX; lia).
  run_bind.
  rewrite (UNSCALE_int_Ok (1024 * (Image.top gfi + Image.height gfi)))
    by (unfold INT_MIN, INT_MAX; lia).
  run_bind.
  rewrite !UNSCALE_whole, UNSCALE_NOROUND_INT_MAX.
  replace (Image.left gfi + Image.width gfi - Image.left gfi)
    with (Image.width gfi) by lia.
  replace (Image.top gfi + Image.height gfi - Image.top gfi)
    with (Image.height gfi) by lia.
  rewrite !int_Ok by (unfold INT_MIN, INT_MAX; lia).
  run_bind.
  destruct (Z.leb_spec (Image.width gfi) 0); [lia|].
  destruct (Z.leb_spec (Image.height gfi) 0); [lia|].
  run_bind.
  destruct (Z.ltb_spec 2097151 (Image.width gfi)); [lia|].
  destruct (Z.ltb_spec 2097151 (Image.height gfi)); [lia|].
  reflexivity.
Qed.

Lemma UNSCALE_NOROUND_whole (a : Z) : UNSCALE_NOROUND (1024 * a) = a.
Proof. rewrite UNSCALE_NOROUND_div, Z.mul_comm. apply Z.div_mul. lia. Qed.

(** C5, amended. On a raw frame of width and height at least 1, whose
    edges scaled by 1024 fit an [int] and whose pixels are no more than
    INT_MAX, scale_image with both factors 1.0 returns a raw frame with
    the same width, height, left and top, and with the same pixel at every
    position. *)
Theorem scale_image_identity :
  forall (gfs : Gif_Stream) (gfi : Gif_Image),
    raw_frame gfi -> edges_fit_int gfi ->
    1 <= Image.width gfi -> 1 <= Image.height gfi ->
    Image.width gfi * Image.height gfi <= INT_MAX ->
    exists gfi',
      scale_image uninit Gif_UncompressImage Gif_FullCompressImage gfs gfi 1 1
      = Ok gfi'
      /\ raw_frame gfi'
      /\ Image.width gfi' = Image.width gfi
      /\ Image.height gfi' = Image.height gfi
      /\ Image.left gfi' = Image.left gfi
      /\ Image.top gfi' = Image.top gfi
      /\ forall y x,
           0 <= y < Image.height gfi -> 0 <= x < Image.width gfi ->
           Image.getpixel gfi' y x = Image.getpixel gfi y x.
Proof.
  intros gfs gfi Hraw Hedges Hw Hh Hpixels.
  pose proof (scale_geometry_one gfi Hedges Hw Hh) as Hg.
  destruct Hedges as (Hl & Ht & Hr & Hb).
  destruct (scale_image_scanned gfs gfi 1 1 (unit_geometry gfi) Hraw Hw Hh Hg)
    as (gfi' & Hrun & Hraw' & Hl' & Ht' & Hw' & Hh' & Hpix).
  { simpl. lia. }
  { simpl. lia. }
  { unfold scan_fits_int. simpl. auto 10 with zarith. }
  exists gfi'. split; [exact Hrun|]. split; [exact Hraw'|].
  split; [exact Hw'|]. split; [exact Hh'|]. split; [exact Hl'|].
  split; [exact Ht'|].
  intros y x Hy Hx.
  destruct (Hpix y x Hy Hx) as (j & i & v & Hj & Hi & Hv' & Hv & Hrow & Hcol).
  destruct Hrow as [Hrow1 Hrow2]. destruct Hcol as [Hcol1 Hcol2].
  simpl in Hrow1, Hrow2, Hcol1, Hcol2.
  rewrite UNSCALE_NOROUND_whole in Hrow1.
  rewrite UNSCALE_whole in Hrow2, Hcol1, Hcol2.
  assert (j = y) by lia. assert (i = x) by lia. subst j i.
  by rewrite Hv', Hv.
Qed.

End ScaleProperties.

Example scale_image_doubles :
  ex_scale_image (Scale.mkStream [ex_square] 2 2) ex_square 2 2
  = Ok (Image.mkImage (Some [0; 4; 8; 12])
          [1; 1; 2; 2; 1; 1; 2; 2; 3; 3; 4; 4; 3; 3; 4; 4] 4 4 0 0 (-1) None).
Proof. vm_compute. reflexivity. Qed.

Example scale_image_halves :
  ex_scale_image (Scale.mkStream [ex_square] 2 2) ex_square 0.5 0.5
  = Ok (Image.mkImage (Some [0]) [3] 1 1 0 0 (-1) None).
Proof. vm_compute. reflexivity. Qed.

Lemma ex_wide_frame_geometry : edges_fit_int ex_wide_frame.
Proof.
  unfold edges_fit_int.
  change (Scale.UNSCALE_NOROUND INT_MAX) with 2097151. simpl. lia.
Defined.

Lemma scale_image_identity_witness :
  exists gfi',
    ex_scale_image (Scale.mkStream [ex_wide_frame] 100 100) ex_wide_frame 1 1
    = Ok gfi'
    /\ raw_frame gfi'
    /\ Image.width gfi' = 3 /\ Image.height gfi' = 2
    /\ Image.left gfi' = 10 /\ Image.top gfi' = 20
    /\ forall y x,
         0 <= y < 2 -> 0 <= x < 3 ->
         Image.getpixel gfi' y x = Image.getpixel ex_wide_frame y x.
Proof.
  apply (scale_image_identity (fun _ => 0) ex_uncompress ex_compress
           (Scale.mkStream [ex_wide_frame] 100 100) ex_wide_frame
           ex_wide_frame_raw ex_wide_frame_geometry).
  - simpl. lia.
  - simpl. lia.
  - vm_compute. discriminate.
Defined.

(** C5 as stated fails on a frame of width and height 0, which is in raw
    form: scale_image with both factors 1.0 gives it the width 1 and the
    height 1. *)
Lemma scale_image_widens_empty_frame :
  raw_frame ex_empty_frame
  /\ exists gfi',
       ex_scale_image (Scale.mkStream [ex_empty_frame] 100 100) ex_empty_frame 1 1
       = Ok gfi'
       /\ Image.width gfi' = 1 /\ Image.height gfi' = 1
       /\ Image.width gfi' <> Image.width ex_empty_frame
       /\ Image.height gfi' <> Image.height ex_empty_frame.
Proof.
  split.
  - split; simpl; try lia.
    + by eexists.
    + intros [|y] row; discriminate.
  - eexists. split; [vm_compute; reflexivity|]. simpl. repeat split; lia.
Qed.

(** ** Resize *)

Section ResizeProperties.

Import FlipRotate Scale.

Variable uninit : nat -> Z.
Variable Gif_UncompressImage : Gif_Image -> Gif_Image.
Variable Gif_FullCompressImage : Gif_Stream -> Gif_Image -> Gif_Image.

Lemma scale_geometry_half (gfi : Gif_Image) :
  full_screen_100 gfi -> scale_geometry gfi 0.5 0.5 = Ok half_geometry.
Proof.
  intros (Hl & Ht & Hw & Hh). unfold scale_geometry.
  rewrite step_of_half. run_bind.
  rewrite Hl, Ht, Hw, Hh. reflexivity.
Qed.

(** scale_image halves every frame of 100 by 100 at the origin. *)
Lemma scale_image_half (gfs : Gif_Stream) (gfi : Gif_Image) :
  (codec_keeps_geometry Gif_UncompressImage Gif_FullCompressImage) ->
  full_screen_100 gfi ->
  raw_frame (decoded Gif_UncompressImage gfi) ->
  exists gfi',
    scale_image uninit Gif_UncompressImage Gif_FullCompressImage gfs gfi 0.5 0.5
    = Ok gfi'
    /\ Image.width gfi' = 50 /\ Image.height gfi' = 50
    /\ Image.left gfi' = 0 /\ Image.top gfi' = 0.
Proof.
  intros [Hunc Hcomp] Hfull Hraw.
  assert (Hd : full_screen_100 (decoded Gif_UncompressImage gfi)).
  { unfold decoded. destruct (bool_decide (Image.img gfi = None)); [|assumption].
    unfold full_screen_100. destruct (Hunc gfi) as (-> & -> & -> & ->).
    assumption. }
  pose proof (scale_geometry_edges _ _ _ _ (scale_geometry_half _ Hd)) as Hgeo.
  destruct Hd as (Hl & Ht & Hw & Hh).
  destruct (rows_show (decoded Gif_UncompressImage gfi) half_geometry Hraw Hgeo)
    with (nd := Gif_NewArray uninit (50 * 50))
    as ([[ny sy] nd] & Hscan & _).
  { lia. }
  { lia. }
  { simpl. lia. }
  { simpl. lia. }
  { unfold scan_fits_int. rewrite Hl, Ht, UNSCALE_NOROUND_INT_MAX. simpl.
    unfold INT_MAX. lia. }
  { by rewrite length_Gif_NewArray. }
  unfold scale_image. rewrite (scale_geometry_half gfi Hfull).
  run_bind.
  fold (decoded Gif_UncompressImage gfi).
  cbn [half_geometry new_width new_height new_top scaled_xstep scaled_ystep].
  rewrite Ht, Hl. change (512 * 0) with 0.
  change (int (50 * 50)) with (Ok (50 * 50)). change (int 0) with (Ok 0).
  run_bind.
  cbn [half_geometry new_top scaled_ystep] in Hscan. rewrite Ht in Hscan.
  change (512 * 0) with 0 in Hscan. rewrite Hscan.
  run_bind. change (UNSCALE_int 0) with (Ok 0). run_bind.
  destruct (bool_decide (Image.img gfi = None)).
  - eexists. split; [reflexivity|]. simpl.
    match goal with
    | |- context [Gif_FullCompressImage gfs ?f] =>
        destruct (Hcomp gfs f) as (-> & -> & -> & ->)
    end.
    simpl. repeat split; reflexivity.
  - eexists. split; [reflexivity|]. simpl. repeat split; reflexivity.
Qed.

(** A screen that bounds its frames is what Gif_CalculateScreenSize
    returns. *)
Lemma Gif_CalculateScreenSize_full (gfs : Gif_Stream) (gfi : Gif_Image) :
  screen_width gfs = 100 -> screen_height gfs = 100 ->
  images gfs = [gfi] -> full_screen_100 gfi ->
  Gif_CalculateScreenSize gfs = gfs.
Proof.
  intros Hsw Hsh Himg (Hl & Ht & Hw & Hh). unfold Gif_CalculateScreenSize.
  rewrite Himg. simpl. rewrite Hl, Ht, Hw, Hh, Hsw, Hsh.
  destruct gfs. simpl in *. by subst.
Qed.

(** With the width 50 and no height, on a screen of 100 by 100,
    resize_stream settles on the factors 0.5 and 0.5 and the size 50 by
    50. *)
Lemma resize_plan_half (gfs : Gif_Stream) (new_height : Z) :
  screen_width gfs = 100 -> screen_height gfs = 100 ->
  new_height <= 0 ->
  resize_plan gfs 50 new_height false = Ok (Some (0.5%float, 0.5%float, 50, 50)).
Proof.
  intros Hsw Hsh Hunset. unfold resize_plan. rewrite Hsw, Hsh.
  change (50 <=? 0) with false. cbn [andb].
  destruct (Z.leb_spec new_height 0); [|lia].
  change (int_to_double 50 / int_to_double 100)%float with 0.5%float.
  change (double_to_int (int_to_double 100 * 0.5 + 0.5)%float) with (Ok 50).
  reflexivity.
Qed.

(** C8. On a stream with a screen of 100 by 100 and one frame of 100 by
    100 at the origin, resize_stream with the width 50, no height and no
    fit settles on the factors 0.5 and 0.5, and returns the stream with
    its frame 50 by 50 at the origin and its screen 50 by 50. *)
Theorem resize_stream_halves :
  forall (gfs : Gif_Stream) (gfi : Gif_Image) (new_height : Z),
    (codec_keeps_geometry Gif_UncompressImage Gif_FullCompressImage) ->
    screen_width gfs = 100 -> screen_height gfs = 100 ->
    images gfs = [gfi] ->
    full_screen_100 gfi ->
    raw_frame (decoded Gif_UncompressImage gfi) ->
    new_height <= 0 ->
    resize_plan (Gif_CalculateScreenSize gfs) 50 new_height false
    = Ok (Some (0.5%float, 0.5%float, 50, 50))
    /\ exists gfi',
         resize_stream uninit Gif_UncompressImage Gif_FullCompressImage
           gfs 50 new_height false
         = Ok (mkStream [gfi'] 50 50)
         /\ Image.width gfi' = 50 /\ Image.height gfi' = 50
         /\ Image.left gfi' = 0 /\ Image.top gfi' = 0.
Proof.
  intros gfs gfi new_height Hcodec Hsw Hsh Himg Hfull Hraw Hunset.
  rewrite (Gif_CalculateScreenSize_full gfs gfi Hsw Hsh Himg Hfull).
  pose proof (resize_plan_half gfs new_height Hsw Hsh Hunset) as Hplan.
  split; [exact Hplan|].
  destruct (scale_image_half gfs gfi Hcodec Hfull Hraw) as (gfi' & Hscale & Hgeo).
  exists gfi'. split; [|exact Hgeo].
  unfold resize_stream.
  rewrite (Gif_CalculateScreenSize_full gfs gfi Hsw Hsh Himg Hfull), Hplan.
  run_bind.
  unfold for_upto, nimages. rewrite Himg.
  change (Z.to_nat (Z.of_nat (length [gfi]) - 0)) with 1%nat.
  cbn [for_loop]. rewrite Himg.
  change (load [gfi] 0) with (Ok gfi).
  run_bind. rewrite Hscale.
  run_bind.
  change (store [gfi] 0 gfi') with (Ok [gfi']).
  reflexivity.
Qed.

End ResizeProperties.

Lemma ex_codec_keeps_geometry : codec_keeps_geometry ex_uncompress ex_compress.
Proof. split; intros; simpl; repeat split; reflexivity. Defined.

Lemma ex_compressed_100_decodes :
  raw_frame (decoded ex_uncompress ex_compressed_100).
Proof.
  apply raw_frame_installed; simpl; lia.
Defined.

Lemma resize_stream_halves_witness :
  Scale.resize_plan
    (Scale.Gif_CalculateScreenSize (Scale.mkStream [ex_compressed_100] 100 100))
    50 0 false
  = Ok (Some (0.5%float, 0.5%float, 50, 50))
  /\ exists gfi',
       Scale.resize_stream (fun _ => 0) ex_uncompress ex_compress
         (Scale.mkStream [ex_compressed_100] 100 100) 50 0 false
       = Ok (Scale.mkStream [gfi'] 50 50)
       /\ Image.width gfi' = 50 /\ Image.height gfi' = 50
       /\ Image.left gfi' = 0 /\ Image.top gfi' = 0.
Proof.
  apply (resize_stream_halves (fun _ => 0) ex_uncompress ex_compress
           (Scale.mkStream [ex_compressed_100] 100 100) ex_compressed_100 0
           ex_codec_keeps_geometry eq_refl eq_refl eq_refl).
  - repeat split; reflexivity.
  - exact ex_compressed_100_decodes.
  - lia.
Defined.

(** * Further properties *)

(** ** The pipeline, applied *)

Section ApplyProperties.

Implicit Types (call : color_transform_func -> thunk -> Gif_Colormap -> World ->
                       result (World * Gif_Colormap)).

(** Two loops whose bodies agree on the range agree. *)
Lemma for_loop_ext {S : Type} (body1 body2 : Z -> S -> result S)
    (n : nat) (i : Z) (s : S) :
  (forall k t, i <= k < i + Z.of_nat n -> body1 k t = body2 k t) ->
  for_loop n i body1 s = for_loop n i body2 s.
Proof.
  revert i s. induction n as [|n IH]; intros i s Hext; [reflexivity|].
  simpl. rewrite Hext by lia. destruct (body2 i s) as [t| | |]; try reflexivity.
  simpl. apply IH. intros k u Hk. apply Hext. lia.
Qed.

Lemma result_bind_assoc {A B C : Type} (m : result A) (f : A -> result B)
    (g : B -> result C) :
  (m ≫= f) ≫= g = m ≫= (fun a => f a ≫= g).
Proof. by destruct m. Qed.

Lemma apply_color_transforms_cat call l1 l2 gfs st :
  apply_color_transforms call (l1 ++ l2) gfs st
  = st' ← apply_color_transforms call l1 gfs st;
    apply_color_transforms call l2 gfs st'.
Proof.
  revert st. induction l1 as [|xform next IH]; intros st; [reflexivity|].
  simpl. destruct (apply_node call gfs xform st) as [st'| | |]; try reflexivity.
  simpl. apply IH.
Qed.

(** X1. What apply_color_transforms does for two lists joined is what it
    does for the first and then, from there, for the second; it returns
    for the whole only when it returns for both. For a list
    extended by append_color_transform, it is the run of the old list
    followed by the new node, on the global colormap and then on the local
    ones. *)
Theorem apply_color_transforms_composes :
  forall call (l1 l2 : list Gt_ColorTransform) (gfs : Gif_Colormaps)
         (st : World * list Gif_Colormap) (f : color_transform_func) (d : thunk),
    apply_color_transforms call (l1 ++ l2) gfs st
    = (st' ← apply_color_transforms call l1 gfs st;
       apply_color_transforms call l2 gfs st')
    /\ (forall st'',
          apply_color_transforms call (l1 ++ l2) gfs st = Ok st'' ->
          exists st',
            apply_color_transforms call l1 gfs st = Ok st'
            /\ apply_color_transforms call l2 gfs st' = Ok st'')
    /\ apply_color_transforms call (append_color_transform l1 f d) gfs st
       = (st' ← apply_color_transforms call l1 gfs st;
          apply_node call gfs (mkTransform f d) st').
Proof.
  intros call l1 l2 gfs st f d. split; [apply apply_color_transforms_cat|]. split.
  - intros st''. rewrite apply_color_transforms_cat.
    destruct (apply_color_transforms call l1 gfs st) as [st'| | |];
      try discriminate.
    simpl. eauto.
  - rewrite append_color_transform_app, apply_color_transforms_cat.
    destruct (apply_color_transforms call l1 gfs st) as [st'| | |];
      try reflexivity.
    simpl. by destruct (apply_node call gfs (mkTransform f d) st').
Qed.

Lemma apply_node_ext call call' gfs xform st :
  (forall gfcm w, call (func xform) (data xform) gfcm w
                  = call' (func xform) (data xform) gfcm w) ->
  apply_node call gfs xform st = apply_node call' gfs xform st.
Proof.
  intros Hext.
  assert (Hat : forall p st, transform_at call xform p st
                             = transform_at call' xform p st).
  { intros p [w cms]. unfold transform_at.
    destruct (load cms p) as [gfcm| | |]; try reflexivity. simpl.
    by rewrite Hext. }
  unfold apply_node. destruct (global gfs) as [p|].
  - rewrite Hat. destruct (transform_at call' xform p st) as [st'| | |];
      try reflexivity.
    simpl. unfold for_upto. apply for_loop_ext. intros k t _.
    destruct (load (locals gfs) k) as [[q|]| | |]; try reflexivity. simpl.
    apply Hat.
  - simpl. unfold for_upto. apply for_loop_ext. intros k t _.
    destruct (load (locals gfs) k) as [[q|]| | |]; try reflexivity. simpl.
    apply Hat.
Qed.

(** X2. After delete_color_transforms has removed the nodes of a function,
    apply_color_transforms never calls that function: its result is the
    same whatever the function does. *)
Theorem apply_never_calls_deleted :
  forall call call' (f0 : color_transform_func) (lst : list Gt_ColorTransform)
         (gfs : Gif_Colormaps) (st : World * list Gif_Colormap),
    (forall f d gfcm w, f <> f0 -> call f d gfcm w = call' f d gfcm w) ->
    apply_color_transforms call (delete_color_transforms lst f0) gfs st
    = apply_color_transforms call' (delete_color_transforms lst f0) gfs st.
Proof.
  intros call call' f0 lst gfs st Hext.
  unfold delete_color_transforms. rewrite delete_loop_filter. simpl.
  revert st. induction lst as [|xform next IH]; intros st; [reflexivity|].
  destruct (decide (func xform <> f0)) as [Hne|Heq].
  - rewrite filter_cons_True by assumption. simpl.
    rewrite (apply_node_ext call call') by (intros; by apply Hext).
    destruct (apply_node call' gfs xform st) as [st'| | |]; try reflexivity.
    simpl. apply IH.
  - rewrite filter_cons_False by assumption. apply IH.
Qed.

Lemma apply_never_calls_deleted_witness :
  apply_color_transforms
    (call_xform (fun _ _ _ => ex_env_failed)
       (fun addr _ gfcm w => if addr =? 7 then Undef else Ok (w, gfcm)))
    (delete_color_transforms
       [mkTransform (fn_extern 7) ThunkNull;
        mkTransform fn_color_change_transformer
          (ThunkChanges (mkChange ex_red ex_blue) [])]
       (fn_extern 7))
    (mkColormaps [ex_colormap] (Some 0) [None]) (ex_world, [ex_colormap])
  = apply_color_transforms
      (call_xform (fun _ _ _ => ex_env_failed)
         (fun _ _ gfcm w => Ok (w, gfcm)))
      (delete_color_transforms
         [mkTransform (fn_extern 7) ThunkNull;
          mkTransform fn_color_change_transformer
            (ThunkChanges (mkChange ex_red ex_blue) [])]
         (fn_extern 7))
      (mkColormaps [ex_colormap] (Some 0) [None]) (ex_world, [ex_colormap]).
Proof.
  apply apply_never_calls_deleted.
  intros [| |addr] d gfcm w Hne; try reflexivity.
  simpl. destruct (Z.eqb_spec addr 7) as [->|]; [done | reflexivity].
Defined.

Lemma iter_keeps {A : Type} (P : A -> Prop) (g : A -> A) (n : nat) (a : A) :
  (forall x, P x -> P (g x)) -> P a -> P (Nat.iter n g a).
Proof. intros Hg Ha. induction n as [|n IH]; simpl; auto. Qed.

(** One call on the colormap [p] of a transform that only changes the
    colormap. *)
Lemma transform_at_pure call xform P g (p : Z) (w : World)
    (cur : list Gif_Colormap) (base : list Gif_Colormap) (count : nat -> nat) :
  pure_call call xform P g ->
  Forall P base ->
  0 <= p < Z.of_nat (length cur) ->
  length cur = length base ->
  (forall (q : nat) cm, base !! q = Some cm ->
     cur !! q = Some (Nat.iter (count q) g cm)) ->
  exists cur',
    transform_at call xform p (w, cur) = Ok (w, cur')
    /\ length cur' = length base
    /\ forall (q : nat) cm, base !! q = Some cm ->
         cur' !! q = Some (Nat.iter (count q + if decide (Z.of_nat q = p) then 1 else 0)
                             g cm).
Proof.
  intros Hpure Hbase Hp Hlen Hcur.
  destruct (lookup_lt_is_Some_2 base (Z.to_nat p)) as [cm0 Hcm0]; [lia|].
  pose proof (Hcur _ _ Hcm0) as Hcur0.
  assert (HP : P (Nat.iter (count (Z.to_nat p)) g cm0)).
  { apply iter_keeps; [intros x Hx; by destruct (Hpure x w Hx)|].
    rewrite Forall_forall in Hbase. apply Hbase.
    by eapply list_elem_of_lookup_2. }
  unfold transform_at.
  assert (Hload : load cur p = Ok (Nat.iter (count (Z.to_nat p)) g cm0))
    by (apply load_Ok; split; [lia | assumption]).
  rewrite Hload. run_bind. rewrite (proj1 (Hpure _ w HP)). run_bind.
  rewrite store_Ok by lia. run_bind.
  eexists. split; [reflexivity|]. split; [by rewrite length_insert|].
  intros q cm Hcm. destruct (decide (Z.of_nat q = p)) as [E|E].
  - assert (q = Z.to_nat p) as -> by lia.
    rewrite Hcm0 in Hcm. injection Hcm as <-.
    rewrite list_lookup_insert_eq by lia. by rewrite Nat.add_1_r.
  - rewrite list_lookup_insert_ne by lia. rewrite Nat.add_0_r. by apply Hcur.
Qed.

Lemma references_snoc (ps : list Z) (p q : Z) :
  length (filter (fun r => r = q) (ps ++ [p]))
  = (length (filter (fun r => r = q) ps) + if decide (q = p) then 1 else 0)%nat.
Proof.
  rewrite filter_app, length_app. f_equal.
  destruct (decide (q = p)) as [->|E].
  - by rewrite filter_cons_True.
  - rewrite filter_cons_False; [reflexivity | congruence].
Qed.

Lemma count_absent (ps : list Z) (q : Z) :
  q ∉ ps -> length (filter (fun p => p = q) ps) = O.
Proof.
  induction ps as [|p ps IH]; [reflexivity|].
  intros H. apply not_elem_of_cons in H as [Hne Hq].
  rewrite filter_cons_False by congruence. by apply IH.
Qed.

Lemma count_once (ps : list Z) (q : Z) :
  NoDup ps -> q ∈ ps -> length (filter (fun p => p = q) ps) = 1%nat.
Proof.
  induction 1 as [|p ps Hp _ IH]; intros Hq; [by inversion Hq|].
  destruct (decide (p = q)) as [->|Hne].
  - rewrite filter_cons_True by reflexivity. simpl. by rewrite count_absent.
  - rewrite filter_cons_False by assumption. apply IH.
    apply elem_of_cons in Hq as [Hq|Hq]; [congruence | assumption].
Qed.

(** One pass over a node changes every colormap once for each pointer to
    it. *)
Lemma apply_node_iterates call (gfs : Gif_Colormaps) (xform : Gt_ColorTransform)
    (P : Gif_Colormap -> Prop) (g : Gif_Colormap -> Gif_Colormap)
    (w : World) (cms : list Gif_Colormap) :
  pure_call call xform P g ->
  Forall P cms ->
  Forall (fun p => 0 <= p < Z.of_nat (length cms)) (visited gfs) ->
  exists cms',
    apply_node call gfs xform (w, cms) = Ok (w, cms')
    /\ length cms' = length cms
    /\ forall (q : nat) cm, cms !! q = Some cm ->
         cms' !! q = Some (Nat.iter (references gfs (Z.of_nat q)) g cm).
Proof.
  intros Hpure HP Hvalid.
  set (first := match global gfs with Some p => [p] | None => [] end).
  assert (Hfirst : exists cur,
    match global gfs with
    | Some p => transform_at call xform p (w, cms)
    | None => Ok (w, cms)
    end = Ok (w, cur)
    /\ length cur = length cms
    /\ forall (q : nat) cm, cms !! q = Some cm ->
         cur !! q = Some (Nat.iter (length (filter (fun r => r = Z.of_nat q) first))
                            g cm)).
  { subst first. destruct (global gfs) as [p|] eqn:Hg.
    - destruct (transform_at_pure call xform P g p w cms cms (fun _ => O) Hpure HP)
        as (cur & Hrun & Hlen & Hcur); [|reflexivity|by intros|].
      { unfold visited in Hvalid. rewrite Hg in Hvalid.
        by apply Forall_app in Hvalid as [[? _]%Forall_cons _]. }
      exists cur. split; [assumption|]. split; [assumption|].
      intros q cm Hcm. rewrite (Hcur q cm Hcm). simpl.
      destruct (decide (Z.of_nat q = p)) as [<-|E].
      + by rewrite filter_cons_True.
      + rewrite filter_cons_False; [reflexivity | congruence].
    - exists cms. split; [reflexivity|]. split; [reflexivity|]. by intros. }
  destruct Hfirst as (cur0 & Hrun0 & Hlen0 & Hcur0).
  unfold apply_node. rewrite Hrun0. run_bind.
  destruct (for_upto_invariant
    (fun k (st : World * list Gif_Colormap) =>
       exists cur,
         st = (w, cur) /\ length cur = length cms
         /\ forall (q : nat) cm, cms !! q = Some cm ->
              cur !! q = Some (Nat.iter
                (length (filter (fun r => r = Z.of_nat q)
                           (first ++ omap id (take (Z.to_nat k) (locals gfs)))))
                g cm))
    (fun i st =>
       local ← load (locals gfs) i;
       match local with
       | Some p => transform_at call xform p st
       | None => Ok st
       end)
    0 (Z.of_nat (length (locals gfs))) (w, cur0))
    as (st & Hrun & cur & -> & Hlen & Hcur).
  - lia.
  - exists cur0. split; [reflexivity|]. split; [assumption|].
    intros q cm Hcm. simpl. rewrite app_nil_r. by apply Hcur0.
  - intros k st Hk (cur & -> & Hlen & Hcur).
    destruct (lookup_lt_is_Some_2 (locals gfs) (Z.to_nat k)) as [local Hlocal];
      [lia|].
    assert (Hload : load (locals gfs) k = Ok local)
      by (apply load_Ok; split; [lia | assumption]).
    rewrite Hload. run_bind.
    replace (Z.to_nat (k + 1)) with (Datatypes.S (Z.to_nat k)) by lia.
    rewrite (take_S_r _ _ _ Hlocal), omap_app.
    destruct local as [p|].
    + destruct (transform_at_pure call xform P g p w cur cms
                  (fun q => length (filter (fun r => r = Z.of_nat q)
                     (first ++ omap id (take (Z.to_nat k) (locals gfs)))))
                  Hpure HP) as (cur' & Hrun' & Hlen' & Hcur'); [|assumption..|].
      { rewrite Hlen. unfold visited in Hvalid.
        apply Forall_app in Hvalid as [_ Hvalid].
        rewrite Forall_forall in Hvalid. apply Hvalid.
        apply list_elem_of_omap. exists (Some p). split; [|reflexivity].
        by eapply list_elem_of_lookup_2. }
      exists (w, cur'). split; [assumption|]. exists cur'.
      split; [reflexivity|]. split; [assumption|].
      intros q cm Hcm. rewrite (Hcur' q cm Hcm). simpl.
      by rewrite app_assoc, references_snoc.
    + exists (w, cur). split; [reflexivity|]. exists cur.
      split; [reflexivity|]. split; [assumption|].
      intros q cm Hcm. simpl. rewrite app_nil_r. by apply Hcur.
  - exists cur. rewrite Hrun. split; [reflexivity|]. split; [assumption|].
    intros q cm Hcm. rewrite (Hcur q cm Hcm). unfold references, visited.
    by rewrite Nat2Z.id, firstn_all.
Qed.

(** The recolor transform changes a colormap within its bounds and
    nothing else. *)
Lemma recolor_is_pure pipe_env extern (d : thunk) (changes : list Gt_ColorChange) :
  changes_of_thunk d = Some changes ->
  pure_call (call_xform pipe_env extern)
    (mkTransform fn_color_change_transformer d) colormap_in_bounds
    (recolor_with d).
Proof.
  intros Hd gfcm w Hin. unfold recolor_with. simpl.
  destruct (color_change_transformer_recolored gfcm d changes Hd Hin)
    as (col' & -> & Hlen & _).
  split; [reflexivity|]. unfold colormap_in_bounds in *. simpl. by rewrite Hlen.
Qed.

(** X3. For a list of transforms each of which changes a colormap and
    nothing else, and a stream whose colormap pointers are valid,
    apply_color_transforms returns and leaves the world as it was; node
    after node, it changes every colormap once for each pointer to it:
    not at all when neither the stream nor a frame points to it, once when
    one does, twice when two frames share it. *)
Theorem apply_once_per_reference :
  forall call (gfs : Gif_Colormaps) (lst : list Gt_ColorTransform)
         (P : Gif_Colormap -> Prop)
         (gs : Gt_ColorTransform -> Gif_Colormap -> Gif_Colormap)
         (w : World) (cms : list Gif_Colormap),
    Forall (fun xform => pure_call call xform P (gs xform)) lst ->
    Forall P cms ->
    Forall (fun p => 0 <= p < Z.of_nat (length cms)) (visited gfs) ->
    exists cms',
      apply_color_transforms call lst gfs (w, cms) = Ok (w, cms')
      /\ length cms' = length cms
      /\ forall (q : nat) cm, cms !! q = Some cm ->
           cms' !! q
           = Some (pipeline_on gs (references gfs (Z.of_nat q)) lst cm).
Proof.
  intros call gfs lst P gs w cms Hpure. revert cms.
  induction Hpure as [|xform next Hx _ IH]; intros cms HP Hvalid.
  - exists cms. simpl. auto.
  - destruct (apply_node_iterates call gfs xform P (gs xform) w cms Hx HP Hvalid)
      as (cms1 & Hrun1 & Hlen1 & Hcms1).
    assert (HP1 : Forall P cms1).
    { apply Forall_lookup. intros q cm1 Hq.
      destruct (lookup_lt_is_Some_2 cms q) as [cm Hcm].
      { rewrite <- Hlen1. by eapply lookup_lt_Some. }
      rewrite (Hcms1 q cm Hcm) in Hq. injection Hq as <-.
      apply iter_keeps; [intros x Hxp; by apply (Hx x w)|].
      by eapply (proj1 (Forall_lookup _ _) HP). }
    destruct (IH cms1 HP1) as (cms' & Hrun & Hlen & Hcms').
    { by rewrite Hlen1. }
    exists cms'. simpl. rewrite Hrun1. run_bind.
    split; [exact Hrun|]. split; [congruence|].
    intros q cm Hcm. by rewrite (Hcms' q _ (Hcms1 q cm Hcm)).
Qed.

Lemma ex_colormaps_in_bounds :
  Forall colormap_in_bounds [ex_colormap; ex_colormap; ex_colormap].
Proof. repeat constructor; unfold colormap_in_bounds; simpl; lia. Defined.

(** A stream of two frames that share one local colormap, with a global
    colormap of its own and a colormap that nothing points to; the first
    node turns red to white, the second white to blue. *)
Lemma apply_once_per_reference_witness :
  exists cms',
    apply_color_transforms
      (call_xform (fun _ _ _ => ex_env_failed) (fun _ _ _ _ => Undef))
      [mkTransform fn_color_change_transformer
         (ThunkChanges (mkChange ex_red ex_white) []);
       mkTransform fn_color_change_transformer
         (ThunkChanges (mkChange ex_white ex_blue) [])]
      (mkColormaps [ex_colormap; ex_colormap; ex_colormap] (Some 0)
         [Some 1; Some 1])
      (ex_world, [ex_colormap; ex_colormap; ex_colormap])
    = Ok (ex_world, cms')
    /\ length cms' = length [ex_colormap; ex_colormap; ex_colormap]
    /\ forall (q : nat) cm,
         [ex_colormap; ex_colormap; ex_colormap] !! q = Some cm ->
         cms' !! q
         = Some (pipeline_on (fun xform => recolor_with (data xform))
                   (references
                      (mkColormaps [ex_colormap; ex_colormap; ex_colormap]
                         (Some 0) [Some 1; Some 1]) (Z.of_nat q))
                   [mkTransform fn_color_change_transformer
                      (ThunkChanges (mkChange ex_red ex_white) []);
                    mkTransform fn_color_change_transformer
                      (ThunkChanges (mkChange ex_white ex_blue) [])]
                   cm).
Proof.
  apply (apply_once_per_reference
           (call_xform (fun _ _ _ => ex_env_failed) (fun _ _ _ _ => Undef))
           _ _ colormap_in_bounds (fun xform => recolor_with (data xform))).
  - constructor; [by eapply recolor_is_pure|].
    constructor; [by eapply recolor_is_pure | constructor].
  - exact ex_colormaps_in_bounds.
  - repeat constructor; simpl; lia.
Defined.

(** The shared colormap is recoloured twice: its red entry ends blue, and
    the red entry of the global colormap ends white. *)
Example apply_node_shared_colormap :
  apply_node (call_xform (fun _ _ _ => ex_env_failed) (fun _ _ _ _ => Undef))
    (mkColormaps [ex_colormap; ex_colormap; ex_colormap] (Some 0)
       [Some 1; Some 1])
    (mkTransform fn_color_change_transformer
       (ThunkChanges (mkChange ex_red ex_white) [mkChange ex_white ex_blue]))
    (ex_world, [ex_colormap; ex_colormap; ex_colormap])
  = Ok (ex_world,
        [mkColormap 2 [ex_white; ex_blue]; mkColormap 2 [ex_blue; ex_blue];
         ex_colormap]).
Proof. reflexivity. Qed.

(** X4. A change registered by append_color_change on an empty pipeline
    and applied to a stream whose colormaps are within their bounds and
    are each pointed to at most once: apply_color_transforms returns, and
    in every colormap of the stream or of a frame each entry with the RGB
    of the old colour is the new colour and each other entry stays; a
    colormap that nothing points to is untouched. *)
Theorem recolor_reaches_every_colormap :
  forall pipe_env extern (gfs : Gif_Colormaps) (w : World)
         (cms : list Gif_Colormap) (oldc newc : Gif_Color),
    haspixel oldc = 0 ->
    Forall colormap_in_bounds cms ->
    Forall (fun p => 0 <= p < Z.of_nat (length cms)) (visited gfs) ->
    NoDup (visited gfs) ->
    exists lst cms',
      append_color_change [] oldc newc = Ok lst
      /\ apply_color_transforms (call_xform pipe_env extern) lst gfs (w, cms)
         = Ok (w, cms')
      /\ forall (q : nat) cm, cms !! q = Some cm ->
           (Z.of_nat q ∈ visited gfs ->
            exists cm',
              cms' !! q = Some cm' /\ ncol cm' = ncol cm
              /\ forall (i : nat) c, col cm !! i = Some c ->
                   Z.of_nat i < ncol cm ->
                   col cm' !! i
                   = Some (if GIF_COLOREQ c oldc then newc else c))
           /\ (Z.of_nat q ∉ visited gfs -> cms' !! q = Some cm).
Proof.
  intros pipe_env extern gfs w cms oldc newc Hold Hin Hvalid Hnodup.
  set (d := ThunkChanges (mkChange oldc newc) []).
  destruct (apply_node_iterates (call_xform pipe_env extern) gfs
              (mkTransform fn_color_change_transformer d)
              colormap_in_bounds (recolor_with d) w cms)
    as (cms' & Hrun & _ & Hcms); [by eapply recolor_is_pure | assumption.. |].
  exists [mkTransform fn_color_change_transformer d], cms'.
  split; [reflexivity|]. split.
  { simpl. rewrite Hrun. reflexivity. }
  intros q cm Hcm. rewrite (Hcms q cm Hcm). unfold references. split.
  - intros Hq.
    assert (Hone : length (filter (fun p => p = Z.of_nat q) (visited gfs)) = 1%nat)
      by (by apply count_once).
    rewrite Hone. simpl. unfold recolor_with.
    assert (Hb : colormap_in_bounds cm).
    { rewrite Forall_forall in Hin. apply Hin. by eapply list_elem_of_lookup_2. }
    destruct (color_change_transformer_recolored cm d [mkChange oldc newc]
                eq_refl Hb) as (col' & -> & _ & Hcol).
    eexists. split; [reflexivity|]. split; [reflexivity|].
    intros i c Hc Hi. simpl. rewrite (Hcol i c Hc).
    destruct (Z.ltb_spec (Z.of_nat i) (ncol cm)); [|lia].
    f_equal. unfold recolored. simpl.
    destruct (GIF_COLOREQ c oldc) eqn:E.
    + rewrite decide_True; [reflexivity|].
      left. simpl. apply GIF_COLOREQ_true in E. tauto.
    + rewrite decide_False; [reflexivity|].
      intros [(_ & Hrgb)|[Hpix _]]; simpl in *; [|done].
      apply GIF_COLOREQ_true in Hrgb. congruence.
  - intros Hq.
    assert (Hnone : length (filter (fun p => p = Z.of_nat q) (visited gfs)) = O)
      by (by apply count_absent).
    by rewrite Hnone.
Qed.

Lemma recolor_reaches_every_colormap_witness :
  exists lst cms',
    append_color_change [] ex_red ex_blue = Ok lst
    /\ apply_color_transforms
         (call_xform (fun _ _ _ => ex_env_failed) (fun _ _ _ _ => Undef))
         lst (mkColormaps [ex_colormap; ex_colormap; ex_colormap] (Some 0)
                [None; Some 2])
         (ex_world, [ex_colormap; ex_colormap; ex_colormap])
       = Ok (ex_world, cms')
    /\ forall (q : nat) cm,
         [ex_colormap; ex_colormap; ex_colormap] !! q = Some cm ->
         (Z.of_nat q ∈ visited (mkColormaps [ex_colormap; ex_colormap; ex_colormap]
                                  (Some 0) [None; Some 2]) ->
          exists cm',
            cms' !! q = Some cm' /\ ncol cm' = ncol cm
            /\ forall (i : nat) c, col cm !! i = Some c ->
                 Z.of_nat i < ncol cm ->
                 col cm' !! i
                 = Some (if GIF_COLOREQ c ex_red then ex_blue else c))
         /\ (Z.of_nat q ∉ visited (mkColormaps [ex_colormap; ex_colormap; ex_colormap]
                                     (Some 0) [None; Some 2]) ->
             cms' !! q = Some cm).
Proof.
  apply recolor_reaches_every_colormap.
  - reflexivity.
  - exact ex_colormaps_in_bounds.
  - repeat constructor; simpl; lia.
  - simpl. apply NoDup_cons. split; [|apply NoDup_singleton].
    intros H. apply list_elem_of_singleton in H. discriminate.
Defined.

End ApplyProperties.

(** ** Crop: the window that stays *)

Section CropWindow.

Import Crop.

(** X5. On a raw frame that the requested rectangle meets, crop_image
    returns 1 and a raw frame over the same pixel bytes: nothing is
    copied. The new frame is the intersection of the rectangle and the
    old frame, placed relative to the anchor of the rectangle, and its
    pixel (j, i) is the pixel of the old frame at the same place of the
    screen. *)
Theorem crop_image_window :
  forall (gfi : Gif_Image) (crop : Gt_Crop) (preserve : bool),
    raw_frame gfi ->
    ~ intersection_empty crop gfi ->
    exists gfi',
      crop_image gfi crop preserve = Ok (gfi', true)
      /\ raw_frame gfi'
      /\ Image.image_data gfi' = Image.image_data gfi
      /\ Image.left gfi' = Z.max (x crop) (Image.left gfi) - left_offset crop
      /\ Image.top gfi' = Z.max (y crop) (Image.top gfi) - top_offset crop
      /\ Image.width gfi'
         = Z.min (x crop + w crop) (Image.left gfi + Image.width gfi)
           - Z.max (x crop) (Image.left gfi)
      /\ Image.height gfi'
         = Z.min (y crop + h crop) (Image.top gfi + Image.height gfi)
           - Z.max (y crop) (Image.top gfi)
      /\ forall j i,
           0 <= j < Image.height gfi' -> 0 <= i < Image.width gfi' ->
           exists v,
             Image.getpixel gfi' j i = Ok v
             /\ Image.getpixel gfi
                  (Z.max (y crop) (Image.top gfi) - Image.top gfi + j)
                  (Z.max (x crop) (Image.left gfi) - Image.left gfi + i)
                = Ok v.
Proof.
  intros gfi crop preserve Hraw Hne.
  destruct (crop_image_overlap gfi crop preserve Hne) as (table & Hrun & Hlen & Htable).
  { rewrite (raw_rows _ Hraw). lia. }
  destruct (combine_crop_intersection fresh_crop crop gfi) as (Hx & Hy & Hw & Hh).
  cbv zeta in *. set (c := combine_crop fresh_crop crop gfi) in *.
  assert (Hpos : 0 < w c /\ 0 < h c).
  { unfold intersection_empty in Hne. lia. }
  destruct Hraw as [Hwd Hht _ Hrows Hbounds Hdisj].
  eexists. split; [exact Hrun|].
  split; [|split; [reflexivity|]; split; [simpl; lia|]; split; [simpl; lia|];
           split; [exact Hw|]; split; [exact Hh|]].
  - split; unfold Image.rows; cbn [Image.img Image.width Image.height
                                     Image.image_data default].
    + lia.
    + lia.
    + by eexists.
    + exact Hlen.
    + intros j row Hj. destruct (Htable j row Hj) as (row0 & Hrow0 & ->).
      destruct (Hbounds _ _ Hrow0). lia.
    + intros j1 j2 r1 r2 Hj H1 H2.
      destruct (Htable j1 r1 H1) as (q1 & Hq1 & ->).
      destruct (Htable j2 r2 H2) as (q2 & Hq2 & ->).
      destruct (Hdisj (Z.to_nat (y c) + j1)%nat (Z.to_nat (y c) + j2)%nat q1 q2);
        [lia | assumption.. | lia | lia].
  - simpl. intros j i Hj Hi. rewrite <- Hx, <- Hy.
    destruct (lookup_lt_is_Some_2 table (Z.to_nat j)) as [row Hrow]; [lia|].
    destruct (Htable _ _ Hrow) as (row0 & Hrow0 & ->).
    destruct (Hbounds _ _ Hrow0) as [Hlo Hhi].
    destruct (load_in_range (Image.image_data gfi) (row0 + x c + i)) as [v Hv];
      [lia|].
    exists v.
    assert (H1 : load table j = Ok (row0 + x c))
      by (apply load_Ok; split; [lia | assumption]).
    assert (H2 : load (Image.rows gfi) (y c + j) = Ok row0).
    { apply load_Ok. split; [lia|].
      replace (Z.to_nat (y c + j)) with (Z.to_nat (y c) + Z.to_nat j)%nat by lia.
      assumption. }
    unfold Image.getpixel. rewrite H2. unfold Image.rows.
    cbn [Image.img Image.image_data default id]. rewrite H1. run_bind.
    rewrite Z.add_assoc. auto.
Qed.

Lemma ex_frame_raw : raw_frame ex_frame.
Proof.
  split; simpl; try lia.
  - by eexists.
  - intros [|[|y]] row; simpl; intros [= <-]; lia.
  - intros [|[|y1]] [|[|y2]] r1 r2 Hne; simpl; intros [= <-] [= <-];
      try lia; done.
Defined.

(** The right column of the frame of two columns. *)
Lemma crop_image_window_witness :
  exists gfi',
    crop_image ex_frame ex_crop_inside false = Ok (gfi', true)
    /\ raw_frame gfi'
    /\ Image.image_data gfi' = Image.image_data ex_frame
    /\ Image.left gfi'
       = Z.max (x ex_crop_inside) (Image.left ex_frame) - left_offset ex_crop_inside
    /\ Image.top gfi'
       = Z.max (y ex_crop_inside) (Image.top ex_frame) - top_offset ex_crop_inside
    /\ Image.width gfi'
       = Z.min (x ex_crop_inside + w ex_crop_inside)
           (Image.left ex_frame + Image.width ex_frame)
         - Z.max (x ex_crop_inside) (Image.left ex_frame)
    /\ Image.height gfi'
       = Z.min (y ex_crop_inside + h ex_crop_inside)
           (Image.top ex_frame + Image.height ex_frame)
         - Z.max (y ex_crop_inside) (Image.top ex_frame)
    /\ forall j i,
         0 <= j < Image.height gfi' -> 0 <= i < Image.width gfi' ->
         exists v,
           Image.getpixel gfi' j i = Ok v
           /\ Image.getpixel ex_frame
                (Z.max (y ex_crop_inside) (Image.top ex_frame)
                 - Image.top ex_frame + j)
                (Z.max (x ex_crop_inside) (Image.left ex_frame)
                 - Image.left ex_frame + i)
              = Ok v.
Proof.
  apply crop_image_window.
  - exact ex_frame_raw.
  - exact ex_crop_inside_overlaps.
Defined.

End CropWindow.

(** ** Flip: the vertical flip, and the two flips together *)

Section FlipTable.

Import FlipRotate.

(** The row loop of a vertical flip reverses the row table. *)
Lemma flip_table_reverse (t : list Z) :
  for_upto 0 (Z.of_nat (length t))
    (fun y table => row ← load t (Z.of_nat (length t) - y - 1); store table y row)
    t
  = Ok (reverse t).
Proof.
  destruct (for_upto_invariant
    (fun k cur =>
       length cur = length t
       /\ forall i : nat,
            cur !! i = if Z.of_nat i <? k then t !! (length t - Datatypes.S i)%nat
                       else t !! i)
    (fun y table => row ← load t (Z.of_nat (length t) - y - 1); store table y row)
    0 (Z.of_nat (length t)) t) as (t' & Hrun & Hlen & Ht').
  - lia.
  - split; [reflexivity|]. intros i.
    destruct (Z.ltb_spec (Z.of_nat i) 0); [lia | reflexivity].
  - intros k cur Hk (Hlen & Hcur).
    destruct (lookup_lt_is_Some_2 t (length t - Datatypes.S (Z.to_nat k))%nat)
      as [row Hrow]; [lia|].
    assert (Hl : load t (Z.of_nat (length t) - k - 1) = Ok row).
    { apply load_Ok. split; [lia|].
      replace (Z.to_nat (Z.of_nat (length t) - k - 1))
        with (length t - Datatypes.S (Z.to_nat k))%nat by lia.
      assumption. }
    rewrite Hl. run_bind. rewrite store_Ok by lia.
    eexists. split; [reflexivity|]. split; [by rewrite length_insert|].
    intros i. destruct (decide (i = Z.to_nat k)) as [->|Hne].
    + rewrite list_lookup_insert_eq by lia.
      destruct (Z.ltb_spec (Z.of_nat (Z.to_nat k)) (k + 1)); [|lia]. by rewrite Hrow.
    + rewrite list_lookup_insert_ne by lia. rewrite Hcur.
      destruct (Z.ltb_spec (Z.of_nat i) k), (Z.ltb_spec (Z.of_nat i) (k + 1));
        try reflexivity; lia.
  - rewrite Hrun. f_equal. apply list_eq. intros i. rewrite Ht'.
    destruct (Z.ltb_spec (Z.of_nat i) (Z.of_nat (length t))).
    + by rewrite reverse_lookup by lia.
    + rewrite !lookup_ge_None_2; [reflexivity | rewrite length_reverse; lia | lia].
Qed.

(** A vertical flip of a raw frame exchanges the rows of the table and
    moves no byte. *)
Lemma flip_image_vertical (gfi : Gif_Image) (screen_width screen_height : Z)
    (table : list Z) :
  raw_frame gfi ->
  Image.img gfi = Some table ->
  flip_image gfi screen_width screen_height true
  = Ok (Image.mkImage (Some (reverse table)) (Image.image_data gfi)
          (Image.width gfi) (Image.height gfi) (Image.left gfi)
          (screen_height - (Image.top gfi + Image.height gfi))
          (Image.transparent gfi) (Image.compressed gfi)).
Proof.
  intros Hraw Himg. pose proof (raw_rows _ Hraw) as Hrows.
  unfold Image.rows in Hrows. rewrite Himg in Hrows. simpl in Hrows.
  unfold flip_image. cbn [negb]. run_bind.
  unfold Image.rows. rewrite Himg. cbn [default id].
  unfold memcpy. rewrite <- Hrows.
  destruct (Z.ltb_spec (Z.of_nat (length table)) 0); [lia|].
  destruct (Z.ltb_spec (Z.of_nat (length table)) (0 + Z.of_nat (length table)));
    [lia|].
  rewrite Nat2Z.id. change (Z.to_nat 0) with 0%nat.
  rewrite drop_0, firstn_all. change (0 <? 0) with false. cbn [orb]. run_bind.
  rewrite flip_table_reverse. run_bind. rewrite Hrows. reflexivity.
Qed.

(** A frame stays raw when the rows of its table are taken in the
    opposite order and its bytes change but not their number. *)
Lemma raw_frame_reverse_table (gfi : Gif_Image) (table mem' : list Z) (l t : Z) :
  raw_frame gfi ->
  Image.img gfi = Some table ->
  length mem' = length (Image.image_data gfi) ->
  raw_frame (Image.mkImage (Some (reverse table)) mem' (Image.width gfi)
               (Image.height gfi) l t (Image.transparent gfi)
               (Image.compressed gfi)).
Proof.
  intros [Hw Hh _ Hrows Hbounds Hdisj] Himg Hlen.
  unfold Image.rows in *. rewrite Himg in *. simpl in *.
  assert (Hrev : forall (y : nat) (row : Z),
            reverse table !! y = Some row ->
            (y < length table)%nat
            /\ table !! (length table - Datatypes.S y)%nat = Some row).
  { intros y row H. assert (y < length table)%nat.
    { apply lookup_lt_Some in H. by rewrite length_reverse in H. }
    split; [assumption|]. by rewrite <- reverse_lookup. }
  split; unfold Image.rows; simpl.
  - exact Hw.
  - exact Hh.
  - by eexists.
  - by rewrite length_reverse.
  - intros y row H. rewrite Hlen. destruct (Hrev y row H) as [_ H']. eauto.
  - intros y1 y2 r1 r2 Hne H1 H2.
    destruct (Hrev y1 r1 H1) as [Hy1 H1']. destruct (Hrev y2 r2 H2) as [Hy2 H2'].
    eapply Hdisj; [|exact H1'|exact H2']. lia.
Qed.

End FlipTable.

Section FlipFurther.

Import FlipRotate.

Lemma load_reverse (t : list Z) (y : Z) :
  0 <= y < Z.of_nat (length t) ->
  load (reverse t) y = load t (Z.of_nat (length t) - 1 - y).
Proof.
  intros Hy. unfold load.
  destruct (Z.ltb_spec y 0); [lia|].
  destruct (Z.ltb_spec (Z.of_nat (length t) - 1 - y) 0); [lia|].
  rewrite reverse_lookup by lia.
  replace (Z.to_nat (Z.of_nat (length t) - 1 - y))
    with (length t - Datatypes.S (Z.to_nat y))%nat by lia.
  reflexivity.
Qed.

(** X6. On a raw frame, flip_image with [is_vert] true returns; it moves
    no pixel byte: it exchanges the rows of the row table, so that the
    pixel (y, x) of the result is the pixel (height - 1 - y, x) of the
    frame, keeps left and sets top to [screen_height - (top + height)];
    applied again with the same screen height it returns the frame it
    started from. *)
Theorem flip_vertical_involution :
  forall (gfi : Gif_Image) (screen_width screen_height : Z),
    raw_frame gfi ->
    exists gfi1,
      flip_image gfi screen_width screen_height true = Ok gfi1
      /\ Image.image_data gfi1 = Image.image_data gfi
      /\ Image.left gfi1 = Image.left gfi
      /\ Image.top gfi1 = screen_height - (Image.top gfi + Image.height gfi)
      /\ (forall y x,
            0 <= y < Image.height gfi -> 0 <= x < Image.width gfi ->
            Image.getpixel gfi1 y x
            = Image.getpixel gfi (Image.height gfi - 1 - y) x)
      /\ flip_image gfi1 screen_width screen_height true = Ok gfi.
Proof.
  intros gfi sw sh Hraw.
  destruct (raw_table _ Hraw) as [table Himg].
  pose proof (raw_rows _ Hraw) as Hrows.
  unfold Image.rows in Hrows. rewrite Himg in Hrows. simpl in Hrows.
  rewrite (flip_image_vertical gfi sw sh table Hraw Himg).
  eexists. split; [reflexivity|].
  split; [reflexivity|]. split; [reflexivity|]. split; [reflexivity|]. split.
  - intros y x Hy Hx. unfold Image.getpixel, Image.rows. rewrite Himg.
    cbn [Image.img Image.image_data default id].
    rewrite load_reverse by lia. by rewrite Hrows.
  - rewrite (flip_image_vertical _ sw sh (reverse table)).
    + rewrite reverse_involutive. destruct gfi. simpl in *. subst.
      do 2 f_equal. lia.
    + by apply raw_frame_reverse_table.
    + reflexivity.
Qed.

Lemma flip_vertical_involution_witness :
  exists gfi1,
    flip_image ex_wide_frame 100 100 true = Ok gfi1
    /\ Image.image_data gfi1 = Image.image_data ex_wide_frame
    /\ Image.left gfi1 = Image.left ex_wide_frame
    /\ Image.top gfi1
       = 100 - (Image.top ex_wide_frame + Image.height ex_wide_frame)
    /\ (forall y x,
          0 <= y < Image.height ex_wide_frame ->
          0 <= x < Image.width ex_wide_frame ->
          Image.getpixel gfi1 y x
          = Image.getpixel ex_wide_frame (Image.height ex_wide_frame - 1 - y) x)
    /\ flip_image gfi1 100 100 true = Ok ex_wide_frame.
Proof. apply flip_vertical_involution. exact ex_wide_frame_raw. Defined.

(** A horizontal flip and then a vertical one: the table is reversed, the
    bytes of each row are mirrored, the others stay. *)
Lemma flip_horizontal_then_vertical (gfi : Gif_Image)
    (screen_width screen_height : Z) (table : list Z) :
  raw_frame gfi ->
  Image.img gfi = Some table ->
  exists mem',
    (g ← flip_image gfi screen_width screen_height false;
     flip_image g screen_width screen_height true)
    = Ok (Image.mkImage (Some (reverse table)) mem' (Image.width gfi)
            (Image.height gfi)
            (screen_width - (Image.left gfi + Image.width gfi))
            (screen_height - (Image.top gfi + Image.height gfi))
            (Image.transparent gfi) (Image.compressed gfi))
    /\ length mem' = length (Image.image_data gfi)
    /\ (forall (y : nat) (row x : Z),
          table !! y = Some row -> 0 <= x < Image.width gfi ->
          load mem' (row + x)
          = load (Image.image_data gfi) (row + (Image.width gfi - 1 - x)))
    /\ (forall k,
          (forall (y : nat) (row : Z), table !! y = Some row ->
             ~ (row <= k < row + Image.width gfi)) ->
          load mem' k = load (Image.image_data gfi) k).
Proof.
  intros Hraw Himg.
  destruct (flip_image_horizontal gfi screen_width screen_height Hraw)
    as (mem' & Hrun & Hlen & Hin & Hout).
  cbv zeta in *. unfold Image.rows in Hin, Hout. rewrite Himg in Hin, Hout.
  simpl in Hin, Hout.
  exists mem'. rewrite Hrun. run_bind.
  rewrite (flip_image_vertical _ screen_width screen_height table).
  - simpl. auto.
  - by apply raw_frame_same_table.
  - exact Himg.
Qed.

(** X7. On a raw frame the two flips commute: a horizontal flip followed
    by a vertical one and a vertical flip followed by a horizontal one
    return the same frame, pixel bytes, row table and offsets; its pixel
    (y, x) is the pixel (height - 1 - y, width - 1 - x) of the frame they
    started from. *)
Theorem flips_commute :
  forall (gfi : Gif_Image) (screen_width screen_height : Z),
    raw_frame gfi ->
    exists g,
      (g1 ← flip_image gfi screen_width screen_height false;
       flip_image g1 screen_width screen_height true) = Ok g
      /\ (g2 ← flip_image gfi screen_width screen_height true;
          flip_image g2 screen_width screen_height false) = Ok g
      /\ forall y x,
           0 <= y < Image.height gfi -> 0 <= x < Image.width gfi ->
           Image.getpixel g y x
           = Image.getpixel gfi (Image.height gfi - 1 - y)
               (Image.width gfi - 1 - x).
Proof.
  intros gfi sw sh Hraw.
  destruct (raw_table _ Hraw) as [table Himg].
  pose proof (raw_rows _ Hraw) as Hrows.
  unfold Image.rows in Hrows. rewrite Himg in Hrows. simpl in Hrows.
  destruct (flip_horizontal_then_vertical gfi sw sh table Hraw Himg)
    as (mem1 & Hrun1 & Hlen1 & Hin1 & Hout1).
  eexists. split; [exact Hrun1|]. split.
  - rewrite (flip_image_vertical gfi sw sh table Hraw Himg). run_bind.
    set (gv := Image.mkImage (Some (reverse table)) _ _ _ _ _ _ _).
    assert (Hrawv : raw_frame gv) by (by apply raw_frame_reverse_table).
    destruct (flip_image_horizontal gv sw sh Hrawv)
      as (mem2 & Hrun2 & Hlen2 & Hin2 & Hout2).
    cbv zeta in *. rewrite Hrun2. simpl. simpl in Hlen2, Hin2, Hout2.
    change (Image.rows gv) with (reverse table) in Hin2, Hout2.
    assert (Hmem : mem2 = mem1).
    { apply load_ext. intros k.
      destruct (decide (Exists (fun row => row <= k < row + Image.width gfi)
                          table)) as [E|E].
      - apply Exists_exists in E as (row & Hrow & Hk).
        apply list_elem_of_lookup in Hrow as [y Hrow].
        assert (Hrow' : exists y', reverse table !! y' = Some row).
        { apply list_elem_of_lookup. apply elem_of_reverse.
          by eapply list_elem_of_lookup_2. }
        destruct Hrow' as [y' Hrow'].
        replace k with (row + (k - row)) by lia.
        rewrite (Hin2 y' row (k - row) Hrow') by lia.
        rewrite (Hin1 y row (k - row) Hrow) by lia. reflexivity.
      - rewrite Hout2, Hout1; [reflexivity | |].
        + intros y row Hrow Hk. apply E. apply Exists_exists. exists row.
          split; [by eapply list_elem_of_lookup_2 | assumption].
        + intros y row Hrow Hk. apply E. apply Exists_exists. exists row.
          split; [|assumption].
          apply elem_of_reverse. by eapply list_elem_of_lookup_2. }
    rewrite Hmem. reflexivity.
  - intros y x Hy Hx. unfold Image.getpixel, Image.rows. rewrite Himg.
    cbn [Image.img Image.image_data default id].
    rewrite load_reverse by lia. rewrite Hrows.
    destruct (load_in_range table (Image.height gfi - 1 - y)) as [row Hrow];
      [lia|].
    rewrite Hrow. run_bind. apply load_Ok in Hrow as [_ Hrow].
    by rewrite (Hin1 _ row x Hrow).
Qed.

Lemma flips_commute_witness :
  exists g,
    (g1 ← flip_image ex_wide_frame 100 100 false; flip_image g1 100 100 true)
    = Ok g
    /\ (g2 ← flip_image ex_wide_frame 100 100 true; flip_image g2 100 100 false)
       = Ok g
    /\ forall y x,
         0 <= y < Image.height ex_wide_frame ->
         0 <= x < Image.width ex_wide_frame ->
         Image.getpixel g y x
         = Image.getpixel ex_wide_frame (Image.height ex_wide_frame - 1 - y)
             (Image.width ex_wide_frame - 1 - x).
Proof. apply flips_commute. exact ex_wide_frame_raw. Defined.

End FlipFurther.

(** ** Rotate: where each pixel goes, and turns one after the other *)

Section RotateCoordinates.

Import FlipRotate.

Variable uninit : nat -> Z.

Lemma by_columns_lookup (xs ys : list Z) (i j : nat) (x y : Z) :
  xs !! i = Some x -> ys !! j = Some y ->
  by_columns xs ys !! (i * length ys + j)%nat = Some (y, x).
Proof.
  unfold by_columns. revert i. induction xs as [|x0 xs IH]; intros i Hx Hy.
  - by rewrite lookup_nil in Hx.
  - pose proof (lookup_lt_Some _ _ _ Hy) as Hj. simpl.
    destruct i as [|i]; simpl in Hx.
    + injection Hx as ->. rewrite lookup_app_l by (by rewrite length_map).
      simpl. rewrite list_lookup_fmap, Hy. reflexivity.
    + rewrite lookup_app_r by (rewrite length_map; lia).
      rewrite length_map.
      replace (Datatypes.S i * length ys + j - length ys)%nat
        with (i * length ys + j)%nat by lia.
      by apply IH.
Qed.

(** The pixel (r, c) of a frame that Gif_SetUncompressedImage installed
    is the byte [r * width + c] of its buffer. *)
Lemma installed_getpixel (gfi : Gif_Image) (new_data : list Z) (r c : Z) :
  0 <= r < Image.height gfi ->
  Image.getpixel (Image.Gif_SetUncompressedImage gfi new_data) r c
  = load new_data (r * Image.width gfi + c).
Proof.
  intros Hr. unfold Image.getpixel. rewrite rows_installed.
  assert (Hl : load ((fun y => Z.of_nat y * Image.width gfi)
                       <$> seq 0 (Z.to_nat (Image.height gfi))) r
               = Ok (r * Image.width gfi)).
  { apply load_Ok. split; [lia|]. rewrite list_lookup_fmap.
    rewrite lookup_seq_lt by lia. simpl. do 2 f_equal. lia. }
  rewrite Hl. reflexivity.
Qed.

(** A quarter turn clockwise: the frame that rotate_image returns, and
    where each of its pixels comes from. *)
Lemma rotate_90_pixels (gfi : Gif_Image) (screen_width screen_height : Z) :
  raw_frame gfi ->
  Image.width gfi * Image.height gfi <= INT_MAX ->
  exists gfi',
    rotate_image uninit gfi screen_width screen_height 1 = Ok gfi'
    /\ raw_frame gfi'
    /\ Image.left gfi' = screen_height - (Image.top gfi + Image.height gfi)
    /\ Image.top gfi' = Image.left gfi
    /\ Image.width gfi' = Image.height gfi
    /\ Image.height gfi' = Image.width gfi
    /\ forall r c,
         0 <= r < Image.width gfi -> 0 <= c < Image.height gfi ->
         exists v,
           Image.getpixel gfi' r c = Ok v
           /\ Image.getpixel gfi (Image.height gfi - 1 - c) r = Ok v.
Proof.
  intros Hraw Hpixels.
  pose proof (raw_width _ Hraw) as Hw. pose proof (raw_height _ Hraw) as Hh.
  destruct (rotate_loops_90 uninit gfi Hraw) as (trav & Hrun). cbv zeta in Hrun.
  unfold rotate_image. rewrite int_Ok by (unfold INT_MIN; nia).
  simpl. rewrite Hrun. simpl.
  eexists. split; [reflexivity|]. split.
  { apply raw_frame_installed; simpl; [lia.. |].
    rewrite length_fmap, length_by_columns, length_reverse, !length_seqZ. nia. }
  simpl. do 4 (split; [reflexivity|]).
  intros r c Hr Hc. rewrite installed_getpixel by (simpl; lia). simpl.
  exists (pix gfi (Image.height gfi - 1 - c, r)).
  split; [|apply raw_frame_getpixel; [assumption | lia | lia]].
  apply load_Ok. split; [nia|]. rewrite list_lookup_fmap.
  replace (Z.to_nat (r * Image.height gfi + c))
    with (Z.to_nat r * length (reverse (seqZ 0 (Image.height gfi)))
          + Z.to_nat c)%nat
    by (rewrite length_reverse, length_seqZ; nia).
  rewrite (by_columns_lookup _ _ _ _ r (Image.height gfi - 1 - c)).
  - reflexivity.
  - rewrite lookup_seqZ_lt by lia. f_equal. lia.
  - rewrite reverse_lookup by (rewrite length_seqZ; lia).
    rewrite length_seqZ. rewrite lookup_seqZ_lt by lia. f_equal. lia.
Qed.

(** A quarter turn counterclockwise. *)
Lemma rotate_270_pixels (gfi : Gif_Image) (screen_width screen_height : Z) :
  raw_frame gfi ->
  Image.width gfi * Image.height gfi <= INT_MAX ->
  exists gfi',
    rotate_image uninit gfi screen_width screen_height 3 = Ok gfi'
    /\ raw_frame gfi'
    /\ Image.left gfi' = Image.top gfi
    /\ Image.top gfi' = screen_width - (Image.left gfi + Image.width gfi)
    /\ Image.width gfi' = Image.height gfi
    /\ Image.height gfi' = Image.width gfi
    /\ forall r c,
         0 <= r < Image.width gfi -> 0 <= c < Image.height gfi ->
         exists v,
           Image.getpixel gfi' r c = Ok v
           /\ Image.getpixel gfi c (Image.width gfi - 1 - r) = Ok v.
Proof.
  intros Hraw Hpixels.
  pose proof (raw_width _ Hraw) as Hw. pose proof (raw_height _ Hraw) as Hh.
  destruct (rotate_loops_270 uninit gfi Hraw) as (trav & Hrun). cbv zeta in Hrun.
  unfold rotate_image. rewrite int_Ok by (unfold INT_MIN; nia).
  simpl. rewrite Hrun. simpl.
  eexists. split; [reflexivity|]. split.
  { apply raw_frame_installed; simpl; [lia.. |].
    rewrite length_fmap, length_by_columns, length_reverse, !length_seqZ. nia. }
  simpl. do 4 (split; [reflexivity|]).
  intros r c Hr Hc. rewrite installed_getpixel by (simpl; lia). simpl.
  exists (pix gfi (c, Image.width gfi - 1 - r)).
  split; [|apply raw_frame_getpixel; [assumption | lia | lia]].
  apply load_Ok. split; [nia|]. rewrite list_lookup_fmap.
  replace (Z.to_nat (r * Image.height gfi + c))
    with (Z.to_nat r * length (seqZ 0 (Image.height gfi)) + Z.to_nat c)%nat
    by (rewrite length_seqZ; nia).
  rewrite (by_columns_lookup _ _ _ _ (Image.width gfi - 1 - r) c).
  - reflexivity.
  - rewrite reverse_lookup by (rewrite length_seqZ; lia).
    rewrite length_seqZ. rewrite lookup_seqZ_lt by lia. f_equal. lia.
  - rewrite lookup_seqZ_lt by lia. f_equal. lia.
Qed.

(** X8. On a raw frame of no more than INT_MAX pixels, a quarter turn and
    then the opposite quarter turn, each called with the dimensions of the
    screen it works on (the first turn exchanges them), return a raw frame
    with the left, top, width and height of the frame they started from
    and the same pixel at every coordinate, whichever turn comes first. *)
Theorem rotate_image_round_trip :
  forall (gfi : Gif_Image) (screen_width screen_height : Z),
    raw_frame gfi ->
    Image.width gfi * Image.height gfi <= INT_MAX ->
    (exists g,
       (g1 ← rotate_image uninit gfi screen_width screen_height 1;
        rotate_image uninit g1 screen_height screen_width 3) = Ok g
       /\ raw_frame g /\ same_picture gfi g)
    /\ (exists g,
          (g1 ← rotate_image uninit gfi screen_width screen_height 3;
           rotate_image uninit g1 screen_height screen_width 1) = Ok g
          /\ raw_frame g /\ same_picture gfi g).
Proof.
  intros gfi sw sh Hraw Hpixels. unfold same_picture. split.
  - destruct (rotate_90_pixels gfi sw sh Hraw Hpixels)
      as (g1 & Hrun1 & Hraw1 & Hl1 & Ht1 & Hw1 & Hh1 & Hpix1).
    destruct (rotate_270_pixels g1 sh sw Hraw1)
      as (g & Hrun2 & Hraw2 & Hl2 & Ht2 & Hw2 & Hh2 & Hpix2);
      [rewrite Hw1, Hh1; lia|].
    exists g. rewrite Hrun1. run_bind. split; [exact Hrun2|].
    split; [exact Hraw2|]. do 4 (split; [lia|]).
    intros y x Hy Hx.
    destruct (Hpix2 y x) as (v & Hv & Hv1); [lia..|].
    destruct (Hpix1 x (Image.height gfi - 1 - y)) as (v' & Hv' & Hv0); [lia..|].
    rewrite Hw1 in Hv1. rewrite Hv1 in Hv'. injection Hv' as <-.
    exists v. split; [assumption|]. rewrite <- Hv0. f_equal. lia.
  - destruct (rotate_270_pixels gfi sw sh Hraw Hpixels)
      as (g1 & Hrun1 & Hraw1 & Hl1 & Ht1 & Hw1 & Hh1 & Hpix1).
    destruct (rotate_90_pixels g1 sh sw Hraw1)
      as (g & Hrun2 & Hraw2 & Hl2 & Ht2 & Hw2 & Hh2 & Hpix2);
      [rewrite Hw1, Hh1; lia|].
    exists g. rewrite Hrun1. run_bind. split; [exact Hrun2|].
    split; [exact Hraw2|]. do 4 (split; [lia|]).
    intros y x Hy Hx.
    destruct (Hpix2 y x) as (v & Hv & Hv1); [lia..|].
    destruct (Hpix1 (Image.width gfi - 1 - x) y) as (v' & Hv' & Hv0); [lia..|].
    rewrite Hh1 in Hv1. rewrite Hv1 in Hv'. injection Hv' as <-.
    exists v. split; [assumption|]. rewrite <- Hv0. f_equal. lia.
Qed.

(** X9. On a raw frame of no more than INT_MAX pixels, two quarter turns
    clockwise, the second on the screen that the first turned, and a
    horizontal flip followed by a vertical one return frames with the same
    left, top, width and height and the same pixel at every coordinate. *)
Theorem rotate_twice_is_flip_both :
  forall (gfi : Gif_Image) (screen_width screen_height : Z),
    raw_frame gfi ->
    Image.width gfi * Image.height gfi <= INT_MAX ->
    exists g f,
      (g1 ← rotate_image uninit gfi screen_width screen_height 1;
       rotate_image uninit g1 screen_height screen_width 1) = Ok g
      /\ (f1 ← flip_image gfi screen_width screen_height false;
          flip_image f1 screen_width screen_height true) = Ok f
      /\ Image.left g = Image.left f /\ Image.top g = Image.top f
      /\ Image.width g = Image.width f /\ Image.height g = Image.height f
      /\ forall y x,
           0 <= y < Image.height f -> 0 <= x < Image.width f ->
           exists v, Image.getpixel g y x = Ok v /\ Image.getpixel f y x = Ok v.
Proof.
  intros gfi sw sh Hraw Hpixels.
  destruct (rotate_90_pixels gfi sw sh Hraw Hpixels)
    as (g1 & Hrun1 & Hraw1 & Hl1 & Ht1 & Hw1 & Hh1 & Hpix1).
  destruct (rotate_90_pixels g1 sh sw Hraw1)
    as (g & Hrun2 & Hraw2 & Hl2 & Ht2 & Hw2 & Hh2 & Hpix2);
    [rewrite Hw1, Hh1; lia|].
  destruct (raw_table _ Hraw) as [table Himg].
  pose proof (raw_rows _ Hraw) as Hrows.
  unfold Image.rows in Hrows. rewrite Himg in Hrows. simpl in Hrows.
  destruct (flip_horizontal_then_vertical gfi sw sh table Hraw Himg)
    as (mem' & Hflip & Hlen & Hin & _).
  exists g. eexists. rewrite Hrun1. run_bind.
  split; [exact Hrun2|]. split; [exact Hflip|]. simpl.
  do 4 (split; [lia|]).
  intros y x Hy Hx.
  destruct (Hpix2 y x) as (v & Hv & Hv1); [lia..|].
  destruct (Hpix1 (Image.width gfi - 1 - x) y) as (v' & Hv' & Hv0); [lia..|].
  rewrite Hh1 in Hv1. rewrite Hv1 in Hv'. injection Hv' as <-.
  exists v. split; [assumption|]. rewrite <- Hv0.
  unfold Image.getpixel, Image.rows. rewrite Himg.
  cbn [Image.img Image.image_data default id].
  rewrite load_reverse by lia. rewrite Hrows.
  destruct (load_in_range table (Image.height gfi - 1 - y)) as [row Hrow]; [lia|].
  rewrite Hrow. run_bind. apply load_Ok in Hrow as [_ Hrow].
  by rewrite (Hin _ row x Hrow).
Qed.

End RotateCoordinates.

Lemma rotate_image_round_trip_witness :
  (exists g,
     (g1 ← FlipRotate.rotate_image (fun _ => 0) ex_wide_frame 100 80 1;
      FlipRotate.rotate_image (fun _ => 0) g1 80 100 3) = Ok g
     /\ raw_frame g /\ same_picture ex_wide_frame g)
  /\ (exists g,
        (g1 ← FlipRotate.rotate_image (fun _ => 0) ex_wide_frame 100 80 3;
         FlipRotate.rotate_image (fun _ => 0) g1 80 100 1) = Ok g
        /\ raw_frame g /\ same_picture ex_wide_frame g).
Proof.
  apply rotate_image_round_trip; [exact ex_wide_frame_raw|].
  vm_compute. discriminate.
Defined.

Lemma rotate_twice_is_flip_both_witness :
  exists g f,
    (g1 ← FlipRotate.rotate_image (fun _ => 0) ex_wide_frame 100 80 1;
     FlipRotate.rotate_image (fun _ => 0) g1 80 100 1) = Ok g
    /\ (f1 ← FlipRotate.flip_image ex_wide_frame 100 80 false;
        FlipRotate.flip_image f1 100 80 true) = Ok f
    /\ Image.left g = Image.left f /\ Image.top g = Image.top f
    /\ Image.width g = Image.width f /\ Image.height g = Image.height f
    /\ forall y x,
         0 <= y < Image.height f -> 0 <= x < Image.width f ->
         exists v, Image.getpixel g y x = Ok v /\ Image.getpixel f y x = Ok v.
Proof.
  apply rotate_twice_is_flip_both; [exact ex_wide_frame_raw|].
  vm_compute. discriminate.
Defined.

(** The 3 by 2 frame [1 2 3 / 4 5 6] turned twice by 90 degrees. *)
Example rotate_image_twice_wide_frame :
  (g1 ← FlipRotate.rotate_image (fun _ => 0) ex_wide_frame 100 80 1;
   FlipRotate.rotate_image (fun _ => 0) g1 80 100 1)
  = Ok (Image.mkImage (Some [0; 3]) [6; 5; 4; 3; 2; 1] 3 2 87 58 (-1) None).
Proof. reflexivity. Qed.

(** ** Scale: what the scan writes, for any factor that is not negative *)

Section ScanTheorem.

Import Scale FlipRotate.

Variable uninit : nat -> Z.
Variable Gif_UncompressImage : Gif_Image -> Gif_Image.
Variable Gif_FullCompressImage : Gif_Stream -> Gif_Image -> Gif_Image.

(** X10. On a raw frame of width and height at least 1, with factors
    whose fixed-point steps are not negative, edges that pass the size
    test and a scan that stays within the [int]s, scale_image returns:
    the scan reads and writes within its buffers. The result is a raw
    frame placed at the scaled left and top edges, of the scaled width and
    height, each between 1 and 2097151. Every pixel of it is a pixel of
    the frame, none is left as allocated: the pixel (Y, X) is the pixel of
    a row j and a column i whose scaled extents contain the row and the
    column of the screen where it lies. *)
Theorem scale_image_resamples :
  forall (gfs : Gif_Stream) (gfi : Gif_Image) (xfactor yfactor : float)
         (g : geometry),
    raw_frame gfi ->
    1 <= Image.width gfi -> 1 <= Image.height gfi ->
    scale_geometry gfi xfactor yfactor = Ok g ->
    0 <= scaled_xstep g -> 0 <= scaled_ystep g ->
    scan_fits_int gfi g ->
    exists gfi',
      scale_image uninit Gif_UncompressImage Gif_FullCompressImage gfs gfi
        xfactor yfactor = Ok gfi'
      /\ raw_frame gfi'
      /\ Image.left gfi' = new_left g /\ Image.top gfi' = new_top g
      /\ Image.width gfi' = new_width g /\ Image.height gfi' = new_height g
      /\ 1 <= Image.width gfi' <= 2097151
      /\ 1 <= Image.height gfi' <= 2097151
      /\ forall Y X,
           0 <= Y < Image.height gfi' -> 0 <= X < Image.width gfi' ->
           exists j i v,
             0 <= j < Image.height gfi /\ 0 <= i < Image.width gfi
             /\ Image.getpixel gfi' Y X = Ok v
             /\ Image.getpixel gfi j i = Ok v
             /\ row_of gfi g j (Image.top gfi' + Y)
             /\ column_of gfi g i (Image.left gfi' + X).
Proof.
  intros gfs gfi xf yf g Hraw Hw Hh Hg Hxs Hys Hfits.
  destruct (scale_image_scanned uninit Gif_UncompressImage Gif_FullCompressImage
              gfs gfi xf yf g Hraw Hw Hh Hg Hxs Hys Hfits)
    as (gfi' & Hrun & Hraw' & Hl & Ht & Hw' & Hh' & Hpix).
  pose proof (scale_geometry_edges gfi xf yf g Hg) as Hgeo.
  pose proof (geo_width _ _ Hgeo) as Hnw.
  pose proof (geo_height _ _ Hgeo) as Hnh.
  rewrite UNSCALE_NOROUND_INT_MAX in Hnw, Hnh.
  exists gfi'. rewrite Hl, Ht, Hw', Hh'.
  split; [exact Hrun|]. split; [exact Hraw'|].
  do 4 (split; [reflexivity|]). split; [exact Hnw|]. split; [exact Hnh|].
  exact Hpix.
Qed.

(** X16. With whole factors n across and m down, at least 1 each (the
    steps are 1024 n and 1024 m), on a raw frame that is not placed at a
    negative position and whose n width by m height pixels are no more
    than INT_MAX, scale_image repeats every pixel n times across and m
    times down: the frame moves to (n left, m top), grows to n width by m
    height, and its pixel (Y, X) is the pixel (Y / m, X / n) of the frame
    it was given. *)
Theorem scale_image_whole_factor :
  forall (gfs : Gif_Stream) (gfi : Gif_Image) (xfactor yfactor : float)
         (g : geometry) (n m : Z),
    raw_frame gfi ->
    1 <= Image.width gfi -> 1 <= Image.height gfi ->
    0 <= Image.left gfi -> 0 <= Image.top gfi ->
    scale_geometry gfi xfactor yfactor = Ok g ->
    scaled_xstep g = 1024 * n -> scaled_ystep g = 1024 * m ->
    1 <= n -> 1 <= m ->
    (n * Image.width gfi) * (m * Image.height gfi) <= INT_MAX ->
    exists gfi',
      scale_image uninit Gif_UncompressImage Gif_FullCompressImage gfs gfi
        xfactor yfactor = Ok gfi'
      /\ raw_frame gfi'
      /\ Image.left gfi' = n * Image.left gfi
      /\ Image.top gfi' = m * Image.top gfi
      /\ Image.width gfi' = n * Image.width gfi
      /\ Image.height gfi' = m * Image.height gfi
      /\ forall Y X,
           0 <= Y < m * Image.height gfi -> 0 <= X < n * Image.width gfi ->
           exists v,
             Image.getpixel gfi' Y X = Ok v
             /\ Image.getpixel gfi (Y / m) (X / n) = Ok v.
Proof.
  intros gfs gfi xf yf g n m Hraw Hw Hh Hleft Htop Hg Hxs Hys Hn Hm Hpixels.
  destruct (scale_geometry_inv gfi xf yf g Hg) as (_ & _ & HNL & HNT & HNW & HNH).
  pose proof (scale_geometry_edges gfi xf yf g Hg) as Hgeo.
  pose proof (geo_x_end _ _ Hgeo) as [_ Hxend].
  pose proof (geo_y_end _ _ Hgeo) as [_ Hyend].
  pose proof (geo_right _ _ Hgeo) as HNR.
  pose proof (geo_bottom _ _ Hgeo) as HNB.
  rewrite Hxs in HNL, HNW, Hxend. rewrite Hys in HNT, HNH, Hyend.
  rewrite <- !Z.mul_assoc, !UNSCALE_whole in HNL, HNT, HNW, HNH.
  assert (Hnw : new_width g = n * Image.width gfi) by nia.
  assert (Hnh : new_height g = m * Image.height gfi) by nia.
  destruct (scale_image_scanned uninit Gif_UncompressImage Gif_FullCompressImage
              gfs gfi xf yf g Hraw Hw Hh Hg)
    as (gfi' & Hrun & Hraw' & Hl & Ht & Hw' & Hh' & Hpix); [lia | lia | |].
  { unfold scan_fits_int. rewrite UNSCALE_NOROUND_INT_MAX, Hnw, Hnh.
    unfold INT_MAX in *. split; [assumption|]. split; [assumption|].
    split; [nia|]. split; [nia|]. split; [right; lia | assumption]. }
  exists gfi'. split; [exact Hrun|]. split; [exact Hraw'|].
  split; [lia|]. split; [lia|]. split; [lia|]. split; [lia|].
  intros Y X HY HX.
  destruct (Hpix Y X) as (j & i & v & Hj & Hi & Hv' & Hv & Hrow & Hcol);
    [lia | lia |].
  exists v. split; [exact Hv'|].
  destruct Hrow as [Hrow1 Hrow2]. destruct Hcol as [Hcol1 Hcol2].
  rewrite Hys, UNSCALE_NOROUND_div in Hrow1.
  rewrite Hys in Hrow2. rewrite Hxs in Hcol1, Hcol2.
  rewrite <- !Z.mul_assoc in Hrow1, Hrow2, Hcol1, Hcol2.
  rewrite UNSCALE_whole in Hrow2, Hcol1, Hcol2.
  rewrite (Z.mul_comm 1024), Z.div_mul in Hrow1 by lia.
  assert (Hjm : Y / m = j).
  { symmetry. apply (Z.div_unique_pos _ _ _ (Y - m * j)); [|lia].
    destruct (decide (j < Image.height gfi - 1)) as [Hlt|Hlast];
      [specialize (Hrow2 Hlt); nia | nia]. }
  assert (Hin : X / n = i).
  { symmetry. apply (Z.div_unique_pos _ _ _ (X - n * i)); [|lia].
    destruct (decide (i < Image.width gfi - 1)) as [Hlt|Hlast];
      [specialize (Hcol2 Hlt); nia | nia]. }
  by rewrite Hjm, Hin.
Qed.

End ScanTheorem.

(** The 3 by 2 frame [1 2 3 / 4 5 6] at (10, 20), scaled by 1.5 across
    and by 0.5 down. *)
Lemma scale_image_resamples_witness :
  exists gfi',
    ex_scale_image (Scale.mkStream [ex_wide_frame] 100 100) ex_wide_frame 1.5 0.5
    = Ok gfi'
    /\ raw_frame gfi'
    /\ Image.left gfi' = 15 /\ Image.top gfi' = 10
    /\ Image.width gfi' = 5 /\ Image.height gfi' = 1
    /\ 1 <= Image.width gfi' <= 2097151
    /\ 1 <= Image.height gfi' <= 2097151
    /\ forall Y X,
         0 <= Y < Image.height gfi' -> 0 <= X < Image.width gfi' ->
         exists j i v,
           0 <= j < Image.height ex_wide_frame
           /\ 0 <= i < Image.width ex_wide_frame
           /\ Image.getpixel gfi' Y X = Ok v
           /\ Image.getpixel ex_wide_frame j i = Ok v
           /\ row_of ex_wide_frame (Scale.mkGeometry 1536 512 15 10 20 11 5 1) j
                (Image.top gfi' + Y)
           /\ column_of ex_wide_frame (Scale.mkGeometry 1536 512 15 10 20 11 5 1) i
                (Image.left gfi' + X).
Proof.
  apply (scale_image_resamples (fun _ => 0) ex_uncompress ex_compress
           (Scale.mkStream [ex_wide_frame] 100 100) ex_wide_frame 1.5 0.5
           (Scale.mkGeometry 1536 512 15 10 20 11 5 1) ex_wide_frame_raw).
  - simpl. lia.
  - simpl. lia.
  - vm_compute. reflexivity.
  - simpl. lia.
  - simpl. lia.
  - unfold scan_fits_int. simpl.
    change (Scale.UNSCALE_NOROUND INT_MAX) with 2097151. unfold INT_MAX. lia.
Defined.

(** The same frame, doubled across and tripled down. *)
Lemma scale_image_whole_factor_witness :
  exists gfi',
    ex_scale_image (Scale.mkStream [ex_wide_frame] 100 100) ex_wide_frame 2 3
    = Ok gfi'
    /\ raw_frame gfi'
    /\ Image.left gfi' = 2 * Image.left ex_wide_frame
    /\ Image.top gfi' = 3 * Image.top ex_wide_frame
    /\ Image.width gfi' = 2 * Image.width ex_wide_frame
    /\ Image.height gfi' = 3 * Image.height ex_wide_frame
    /\ forall Y X,
         0 <= Y < 3 * Image.height ex_wide_frame ->
         0 <= X < 2 * Image.width ex_wide_frame ->
         exists v,
           Image.getpixel gfi' Y X = Ok v
           /\ Image.getpixel ex_wide_frame (Y / 3) (X / 2) = Ok v.
Proof.
  apply (scale_image_whole_factor (fun _ => 0) ex_uncompress ex_compress
           (Scale.mkStream [ex_wide_frame] 100 100) ex_wide_frame 2 3
           (Scale.mkGeometry 2048 3072 20 60 26 66 6 6) 2 3 ex_wide_frame_raw).
  - simpl. lia.
  - simpl. lia.
  - simpl. lia.
  - simpl. lia.
  - vm_compute. reflexivity.
  - reflexivity.
  - reflexivity.
  - lia.
  - lia.
  - vm_compute. discriminate.
Defined.

Example scale_image_wide_frame :
  ex_scale_image (Scale.mkStream [ex_wide_frame] 100 100) ex_wide_frame 1.5 0.5
  = Ok (Image.mkImage (Some [0]) [4; 4; 5; 6; 6] 5 1 15 10 (-1) None).
Proof. vm_compute. reflexivity. Qed.

(** ** The external-process transform: what it writes and what it copies *)

Section PipeProtocol.

(** Writing the colormap to the command: one line for each of the first
    [ncol] entries, in their order, and nothing else changes. *)
Lemma pipe_write_loop_lines (gfcm : Gif_Colormap) (w : World) :
  0 <= ncol gfcm <= Z.of_nat (length (col gfcm)) ->
  exists w',
    for_upto 0 (ncol gfcm)
      (fun i w => c ← load (col gfcm) i; Ok (fprintf c w)) w = Ok w'
    /\ files w' = files w /\ diags w' = diags w /\ commands w' = commands w
    /\ piped w'
       = piped w ++ ((fun c => (red c, green c, blue c))
                       <$> take (Z.to_nat (ncol gfcm)) (col gfcm)).
Proof.
  intros Hn.
  destruct (for_upto_invariant
    (fun k w' =>
       files w' = files w /\ diags w' = diags w /\ commands w' = commands w
       /\ piped w'
          = piped w ++ ((fun c => (red c, green c, blue c))
                          <$> take (Z.to_nat k) (col gfcm)))
    (fun i w => c ← load (col gfcm) i; Ok (fprintf c w)) 0 (ncol gfcm) w)
    as (w' & Hrun & Hinv); [lia | | | eauto].
  - simpl. rewrite app_nil_r. auto.
  - intros k t Hk (Hf & Hd & Hc & Hp).
    destruct (lookup_lt_is_Some_2 (col gfcm) (Z.to_nat k)) as [c Hc']; [lia|].
    exists (fprintf c t). split.
    { replace k with (Z.of_nat (Z.to_nat k)) at 1 by lia.
      by rewrite (load_lookup _ _ _ Hc'). }
    simpl. do 3 (split; [assumption|]).
    replace (Z.to_nat (k + 1)) with (Datatypes.S (Z.to_nat k)) by lia.
    rewrite (take_S_r _ _ _ Hc'), fmap_app, Hp, <- app_assoc. reflexivity.
Qed.

(** The copy loop: [nc] cells of the parsed array over the first [nc]
    cells of the colormap's array. *)
Lemma pipe_copy_loop (new_col cur : list Gif_Color) (nc : Z) :
  0 <= nc -> nc <= Z.of_nat (length new_col) -> nc <= Z.of_nat (length cur) ->
  exists col',
    for_upto 0 nc (fun i col' => c ← load new_col i; store col' i c) cur
    = Ok col'
    /\ length col' = length cur
    /\ forall i : nat,
         col' !! i = if Z.of_nat i <? nc then new_col !! i else cur !! i.
Proof.
  intros H0 Hnew Hcur.
  apply (for_upto_invariant
    (fun k col' =>
       length col' = length cur
       /\ forall i : nat,
            col' !! i = if Z.of_nat i <? k then new_col !! i else cur !! i)).
  - exact H0.
  - split; [reflexivity|]. intros i.
    destruct (Z.ltb_spec (Z.of_nat i) 0); [lia | reflexivity].
  - intros k t Hk (Hl & Ht).
    destruct (lookup_lt_is_Some_2 new_col (Z.to_nat k)) as [c Hc]; [lia|].
    assert (Hload : load new_col k = Ok c)
      by (apply load_Ok; split; [lia | assumption]).
    rewrite Hload. run_bind. rewrite store_Ok by lia.
    eexists. split; [reflexivity|]. split; [by rewrite length_insert|].
    intros i. destruct (decide (i = Z.to_nat k)) as [->|Hne].
    + rewrite list_lookup_insert_eq by lia.
      destruct (Z.ltb_spec (Z.of_nat (Z.to_nat k)) (k + 1)); [|lia]. by rewrite Hc.
    + rewrite list_lookup_insert_ne by lia. rewrite Ht.
      destruct (Z.ltb_spec (Z.of_nat i) k), (Z.ltb_spec (Z.of_nat i) (k + 1));
        try reflexivity; lia.
Qed.

(** X11. When the command has run and the parser has returned a colormap,
    pipe_color_transformer copies as many cells as the larger of the two
    counts, whatever the parsed count: where both arrays have that many
    cells it returns, the colormap keeps its count, its cells below the
    larger count are the cells of the parsed array and the others stay;
    it warns once when the counts differ and not at all when they are
    equal. *)
Theorem pipe_copies_larger_count :
  forall (env : PipeEnv) (w : World) (gfcm new_cm : Gif_Colormap)
         (command tmp_file : string),
    env_mkstemp env = Some tmp_file ->
    env_popen env = true -> env_pclose env = 0 ->
    env_fopen env = true -> env_feof env = false ->
    env_read_colormap_file env = Some new_cm ->
    0 <= ncol gfcm ->
    Z.max (ncol new_cm) (ncol gfcm) <= Z.of_nat (length (col gfcm)) ->
    Z.max (ncol new_cm) (ncol gfcm) <= Z.of_nat (length (col new_cm)) ->
    exists w' col',
      pipe_color_transformer env w gfcm command
      = Ok (w', mkColormap (ncol gfcm) col')
      /\ length col' = length (col gfcm)
      /\ (forall i : nat,
            col' !! i = if Z.of_nat i <? Z.max (ncol new_cm) (ncol gfcm)
                        then col new_cm !! i else col gfcm !! i)
      /\ diags w'
         = diags w ++ env_read_reports env
           ++ (if ncol new_cm <? ncol gfcm
               then [mkDiag SevWarning
                       "too few colors in color transformation results"]
               else if ncol gfcm <? ncol new_cm
               then [mkDiag SevWarning
                       "too many colors in color transformation results"]
               else []).
Proof.
  intros env w gfcm new_cm command tmp_file Htmp Hpopen Hstatus Hfopen Hfeof
    Hread Hn Hcap Hnew.
  set (w1 := popen (command +:+ "  >" +:+ tmp_file)%string (create_file tmp_file w)).
  destruct (pipe_write_loop_lines gfcm w1) as (w2 & Hloop & _ & Hdiags & _);
    [lia|].
  destruct (pipe_copy_loop (col new_cm) (col gfcm)
              (Z.max (ncol new_cm) (ncol gfcm))) as (col' & Hcopy & Hlen & Hcol);
    [lia.. |].
  unfold pipe_color_transformer. rewrite Htmp, Hpopen. simpl. fold w1.
  rewrite Hloop. run_bind. rewrite Hstatus, Hfopen, Hfeof, Hread. simpl.
  unfold done_label.
  destruct (Z.ltb_spec (ncol new_cm) (ncol gfcm)) as [Hfew|Hge].
  - rewrite Z.max_r in Hcopy by lia. rewrite Hcopy. run_bind.
    eexists _, col'. split; [reflexivity|]. split; [assumption|].
    split; [assumption|]. simpl. rewrite Hdiags. simpl. by rewrite <- app_assoc.
  - destruct (Z.ltb_spec (ncol gfcm) (ncol new_cm)) as [Hmany|Heq].
    + rewrite Z.max_l in Hcopy by lia. rewrite Hcopy. run_bind.
      eexists _, col'. split; [reflexivity|]. split; [assumption|].
      split; [assumption|]. simpl. rewrite Hdiags. simpl. by rewrite <- app_assoc.
    + rewrite Z.max_l in Hcopy by lia. rewrite Hcopy. run_bind.
      eexists _, col'. split; [reflexivity|]. split; [assumption|].
      split; [assumption|]. simpl. rewrite Hdiags. simpl. by rewrite app_nil_r.
Qed.

(** X12. Whatever the command and the parser answer, once the temporary
    file is made and the command started, and where the copy stays within
    both arrays, pipe_color_transformer returns, and by then: it has run
    one command, the given one with its output redirected to the
    temporary file; it has written to it one line for each of the first
    [ncol] entries of the colormap as it was, in order; the temporary file
    is gone and no other file is touched; the count of the colormap is
    unchanged. *)
Theorem pipe_feeds_whole_colormap :
  forall (env : PipeEnv) (w : World) (gfcm : Gif_Colormap)
         (command tmp_file : string),
    env_mkstemp env = Some tmp_file ->
    env_popen env = true ->
    0 <= ncol gfcm <= Z.of_nat (length (col gfcm)) ->
    (forall new_cm, env_read_colormap_file env = Some new_cm ->
       Z.max (ncol new_cm) (ncol gfcm) <= Z.of_nat (length (col gfcm))
       /\ Z.max (ncol new_cm) (ncol gfcm) <= Z.of_nat (length (col new_cm))) ->
    exists w' gfcm',
      pipe_color_transformer env w gfcm command = Ok (w', gfcm')
      /\ commands w' = commands w ++ [(command +:+ "  >" +:+ tmp_file)%string]
      /\ piped w'
         = piped w ++ ((fun c => (red c, green c, blue c))
                         <$> take (Z.to_nat (ncol gfcm)) (col gfcm))
      /\ files w' = files w ∖ {[tmp_file]}
      /\ ncol gfcm' = ncol gfcm.
Proof.
  intros env w gfcm command tmp_file Htmp Hpopen Hn Hread.
  set (w1 := popen (command +:+ "  >" +:+ tmp_file)%string (create_file tmp_file w)).
  destruct (pipe_write_loop_lines gfcm w1 Hn)
    as (w2 & Hloop & Hfiles & _ & Hcmds & Hpiped).
  assert (Hgone : ({[tmp_file]} ∪ files w) ∖ {[tmp_file]}
                  = files w ∖ {[tmp_file]}).
  { apply set_eq. intros name.
    rewrite !elem_of_difference, elem_of_union, elem_of_singleton. tauto. }
  assert (Hdone : forall w3 gfcm',
            files w3 = files w2 -> commands w3 = commands w2 ->
            piped w3 = piped w2 -> ncol gfcm' = ncol gfcm ->
            exists w' gfcm'',
              done_label tmp_file w3 gfcm' = Ok (w', gfcm'')
              /\ commands w' = commands w ++ [(command +:+ "  >" +:+ tmp_file)%string]
              /\ piped w'
                 = piped w ++ ((fun c => (red c, green c, blue c))
                                 <$> take (Z.to_nat (ncol gfcm)) (col gfcm))
              /\ files w' = files w ∖ {[tmp_file]}
              /\ ncol gfcm'' = ncol gfcm).
  { intros w3 gfcm' H1 H2 H3 H4. unfold done_label. eexists _, _.
    split; [reflexivity|]. simpl. rewrite H1, H2, H3, Hfiles, Hcmds, Hpiped.
    simpl. auto. }
  unfold pipe_color_transformer. rewrite Htmp, Hpopen. simpl. fold w1.
  rewrite Hloop. run_bind.
  destruct (env_pclose env <? 0); [by apply Hdone|].
  destruct (0 <? env_pclose env); [by apply Hdone|].
  destruct (negb (env_fopen env) || env_feof env); [by apply Hdone|].
  destruct (env_read_colormap_file env) as [new_cm|]; [|by apply Hdone].
  destruct (Hread new_cm eq_refl) as [Hcap Hnew].
  destruct (pipe_copy_loop (col new_cm) (col gfcm)
              (Z.max (ncol new_cm) (ncol gfcm))) as (col' & Hcopy & _);
    [lia.. |].
  destruct (Z.ltb_spec (ncol new_cm) (ncol gfcm)) as [Hfew|Hge].
  - rewrite Z.max_r in Hcopy by lia. rewrite Hcopy. run_bind. by apply Hdone.
  - destruct (Z.ltb_spec (ncol gfcm) (ncol new_cm)) as [Hmany|Heq];
      rewrite Z.max_l in Hcopy by lia; rewrite Hcopy; run_bind; by apply Hdone.
Qed.

End PipeProtocol.

(** The parser returns two colours for the colormap of two. *)
Lemma pipe_copies_larger_count_witness :
  exists w' col',
    pipe_color_transformer ex_env_too_many ex_world ex_colormap "sort"
    = Ok (w', mkColormap (ncol ex_colormap) col')
    /\ length col' = length (col ex_colormap)
    /\ (forall i : nat,
          col' !! i
          = if Z.of_nat i
               <? Z.max (ncol (mkColormap 2 [ex_blue; ex_green])) (ncol ex_colormap)
            then col (mkColormap 2 [ex_blue; ex_green]) !! i
            else col ex_colormap !! i)
    /\ diags w'
       = diags ex_world ++ env_read_reports ex_env_too_many
         ++ (if ncol (mkColormap 2 [ex_blue; ex_green]) <? ncol ex_colormap
             then [mkDiag SevWarning
                     "too few colors in color transformation results"]
             else if ncol ex_colormap <? ncol (mkColormap 2 [ex_blue; ex_green])
             then [mkDiag SevWarning
                     "too many colors in color transformation results"]
             else []).
Proof.
  apply (pipe_copies_larger_count ex_env_too_many ex_world ex_colormap
           (mkColormap 2 [ex_blue; ex_green]) "sort" ex_tmp_file);
    try reflexivity; simpl; lia.
Defined.

Lemma pipe_feeds_whole_colormap_witness :
  exists w' gfcm',
    pipe_color_transformer ex_env_too_many ex_world ex_colormap "sort"
    = Ok (w', gfcm')
    /\ commands w'
       = commands ex_world ++ [("sort" +:+ "  >" +:+ ex_tmp_file)%string]
    /\ piped w'
       = piped ex_world
         ++ ((fun c => (red c, green c, blue c))
               <$> take (Z.to_nat (ncol ex_colormap)) (col ex_colormap))
    /\ files w' = files ex_world ∖ {[ex_tmp_file]}
    /\ ncol gfcm' = ncol ex_colormap.
Proof.
  apply (pipe_feeds_whole_colormap ex_env_too_many ex_world ex_colormap
           "sort" ex_tmp_file).
  - reflexivity.
  - reflexivity.
  - simpl. lia.
  - intros new_cm [= <-]. simpl. lia.
Defined.

(** What the command is given for the colormap of red and white. *)
Example pipe_lines_of_sample :
  exists w' gfcm',
    pipe_color_transformer ex_env_failed ex_world ex_colormap "sort"
    = Ok (w', gfcm')
    /\ commands w' = ["sort  >/tmp/gifsicle.Ab3xQz"%string]
    /\ piped w' = [(255, 0, 0); (255, 255, 255)].
Proof. eexists _, _. repeat split; reflexivity. Qed.

(** ** Scale: frames that share an edge *)

Section SharedEdges.

Import Scale.

Variable uninit : nat -> Z.
Variable Gif_UncompressImage : Gif_Image -> Gif_Image.
Variable Gif_FullCompressImage : Gif_Stream -> Gif_Image -> Gif_Image.

(** The place and the size of the frame that scale_image returns for a
    raw frame are those of its edge computation. *)
Lemma scale_image_geometry (gfs : Gif_Stream) (gfi gfi' : Gif_Image)
    (xfactor yfactor : float) :
  Image.img gfi <> None ->
  scale_image uninit Gif_UncompressImage Gif_FullCompressImage gfs gfi
    xfactor yfactor = Ok gfi' ->
  exists g,
    scale_geometry gfi xfactor yfactor = Ok g
    /\ Image.left gfi' = new_left g /\ Image.top gfi' = new_top g
    /\ Image.width gfi' = new_width g /\ Image.height gfi' = new_height g.
Proof.
  intros Hraw. unfold scale_image.
  destruct (scale_geometry gfi xfactor yfactor) as [g| | |] eqn:Hg;
    try discriminate.
  run_bind. rewrite bool_decide_eq_false_2 by assumption. intros H.
  apply bind_Ok_inv in H as (n & _ & H).
  apply bind_Ok_inv in H as (sy & _ & H).
  apply bind_Ok_inv in H as ([[ny sy'] nd] & _ & H).
  apply bind_Ok_inv in H as (l' & Hl' & H).
  apply bind_Ok_inv in H as (t' & Ht' & H).
  injection H as <-.
  apply bind_Ok_inv in Hl' as (p & Hp & Hl').
  apply int_inv in Hp as [-> _]. apply UNSCALE_int_inv in Hl' as [-> _].
  apply bind_Ok_inv in Ht' as (q & Hq & Ht').
  apply int_inv in Hq as [-> _]. apply UNSCALE_int_inv in Ht' as [-> _].
  exists g. split; [reflexivity|].
  destruct (scale_geometry_inv _ _ _ _ Hg) as (_ & _ & Hl & Ht & _).
  simpl. rewrite Hl, Ht. auto.
Qed.

(** X13. Two raw frames scaled by scale_image with the same factors keep
    their alignment: frames with the same left (top) edge get the same
    scaled left (top) edge, and where the second frame starts at the right
    (bottom) edge of the first, the second scaled frame starts at the
    right (bottom) edge of the first scaled frame, unless the first was
    squeezed to nothing and given the width (height) 1. *)
Theorem scale_image_keeps_shared_edges :
  forall (gfs1 gfs2 : Gif_Stream) (a b a' b' : Gif_Image)
         (xfactor yfactor : float),
    Image.img a <> None -> Image.img b <> None ->
    scale_image uninit Gif_UncompressImage Gif_FullCompressImage gfs1 a
      xfactor yfactor = Ok a' ->
    scale_image uninit Gif_UncompressImage Gif_FullCompressImage gfs2 b
      xfactor yfactor = Ok b' ->
    (Image.left b = Image.left a -> Image.left b' = Image.left a')
    /\ (Image.top b = Image.top a -> Image.top b' = Image.top a')
    /\ (Image.left b = Image.left a + Image.width a ->
        Image.left b' = Image.left a' + Image.width a'
        \/ (Image.width a' = 1 /\ Image.left b' <= Image.left a'))
    /\ (Image.top b = Image.top a + Image.height a ->
        Image.top b' = Image.top a' + Image.height a'
        \/ (Image.height a' = 1 /\ Image.top b' <= Image.top a')).
Proof.
  intros gfs1 gfs2 a b a' b' xf yf Ha Hb Hsa Hsb.
  destruct (scale_image_geometry gfs1 a a' xf yf Ha Hsa)
    as (ga & Hga & -> & -> & -> & ->).
  destruct (scale_image_geometry gfs2 b b' xf yf Hb Hsb)
    as (gb & Hgb & -> & -> & _ & _).
  destruct (scale_geometry_inv _ _ _ _ Hga) as (Hxa & Hya & Hla & Hta & Hra & Hba).
  destruct (scale_geometry_inv _ _ _ _ Hgb) as (Hxb & Hyb & Hlb & Htb & _ & _).
  assert (Hx : scaled_xstep gb = scaled_xstep ga) by congruence.
  assert (Hy : scaled_ystep gb = scaled_ystep ga) by congruence.
  rewrite Hlb, Htb, Hx, Hy.
  split; [intros ->; by rewrite Hla|]. split; [intros ->; by rewrite Hta|].
  split; intros ->.
  - destruct Hra as [<-|[H1 Hle]]; [by left | right; by split].
  - destruct Hba as [<-|[H1 Hle]]; [by left | right; by split].
Qed.

End SharedEdges.

(** Two frames of three columns side by side, scaled by 1.5 across and
    by 0.5 down. *)
Lemma scale_image_keeps_shared_edges_witness :
  (Image.left ex_right_frame = Image.left ex_wide_frame ->
   Image.left ex_right_frame_scaled = Image.left ex_wide_frame_scaled)
  /\ (Image.top ex_right_frame = Image.top ex_wide_frame ->
      Image.top ex_right_frame_scaled = Image.top ex_wide_frame_scaled)
  /\ (Image.left ex_right_frame
      = Image.left ex_wide_frame + Image.width ex_wide_frame ->
      Image.left ex_right_frame_scaled
      = Image.left ex_wide_frame_scaled + Image.width ex_wide_frame_scaled
      \/ (Image.width ex_wide_frame_scaled = 1
          /\ Image.left ex_right_frame_scaled <= Image.left ex_wide_frame_scaled))
  /\ (Image.top ex_right_frame
      = Image.top ex_wide_frame + Image.height ex_wide_frame ->
      Image.top ex_right_frame_scaled
      = Image.top ex_wide_frame_scaled + Image.height ex_wide_frame_scaled
      \/ (Image.height ex_wide_frame_scaled = 1
          /\ Image.top ex_right_frame_scaled <= Image.top ex_wide_frame_scaled)).
Proof.
  apply (scale_image_keeps_shared_edges (fun _ => 0) ex_uncompress ex_compress
           (Scale.mkStream [] 100 100) (Scale.mkStream [] 100 100)
           ex_wide_frame ex_right_frame
           ex_wide_frame_scaled ex_right_frame_scaled 1.5 0.5).
  - discriminate.
  - discriminate.
  - vm_compute. reflexivity.
  - vm_compute. reflexivity.
Defined.

(** ** Resize: every frame, with the one pair of factors *)

Section ResizeFrames.

Import Scale.

Variable uninit : nat -> Z.
Variable Gif_UncompressImage : Gif_Image -> Gif_Image.
Variable Gif_FullCompressImage : Gif_Stream -> Gif_Image -> Gif_Image.

(** scale_image hands the stream to the compressor only: on a raw frame
    it does not depend on it. *)
Lemma scale_image_raw_stream (gfs1 gfs2 : Gif_Stream) (gfi : Gif_Image)
    (xfactor yfactor : float) :
  Image.img gfi <> None ->
  scale_image uninit Gif_UncompressImage Gif_FullCompressImage gfs1 gfi
    xfactor yfactor
  = scale_image uninit Gif_UncompressImage Gif_FullCompressImage gfs2 gfi
      xfactor yfactor.
Proof.
  intros Hraw. unfold scale_image.
  rewrite bool_decide_eq_false_2 by assumption. reflexivity.
Qed.

(** X14. On a stream of raw frames for which resize_plan settles on a
    pair of factors and a screen size, and each of whose frames
    scale_image can scale by these factors, resize_stream returns the
    stream of the scaled frames, as many and in the same order, each
    scaled by the same pair of factors, with the planned screen size. *)
Theorem resize_stream_scales_each_frame :
  forall (gfs : Gif_Stream) (new_width new_height : Z) (fit : bool)
         (xfactor yfactor : float) (screen_w screen_h : Z)
         (frames' : list Gif_Image),
    resize_plan (Gif_CalculateScreenSize gfs) new_width new_height fit
    = Ok (Some (xfactor, yfactor, screen_w, screen_h)) ->
    Forall (fun gfi => Image.img gfi <> None) (images gfs) ->
    Forall2 (fun gfi gfi' =>
               scale_image uninit Gif_UncompressImage Gif_FullCompressImage
                 gfs gfi xfactor yfactor = Ok gfi')
      (images gfs) frames' ->
    resize_stream uninit Gif_UncompressImage Gif_FullCompressImage
      gfs new_width new_height fit
    = Ok (mkStream frames' screen_w screen_h)
    /\ length frames' = length (images gfs).
Proof.
  intros gfs nw nh fit xf yf sw sh frames' Hplan Hraw Hscale.
  pose proof (Forall2_length _ _ _ Hscale) as Hlen.
  split; [|by symmetry].
  unfold resize_stream. rewrite Hplan. run_bind.
  set (gfs0 := Gif_CalculateScreenSize gfs).
  destruct (for_upto_invariant
    (fun k s =>
       images s = take (Z.to_nat k) frames' ++ drop (Z.to_nat k) (images gfs))
    (fun i s =>
       gfi ← load (images s) i;
       gfi ← scale_image uninit Gif_UncompressImage Gif_FullCompressImage
               s gfi xf yf;
       images' ← store (images s) i gfi;
       Ok (mkStream images' (screen_width s) (screen_height s)))
    0 (nimages gfs0) gfs0) as (s & Hrun & Hs).
  - unfold nimages. lia.
  - reflexivity.
  - intros k t Hk Ht. unfold nimages in Hk. simpl in Hk.
    destruct (lookup_lt_is_Some_2 (images gfs) (Z.to_nat k)) as [f Hf]; [lia|].
    destruct (lookup_lt_is_Some_2 frames' (Z.to_nat k)) as [f' Hf']; [lia|].
    assert (Hload : load (images t) k = Ok f).
    { apply load_Ok. split; [lia|]. rewrite Ht.
      rewrite lookup_app_r by (rewrite length_take; lia).
      rewrite length_take, lookup_drop.
      replace (Z.to_nat k + (Z.to_nat k - Z.to_nat k `min` length frames'))%nat
        with (Z.to_nat k) by lia.
      exact Hf. }
    rewrite Hload. run_bind.
    rewrite (scale_image_raw_stream t gfs f).
    2:{ rewrite Forall_forall in Hraw. apply Hraw.
        by eapply list_elem_of_lookup_2. }
    rewrite (Forall2_lookup_lr _ _ _ _ _ _ Hscale Hf Hf'). run_bind.
    rewrite store_Ok.
    2:{ rewrite Ht, length_app, length_take, length_drop. lia. }
    eexists. split; [reflexivity|]. simpl. rewrite Ht.
    rewrite insert_app_r_alt by (rewrite length_take; lia).
    rewrite length_take.
    replace (Z.to_nat k - Z.to_nat k `min` length frames')%nat with O by lia.
    rewrite (drop_S _ _ _ Hf). simpl.
    replace (Z.to_nat (k + 1)) with (Datatypes.S (Z.to_nat k)) by lia.
    rewrite (take_S_r _ _ _ Hf'), <- app_assoc. reflexivity.
  - rewrite Hrun. run_bind. do 2 f_equal. rewrite Hs.
    unfold nimages. simpl. rewrite Nat2Z.id.
    rewrite take_ge by lia. rewrite drop_ge by lia. apply app_nil_r.
Qed.

(** X15. resize_stream with no width and no height asked, or asked to
    fit a box that the screen already fits in, scales no frame: it
    returns the stream with the frames it had, whatever the codec; only
    the screen size has been recomputed. *)
Theorem resize_stream_leaves_frames :
  forall (gfs : Gif_Stream) (new_width new_height : Z) (fit : bool),
    (new_width <= 0 /\ new_height <= 0)
    \/ (fit = true /\ 0 < new_width /\ 0 < new_height
        /\ screen_width (Gif_CalculateScreenSize gfs) <= new_width
        /\ screen_height (Gif_CalculateScreenSize gfs) <= new_height) ->
    resize_stream uninit Gif_UncompressImage Gif_FullCompressImage
      gfs new_width new_height fit
    = Ok (Gif_CalculateScreenSize gfs)
    /\ images (Gif_CalculateScreenSize gfs) = images gfs.
Proof.
  intros gfs nw nh fit Hcase. split; [|reflexivity].
  unfold resize_stream, resize_plan.
  destruct Hcase as [[Hw Hh]|(-> & Hw & Hh & Hsw & Hsh)].
  - destruct (Z.leb_spec nw 0); [|lia]. destruct (Z.leb_spec nh 0); [|lia].
    reflexivity.
  - destruct (Z.leb_spec nw 0); [lia|]. destruct (Z.leb_spec nh 0); [lia|].
    cbn [andb]. run_bind.
    destruct (Z.leb_spec (screen_width (Gif_CalculateScreenSize gfs)) nw); [|lia].
    destruct (Z.leb_spec (screen_height (Gif_CalculateScreenSize gfs)) nh); [|lia].
    reflexivity.
Qed.

End ResizeFrames.

(** The two frames side by side on a screen of 100 by 100, resized to
    150 by 50. *)
Lemma resize_stream_scales_each_frame_witness :
  ex_resize_stream (Scale.mkStream [ex_wide_frame; ex_right_frame] 100 100)
    150 50 false
  = Ok (Scale.mkStream [ex_wide_frame_scaled; ex_right_frame_scaled] 150 50)
  /\ length [ex_wide_frame_scaled; ex_right_frame_scaled]
     = length (Scale.images
                 (Scale.mkStream [ex_wide_frame; ex_right_frame] 100 100)).
Proof.
  apply (resize_stream_scales_each_frame (fun _ => 0) ex_uncompress ex_compress
           (Scale.mkStream [ex_wide_frame; ex_right_frame] 100 100)
           150 50 false 1.5 0.5).
  - vm_compute. reflexivity.
  - repeat constructor; discriminate.
  - repeat constructor; vm_compute; reflexivity.
Defined.

Lemma resize_stream_leaves_frames_witness :
  ex_resize_stream (Scale.mkStream [ex_wide_frame; ex_right_frame] 100 100)
    0 0 true
  = Ok (Scale.Gif_CalculateScreenSize
          (Scale.mkStream [ex_wide_frame; ex_right_frame] 100 100))
  /\ Scale.images
       (Scale.Gif_CalculateScreenSize
          (Scale.mkStream [ex_wide_frame; ex_right_frame] 100 100))
     = Scale.images (Scale.mkStream [ex_wide_frame; ex_right_frame] 100 100).
Proof.
  apply (resize_stream_leaves_frames (fun _ => 0) ex_uncompress ex_compress).
  left. lia.
Defined.

(** ** Scale: the size test *)

Section NeverFatal.

Import Scale.












End NeverFatal.


Section SizeTest.

Import FlipRotate Scale.

Variable uninit : nat -> Z.
Variable Gif_UncompressImage : Gif_Image -> Gif_Image.
Variable Gif_FullCompressImage : Gif_Stream -> Gif_Image -> Gif_Image.





End SizeTest.


(** On that frame the product of the step 1024000 and the right edge 3000
    is beyond INT_MAX: the run is undefined before the size test. *)
Example scale_image_broad_frame :
  ex_scale_image (Scale.mkStream [] 3000 1) ex_broad_frame 1000 1 = Undef.
Proof. vm_compute. reflexivity. Qed.
